(** * Mathigon textbook parser ([src/full.js]): model and verified properties

    The compiler turns an extended Markdown dialect into HTML plus metadata.
    This development embeds the functions of [full.js] and states the
    properties of the specification over them.

    Conventions.
    - A JavaScript string is a [string] that holds the text in UTF-8, a
      surrogate on its own as a sequence of three bytes.  The offsets and
      lengths of [full.js] count UTF-16 code units: [slice] and [units]
      take a sequence of four bytes for two units and any other sequence
      for one.  The expressions are matched on the bytes; the one that
      matches any character ([codespan]) reads one code unit, and white
      space ([\s], [trim]) is the white space of JavaScript.
    - A JavaScript array used as a stack ([push]/[pop]/[last]) is a list
      whose head is the LAST element of the array.
    - The libraries the file calls (Pug, marked's tokenizer, YAML, JSDOM's
      HTML parser, the minifier, ...) are parameters of the model. *)

From Stdlib Require Import Ascii ZArith Lia.
From stdpp Require Import base option list strings pretty.

Local Open Scope stdpp_scope.

(** ** JavaScript strings *)

Module JS.

(** [s.startsWith(p)] *)
Fixpoint startsWith (s p : string) {struct p} : bool :=
  match p with
  | EmptyString => true
  | String a p' =>
      match s with
      | EmptyString => false
      | String b s' => if Ascii.eqb a b then startsWith s' p' else false
      end
  end.

(** *** Bytes and code units

    The text after the first [n] bytes of [s], and the text of these
    bytes. *)
Fixpoint bytes_from (n : nat) (s : string) : string :=
  match n, s with
  | O, _ => s
  | S _, EmptyString => EmptyString
  | S k, String _ s' => bytes_from k s'
  end.

Fixpoint bytes_to (n : nat) (s : string) : string :=
  match n, s with
  | O, _ => EmptyString
  | S _, EmptyString => EmptyString
  | S k, String a s' => String a (bytes_to k s')
  end.

(** The number of bytes of the UTF-8 sequence that starts with the byte
    [a]. *)
Definition sequence_bytes (a : ascii) : nat :=
  let n := nat_of_ascii a in
  if (n <? 192)%nat then 1
  else if (n <? 224)%nat then 2
  else if (n <? 240)%nat then 3
  else 4.

(** A character of four bytes is a pair of surrogates in UTF-16.  The
    second surrogate, as a sequence of three bytes, from the last two
    bytes of the character. *)
Definition low_surrogate (b2 b3 : ascii) : string :=
  String (ascii_of_nat 237)
    (String (ascii_of_nat (176 + nat_of_ascii b2 mod 16)) (String b3 EmptyString)).

(** [s.slice(n)] for [n >= 0]: the text from the code unit [n] on.  An
    offset that falls between the two surrogates of a character leaves
    the second one. *)
Fixpoint slice (n : nat) (s : string) {struct n} : string :=
  match n with
  | O => s
  | S k =>
      match s with
      | EmptyString => EmptyString
      | String a r =>
          match sequence_bytes a with
          | 4 =>
              match k with
              | O =>
                  match r with
                  | String _ (String b2 (String b3 r')) => low_surrogate b2 b3 +:+ r'
                  | _ => EmptyString
                  end
              | S k' => slice k' (bytes_from 3 r)
              end
          | m => slice k (bytes_from (m - 1) r)
          end
      end
  end.

(** The code units that the byte [a] stands for: none for a byte inside
    a sequence, two for the first byte of a sequence of four bytes. *)
Definition unit_count (a : ascii) : nat :=
  let n := nat_of_ascii a in
  if (n <? 128)%nat then 1
  else if (n <? 192)%nat then 0
  else if (n <? 240)%nat then 1
  else 2.

(** [s.length] *)
Fixpoint units (s : string) : nat :=
  match s with
  | EmptyString => 0
  | String a r => unit_count a + units r
  end.

(** [ch] is one code unit: a whole sequence of one, two or three bytes. *)
Definition one_unit (ch : string) : bool :=
  match ch with
  | EmptyString => false
  | String a r =>
      (sequence_bytes a <? 4)%nat && (String.length r =? sequence_bytes a - 1)%nat
  end.

(** Adds a character in front of the first piece of a split. *)
Definition cons_head (a : ascii) (l : list string) : list string :=
  match l with
  | [] => [String a EmptyString]
  | h :: t => String a h :: t
  end.

(** [s.split(sep)] for a non-empty separator.  [skip] counts the
    characters of a separator that was recognised and is still to be
    passed over. *)
Fixpoint split_from (sep : string) (skip : nat) (s : string) : list string :=
  match s with
  | EmptyString => [EmptyString]
  | String a s' =>
      match skip with
      | S k => split_from sep k s'
      | O =>
          if startsWith s sep
          then EmptyString :: split_from sep (String.length sep - 1) s'
          else cons_head a (split_from sep 0 s')
      end
  end.

Definition split (sep s : string) : list string := split_from sep 0 s.

(** [l.join(sep)] *)
Definition join (sep : string) (l : list string) : string :=
  String.concat sep l.

(** [s.endsWith(p)] *)
Definition endsWith (s p : string) : bool :=
  startsWith (String.rev s) (String.rev p).

(** [s.replace(pat, rep)] with a string pattern: only the first occurrence
    is replaced.  ([rep] is used literally: every replacement text passed
    with a string pattern in [full.js] is free of the dollar sign.) *)
Fixpoint replace (pat rep s : string) : string :=
  if startsWith s pat then rep +:+ bytes_from (String.length pat) s
  else match s with
       | EmptyString => EmptyString
       | String a s' => String a (replace pat rep s')
       end.

(** *** Regular expressions

    A regular expression is represented by its matcher anchored at the
    start of a text: the capture groups and the length of the match.
    Every expression of [full.js] matches at least one character. *)
Definition matcher : Type := string -> option (list string * nat).

(** What a match is replaced with, from the matched text, the groups, the
    text before the match and the text after it. *)
Definition replacer : Type := string -> list string -> string -> string -> string.

(** A plain word, as in [/when=/]. *)
Definition word (pat : string) : matcher :=
  fun s => if startsWith s pat then Some ([], String.length pat) else None.

(** [s.replace(re, rep)] with the [g] flag: every match, scanning from
    the left, a match never starting inside the previous one.  [before] is
    the text already passed, [skip] the number of characters of the last
    match still to pass. *)
Fixpoint replace_global_from (re : matcher) (rep : replacer)
    (before : string) (skip : nat) (s : string) : string :=
  match s with
  | EmptyString => EmptyString
  | String a s' =>
      let before' := before +:+ String a EmptyString in
      match skip with
      | S k => replace_global_from re rep before' k s'
      | O =>
          match re s with
          | Some (groups, len) =>
              rep (bytes_to len s) groups before (bytes_from len s)
                +:+ replace_global_from re rep before' (len - 1) s'
          | None => String a (replace_global_from re rep before' 0 s')
          end
      end
  end.

Definition replace_global (re : matcher) (rep : replacer) (s : string) : string :=
  replace_global_from re rep EmptyString 0 s.

(** [s.replace(re, rep)] without the [g] flag: the first match only. *)
Fixpoint replace_first_from (re : matcher) (rep : replacer)
    (before : string) (s : string) : string :=
  match re s with
  | Some (groups, len) => rep (bytes_to len s) groups before (bytes_from len s) +:+ bytes_from len s
  | None =>
      match s with
      | EmptyString => EmptyString
      | String a s' =>
          String a (replace_first_from re rep (before +:+ String a EmptyString) s')
      end
  end.

Definition replace_first (re : matcher) (rep : replacer) (s : string) : string :=
  replace_first_from re rep EmptyString s.

Definition digit_of (a : ascii) : option nat :=
  let n := nat_of_ascii a in
  if (48 <=? n)%nat && (n <=? 57)%nat then Some (n - 48)%nat else None.

(** Capture group [n], counted from 1. *)
Definition group (groups : list string) (n : nat) : option string :=
  match n with
  | O => None
  | S k => groups !! k
  end.

(** A replacement given as a template text: [$$], [$&], [$`], [$'] and
    [$n]/[$nn] stand for the dollar sign, the match, the text before, the
    text after and a capture group; any other dollar sign stands for
    itself. *)
Fixpoint expand (tmpl : string) : replacer :=
  fun m groups before after =>
  match tmpl with
  | EmptyString => EmptyString
  | String a rest =>
      if negb (Ascii.eqb a "$"%char)
      then String a (expand rest m groups before after)
      else
        match rest with
        | EmptyString => String a EmptyString
        | String c t =>
            if Ascii.eqb c "$"%char then "$" +:+ expand t m groups before after
            else if Ascii.eqb c "&"%char then m +:+ expand t m groups before after
            else if Ascii.eqb c "`"%char then before +:+ expand t m groups before after
            else if Ascii.eqb c "'"%char then after +:+ expand t m groups before after
            else
              match digit_of c with
              | None => String a (expand rest m groups before after)
              | Some n =>
                  let one :=
                    match group groups n with
                    | Some g => g +:+ expand t m groups before after
                    | None => String a (expand rest m groups before after)
                    end in
                  match t with
                  | EmptyString => one
                  | String d t' =>
                      match digit_of d with
                      | None => one
                      | Some n' =>
                          match group groups (10 * n + n') with
                          | Some g => g +:+ expand t' m groups before after
                          | None => one
                          end
                      end
                  end
              end
        end
  end.

(** A replacement given as a function of the match and its groups. *)
Definition by_function (f : string -> list string -> string) : replacer :=
  fun m groups _ _ => f m groups.

(** The longest prefix of [s] whose characters satisfy [p], and the rest. *)
Fixpoint span (p : ascii -> bool) (s : string) : string * string :=
  match s with
  | EmptyString => (EmptyString, EmptyString)
  | String a s' =>
      if p a
      then let (x, r) := span p s' in (String a x, r)
      else (EmptyString, s)
  end.

Definition is_digit (a : ascii) : bool :=
  match digit_of a with Some _ => true | None => false end.

(** Every character of [s] satisfies [p]. *)
Fixpoint every (p : ascii -> bool) (s : string) : bool :=
  match s with
  | EmptyString => true
  | String a s' => p a && every p s'
  end.

(** The byte of [s] at offset [i]; 256 past the end. *)
Definition byte_at (i : nat) (s : string) : nat :=
  match String.get i s with
  | Some a => nat_of_ascii a
  | None => 256%nat
  end.

(** The length in bytes of a white space character at the start of [s]:
    tab, line feed, vertical tab, form feed, carriage return, space,
    U+00A0, U+1680, U+2000 to U+200A, U+2028, U+2029, U+202F, U+205F,
    U+3000 and U+FEFF. *)
Definition white_space (s : string) : option nat :=
  let a := byte_at 0 s in
  let b := byte_at 1 s in
  let c := byte_at 2 s in
  if ((9 <=? a) && (a <=? 13) || (a =? 32))%nat then Some 1%nat
  else if ((a =? 194) && (b =? 160))%nat then Some 2%nat
  else if ((a =? 225) && (b =? 154) && (c =? 128))%nat then Some 3%nat
  else if ((a =? 226) && (b =? 128)
           && ((128 <=? c) && (c <=? 138) || (c =? 168) || (c =? 169) || (c =? 175)))%nat
  then Some 3%nat
  else if ((a =? 226) && (b =? 129) && (c =? 159))%nat then Some 3%nat
  else if ((a =? 227) && (b =? 128) && (c =? 128))%nat then Some 3%nat
  else if ((a =? 239) && (b =? 187) && (c =? 191))%nat then Some 3%nat
  else None.

(** [s] without the white space at its start; [skip] counts the bytes of
    a white space character still to pass. *)
Fixpoint trimStart_from (skip : nat) (s : string) : string :=
  match s with
  | EmptyString => EmptyString
  | String _ r =>
      match skip with
      | S k => trimStart_from k r
      | O =>
          match white_space s with
          | Some n => trimStart_from (n - 1) r
          | None => s
          end
      end
  end.

Definition trimStart (s : string) : string := trimStart_from 0 s.

(** [s] without the white space at its end: the text up to the point
    from which all is white space. *)
Fixpoint trimEnd (s : string) : string :=
  match s with
  | EmptyString => EmptyString
  | String a r =>
      if String.eqb (trimStart s) EmptyString then EmptyString
      else String a (trimEnd r)
  end.

(** [s.trim()] *)
Definition trim (s : string) : string := trimEnd (trimStart s).

(** A replacement that does not read what is before the match. *)
Definition ignores_before (rep : replacer) : Prop :=
  forall m groups b1 b2 after, rep m groups b1 after = rep m groups b2 after.

(** [re] matches at no position of [s]. *)
Fixpoint matches_nowhere (re : matcher) (s : string) : bool :=
  match s with
  | EmptyString => true
  | String _ s' =>
      match re s with
      | Some _ => false
      | None => matches_nowhere re s'
      end
  end.

(** In the text [pre +:+ t], [re] matches at no position of [pre]: a match
    at the start of [t] is the leftmost one. *)
Fixpoint unmatched_before (re : matcher) (pre t : string) : bool :=
  match pre with
  | EmptyString => true
  | String _ pre' =>
      match re (pre +:+ t) with
      | Some _ => false
      | None => unmatched_before re pre' t
      end
  end.

(** [c] is a character of [s]. *)
Fixpoint contains (c : ascii) (s : string) : bool :=
  match s with
  | EmptyString => false
  | String a s' => Ascii.eqb a c || contains c s'
  end.

(** String coercion of a value that may be [undefined], as done by [+]. *)
Definition str_of (o : option string) : string :=
  match o with
  | Some s => s
  | None => "undefined"
  end.

End JS.

(** ** Errors *)

(** What a call can throw.  The first three come from the libraries
    (Pug, the YAML parser, the maths converter); the last two are raised by
    the JavaScript runtime and by the DOM. *)
Inductive exn : Type :=
| TemplateRenderError
| MetadataParseError
| MathConversionError
| TypeError
| DOMException.

Inductive result (A : Type) : Type :=
| Ok (a : A)
| Throw (e : exn).
Arguments Ok {A} a.
Arguments Throw {A} e.

Definition rbind {A B} (m : result A) (k : A -> result B) : result B :=
  match m with
  | Ok a => k a
  | Throw e => Throw e
  end.

Notation "'let!' x ':=' m 'in' k" := (rbind m (fun x => k))
  (at level 10, x pattern, m at level 100, k at level 200).

(** A library call that either returns or throws [e]. *)
Definition or_throw {A} (e : exn) (o : option A) : result A :=
  match o with
  | Some a => Ok a
  | None => Throw e
  end.

(** ** Characters that cannot be written inside a literal *)

Definition nl : string := String "010"%char EmptyString.
Definition dq : string := String "034"%char EmptyString.

(** [Q s] is [s] between double quotes, as in an HTML attribute value. *)
Definition Q (s : string) : string := dq +:+ s +:+ dq.

(** ** Block structure parser: [blockIndentation] *)

Module Blocks.
Import JS.

(** The two stacks of [blockIndentation]; the head of each list is the
    top of the stack. *)
Record stacks : Type := Stacks { closeTags : list string; nested : list string }.

Definition empty_stacks : stacks := Stacks [] [].

(** The expression of the column width: [width=], a double quote, one or
    more digits (the capture group), a double quote. *)
Definition width_re : matcher :=
  fun s =>
    if startsWith s ("width=" +:+ dq) then
      let (ds, r) := span is_digit (bytes_from 7 s) in
      match ds with
      | EmptyString => None
      | String _ _ =>
          if startsWith r dq then Some ([ds], 7 + String.length ds + 1) else None
      end
    else None.

(** [col.replace(...)]: the width attribute becomes a [style] attribute
    with the value [width: $1px]. *)
Definition rewrite_width (col : string) : string :=
  replace_first width_re (expand ("style=" +:+ Q "width: $1px")) col.

(** [last(nested) === kind] *)
Definition last_is (kind : string) (st : stacks) : bool :=
  match nested st with
  | k :: _ => String.eqb k kind
  | [] => false
  end.

Section WithPug.

(** [pug.render(source, {filename})]; [None] when Pug throws. *)
Variable pug_render : option string -> string -> option string.

Definition render (src : string) : result string :=
  or_throw TemplateRenderError (pug_render None src).

(** [x.split('</')[0]] *)
Definition open_part (html : string) : string :=
  match split "</" html with
  | h :: _ => h
  | [] => EmptyString
  end.

(** One iteration of the loop of [blockIndentation]: the new text of the
    line and the new stacks. *)
Definition blockLine (st : stacks) (line : string) : result (string * stacks) :=
  if negb (startsWith line ":::") then Ok (line, st) else
  let tag := slice 4 line in
  match tag with
  | EmptyString =>
      Ok (nl +:+ str_of (head (closeTags st)) +:+ nl,
          Stacks (tail (closeTags st)) (tail (nested st)))
  | String _ _ =>
      if startsWith tag "column" then
        let! html := render (replace "column" "div" tag) in
        let col := rewrite_width (open_part html) in
        if last_is "column" st
        then Ok (nl +:+ "</div>" +:+ col +:+ nl, st)
        else Ok ("<div class=" +:+ Q "row padded" +:+ ">" +:+ col +:+ nl,
                 Stacks ("</div></div>" :: closeTags st)
                        ("column" :: nested st))
      else if startsWith tag "tab" then
        let! html := render (replace "tab" ".tab" tag) in
        let col := open_part html in
        if last_is "tab" st
        then Ok (nl +:+ "</div>" +:+ col +:+ nl, st)
        else Ok ("<x-tabbox>" +:+ col +:+ nl,
                 Stacks ("</div></x-tabbox>" :: closeTags st)
                        ("tab" :: nested st))
      else
        let! html := render tag in
        let wrap := split "</" html in
        Ok (str_of (wrap !! 0%nat) +:+ nl,
            Stacks (("</" +:+ str_of (wrap !! 1%nat)) :: closeTags st)
                   (EmptyString :: nested st))
  end.

(** The loop over the lines, threading the stacks. *)
Fixpoint blockLines (st : stacks) (lines : list string)
  : result (list string * stacks) :=
  match lines with
  | [] => Ok ([], st)
  | l :: ls =>
      let! (l', st') := blockLine st l in
      let! (ls', st'') := blockLines st' ls in
      Ok (l' :: ls', st'')
  end.

Definition blockIndentation (source : string) : result string :=
  let! (lines, _) := blockLines empty_stacks (split nl source) in
  Ok (join nl lines).

End WithPug.

(** No line feed in [s]: [s] is one line. *)
Fixpoint one_line (s : string) : bool :=
  match s with
  | EmptyString => true
  | String a s' => negb (Ascii.eqb a "010"%char) && one_line s'
  end.

(** A marker line and its kinds. *)
Definition is_marker (line : string) : bool := startsWith line ":::".

Definition is_close (line : string) : bool :=
  is_marker line && String.eqb (slice 4 line) EmptyString.

Definition is_open (line : string) : bool :=
  is_marker line && negb (String.eqb (slice 4 line) EmptyString).

(** The template handed to Pug for an open marker with specifier [tag]. *)
Definition template_of (tag : string) : string :=
  if startsWith tag "column" then replace "column" "div" tag
  else if startsWith tag "tab" then replace "tab" ".tab" tag
  else tag.

End Blocks.

(** ** Text preprocessor: the first lines of [parseFull] *)

Module Preprocess.
Import JS.

(** The four openings that the image expression accepts in front of
    [images/]: [url(], and [src=], [href=], [background=] followed by a
    double quote. *)
Definition image_openings : list string :=
  ["url("; "src=" +:+ dq; "href=" +:+ dq; "background=" +:+ dq].

Definition image_re : matcher :=
  fun s =>
    match List.find (fun o => startsWith s (o +:+ "images/")) image_openings with
    | Some o => Some ([o], String.length o + 7)
    | None => None
    end.

(** The first [content.replace] of [parseFull]: every opening followed
    by [images/] becomes the opening followed by [/resources/<id>/images/].
    The document identifier is spliced into the template before the
    template is read. *)
Definition rewrite_images (id content : string) : string :=
  replace_global image_re (expand ("$1/resources/" +:+ id +:+ "/images/")) content.

(** [content.replace(/name=/g, 'data-name=')] *)
Definition rename (name content : string) : string :=
  replace_global (word (name +:+ "=")) (expand ("data-" +:+ name +:+ "=")) content.

Definition preprocess (id content : string) : string :=
  rename "animation" (rename "delay" (rename "when" (rewrite_images id content))).



End Preprocess.

(** ** Inline extension processor: [parseParagraph] *)

Module Inline.
Import JS.

Definition not_char (c a : ascii) : bool := negb (Ascii.eqb a c).

(** [/\[\[([^\]]+)]]/] *)
Definition blank_re : matcher :=
  fun s =>
    if startsWith s "[[" then
      let (body, r) := span (not_char "]"%char) (bytes_from 2 s) in
      match body with
      | EmptyString => None
      | String _ _ =>
          if startsWith r "]]" then Some ([body], 2 + String.length body + 2) else None
      end
    else None.

(** The callback of the first [replace] of [parseParagraph]. *)
Definition blank (body : string) : string :=
  if (1 <? length (split "|" body))%nat
  then "<x-blank choices=" +:+ Q body +:+ "></x-blank>"
  else "<x-blank-input solution=" +:+ Q body +:+ "></x-blank-input>".

Definition replace_blanks (text : string) : string :=
  replace_global blank_re
    (by_function (fun _ groups => blank (default EmptyString (groups !! 0%nat)))) text.

(** A brace group [{...}] with a non-empty body free of the closing
    brace, at the start of [s]: the body and the length of the group. *)
Definition brace_group (s : string) : option (string * nat) :=
  if startsWith s "{" then
    let (body, r) := span (not_char "}"%char) (bytes_from 1 s) in
    match body with
    | EmptyString => None
    | String _ _ =>
        if startsWith r "}" then Some (body, 1 + String.length body + 1) else None
    end
  else None.

(** [/\${([^}]+)}{([^}]+)}/] *)
Definition bound_var_re : matcher :=
  fun s =>
    if startsWith s "$" then
      match brace_group (bytes_from 1 s) with
      | Some (expr, n1) =>
          match brace_group (bytes_from (1 + n1) s) with
          | Some (name, n2) => Some ([expr; name], 1 + n1 + n2)
          | None => None
          end
      | None => None
      end
    else None.

(** [/\${([^}]+)}(?!<\/x-var>)/] *)
Definition var_re : matcher :=
  fun s =>
    if startsWith s "$" then
      match brace_group (bytes_from 1 s) with
      | Some (expr, n1) =>
          if startsWith (bytes_from (1 + n1) s) "</x-var>" then None
          else Some ([expr], 1 + n1)
      | None => None
      end
    else None.

Definition replace_bound_vars (text : string) : string :=
  replace_global bound_var_re
    (expand ("<x-var bind=" +:+ Q "$2" +:+ ">${$1}</x-var>")) text.

Definition replace_vars (text : string) : string :=
  replace_global var_re
    (expand ("<span class=" +:+ Q "var" +:+ ">${$1}</span>")) text.

(** Hexadecimal digits of a code point, as [n.toString(16)]. *)
Definition hex_digit (n : N) : string :=
  String (ascii_of_N (if (n <? 10)%N then 48 + n else 87 + n)) EmptyString.

Fixpoint to_hex_fuel (fuel : nat) (n : N) : string :=
  match fuel with
  | O => EmptyString
  | S f =>
      if (n <? 16)%N then hex_digit n
      else to_hex_fuel f (n / 16) +:+ hex_digit (n mod 16)
  end.

Definition to_hex (n : N) : string := to_hex_fuel (S (N.to_nat (N.log2 n))) n.

(** [emojiImg(symbol, name)]; the symbol is given by its first code
    point, all that the function reads of it. *)
Definition emojiImg (symbol : N) (name : string) : string :=
  "<img class=" +:+ Q "emoji" +:+ " width=" +:+ Q "20" +:+ " height=" +:+ Q "20"
    +:+ " src=" +:+ Q ("/images/emoji/" +:+ to_hex symbol +:+ ".png")
    +:+ " alt=" +:+ Q name +:+ "/>".

Section WithEmoji.

(** [emoji.emojify(text, on_missing, format)] of the node-emoji package. *)
Variable emojify : (string -> string) -> (N -> string -> string) -> string -> string.

Definition parseParagraph (text : string) : string :=
  emojify (fun x => x) emojiImg
    (replace_vars (replace_bound_vars (replace_blanks text))).

End WithEmoji.

End Inline.

(** ** Document and step model *)

Module Data.

(** A value of the front matter.  The YAML parser is taken to yield
    scalars for the keys of a block; nested values are outside the model.
    A number is held by what [full.js] reads of it: whether it is falsy
    (zero or not a number) and the text that [String] gives for it. *)
Inductive scalar : Type :=
| SNull
| SBool (b : bool)
| SNum (zero : bool) (text : string)
| SStr (s : string).

(** A property read may give [undefined], written [None]. *)
Definition truthy (v : option scalar) : bool :=
  match v with
  | None | Some SNull => false
  | Some (SBool b) => b
  | Some (SNum zero _) => negb zero
  | Some (SStr s) => negb (String.eqb s EmptyString)
  end.

(** String coercion, as done when a value is stored in an attribute. *)
Definition to_string (v : option scalar) : string :=
  match v with
  | None => "undefined"
  | Some SNull => "null"
  | Some (SBool true) => "true"
  | Some (SBool false) => "false"
  | Some (SNum _ text) => text
  | Some (SStr s) => s
  end.

(** An object with scalar properties, in insertion order. *)
Definition obj : Type := list (string * scalar).

Fixpoint get (o : obj) (k : string) : option scalar :=
  match o with
  | [] => None
  | (k', v) :: o' => if String.eqb k' k then Some v else get o' k
  end.

(** [o[k] = v] *)
Fixpoint set (o : obj) (k : string) (v : scalar) : obj :=
  match o with
  | [] => [(k, v)]
  | (k', v') :: o' =>
      if String.eqb k' k then (k, v) :: o' else (k', v') :: set o' k v
  end.

(** [Object.assign(target, source)] *)
Definition assign (target source : obj) : obj :=
  foldl (fun t kv => set t (fst kv) (snd kv)) target source.

(** A step object is held in a store and referred to by its address, so
    that [currentStep] and an element of [data.steps] can be the same
    object. *)
Abbreviation ref := nat (only parsing).

(** The value of [data.steps]: the array created by [parseFull], or a
    scalar that a top-level front matter block has put in its place. *)
Inductive steps_value : Type :=
| StepsArray (l : list ref)
| StepsScalar (v : scalar).

(** [data]: the array of steps and every other property. *)
Record document : Type :=
  Document { steps : steps_value; props : obj }.

(** [Object.assign(data, source)] *)
Definition assign_document (d : document) (source : obj) : document :=
  foldl (fun d kv =>
           if String.eqb (fst kv) "steps"
           then Document (StepsScalar (snd kv)) (props d)
           else Document (steps d) (set (props d) (fst kv) (snd kv)))
        d source.

(** A JavaScript [Set] of strings: members in insertion order. *)
Definition set_add (x : string) (s : list string) : list string :=
  if bool_decide (x ∈ s) then s else s ++ [x].

End Data.

(** ** The DOM *)

Module Dom.
Import JS.

Definition attrs : Type := list (string * string).

#[local] Unset Elimination Schemes.
Inductive node : Type :=
| Element (tag : string) (a : attrs) (children : list node)
| Text (data : string)
| Comment (data : string).
#[local] Set Elimination Schemes.

Definition is_element (n : node) : bool :=
  match n with Element _ _ _ => true | _ => false end.

Definition childNodes (n : node) : list node :=
  match n with Element _ _ cs => cs | _ => [] end.

Definition attributes (n : node) : attrs :=
  match n with Element _ a _ => a | _ => [] end.

(** *** Attributes *)

Fixpoint getAttribute (a : attrs) (name : string) : option string :=
  match a with
  | [] => None
  | (k, v) :: a' => if String.eqb k name then Some v else getAttribute a' name
  end.

Fixpoint setAttribute (a : attrs) (name value : string) : attrs :=
  match a with
  | [] => [(name, value)]
  | (k, v) :: a' =>
      if String.eqb k name then (name, value) :: a'
      else (k, v) :: setAttribute a' name value
  end.

Definition removeAttribute (a : attrs) (name : string) : attrs :=
  filter (fun kv => negb (String.eqb (fst kv) name) = true) a.

Definition hasAttribute (a : attrs) (name : string) : bool :=
  match getAttribute a name with Some _ => true | None => false end.

(** *** Class lists *)

(** White space that separates class names: tab, line feed, form feed,
    carriage return and space. *)
Definition is_class_space (c : ascii) : bool :=
  let n := nat_of_ascii c in
  (n =? 9)%nat || (n =? 10)%nat || (n =? 12)%nat || (n =? 13)%nat || (n =? 32)%nat.

(** The words of a text separated by white space. *)
Fixpoint tokens (s : string) : list string :=
  match s with
  | EmptyString => []
  | String c s' =>
      if is_class_space c then tokens s'
      else
        match s' with
        | EmptyString => [String c EmptyString]
        | String d _ =>
            if is_class_space d then String c EmptyString :: tokens s'
            else cons_head c (tokens s')
        end
  end.

(** Adds a token at the end unless it is there. *)
Definition add_token (l : list string) (t : string) : list string :=
  if bool_decide (t ∈ l) then l else l ++ [t].

(** [element.classList]: the class names, each once, in order. *)
Definition classList (a : attrs) : list string :=
  foldl add_token [] (tokens (default EmptyString (getAttribute a "class"))).

Fixpoint has_space (s : string) : bool :=
  match s with
  | EmptyString => false
  | String c s' => is_class_space c || has_space s'
  end.

(** A token that [add] and [remove] accept: not empty, no white space. *)
Definition valid_token (t : string) : bool :=
  negb (String.eqb t EmptyString) && negb (has_space t).

(** The class attribute after a change of the class list. *)
Definition update_class (a : attrs) (l : list string) : attrs :=
  match getAttribute a "class", l with
  | None, [] => a
  | _, _ => setAttribute a "class" (join " " l)
  end.

(** [element.classList.add(...ts)] *)
Definition classList_add (ts : list string) (a : attrs) : result attrs :=
  if forallb valid_token ts
  then Ok (update_class a (foldl add_token (classList a) ts))
  else Throw DOMException.

(** [element.classList.remove(t)] *)
Definition classList_remove (t : string) (a : attrs) : result attrs :=
  if valid_token t
  then Ok (update_class a (filter (fun x => x ≠ t) (classList a)))
  else Throw DOMException.

(** *** Nodes of a tree

    A node of the tree under [doc.body] is referred to by its path: the
    indices, among the child nodes, that lead to it from the body. *)
Definition path : Type := list nat.

Fixpoint node_at (n : node) (p : path) : option node :=
  match p with
  | [] => Some n
  | i :: p' =>
      match n with
      | Element _ _ cs =>
          match cs !! i with
          | Some c => node_at c p'
          | None => None
          end
      | _ => None
      end
  end.

(** Replaces the node at [p] by [f] of it. *)
Fixpoint update_at (f : node -> node) (p : path) (n : node) : node :=
  match p with
  | [] => f n
  | i :: p' =>
      match n with
      | Element t a cs => Element t a (alter (update_at f p') i cs)
      | _ => n
      end
  end.

Definition set_attributes (a' : attrs) (n : node) : node :=
  match n with
  | Element t _ cs => Element t a' cs
  | _ => n
  end.

(** The attributes of the element at [p]. *)
Definition attrs_at (n : node) (p : path) : option attrs :=
  match node_at n p with
  | Some (Element _ a _) => Some a
  | _ => None
  end.

(** The tag of the element at [p]. *)
Definition tag_at (n : node) (p : path) : option string :=
  match node_at n p with
  | Some (Element t _ _) => Some t
  | _ => None
  end.


(** [p.parentNode], for a node other than the body. *)
Definition parent_path (p : path) : path := removelast p.

(** The paths of the elements among the children [l], the first of which
    has index [i], each with the paths that [below] gives for it; [first]
    says whether an element stands before what is below it. *)
Definition child_paths (first : bool) (below : node -> list path)
  : nat -> list node -> list path :=
  fix go (i : nat) (l : list node) : list path :=
    match l with
    | [] => []
    | c :: l' =>
        (if is_element c
         then if first then [i] :: (cons i <$> below c)
              else (cons i <$> below c) ++ [[i]]
         else [])
          ++ go (S i) l'
    end.

(** The elements below [n] in document order. *)
Fixpoint descendants (n : node) : list path :=
  match n with
  | Element _ _ cs => child_paths true descendants 0 cs
  | _ => []
  end.

(** [nodes(element)] of [full.js]: the elements below [n], each after the
    elements below it. *)
Fixpoint nodes (n : node) : list path :=
  match n with
  | Element _ _ cs => child_paths false nodes 0 cs
  | _ => []
  end.

(** No path of the list is a prefix of a later one: an element comes
    after the elements below it, and it comes once. *)
Fixpoint children_first (l : list path) : Prop :=
  match l with
  | [] => True
  | p :: l' => Forall (fun q => ~ p `prefix_of` q) l' /\ children_first l'
  end.

(** The three selectors of [full.js]: a tag name, [.class], [[attribute]]. *)
Inductive selector : Type :=
| ByTag (tag : string)
| ByClass (c : string)
| ByAttribute (name : string).

(** A letter of ASCII in lower case. *)
Definition lower (a : ascii) : ascii :=
  let n := nat_of_ascii a in
  if ((65 <=? n) && (n <=? 90))%nat then ascii_of_nat (n + 32) else a.

Fixpoint lowercase (s : string) : string :=
  match s with
  | EmptyString => EmptyString
  | String a r => String (lower a) (lowercase r)
  end.

(** The document that [parseFull] builds has no doctype and is in quirks
    mode, where a class selector matches a class name whatever the case
    of its letters. *)
Definition matches (sel : selector) (n : node) : bool :=
  match n with
  | Element t a _ =>
      match sel with
      | ByTag t' => String.eqb t t'
      | ByClass c =>
          existsb (fun t => String.eqb (lowercase t) (lowercase c)) (classList a)
      | ByAttribute name => hasAttribute a name
      end
  | _ => false
  end.

(** [body.querySelectorAll(sel)] *)
Definition selected (sel : selector) (body : node) (p : path) : bool :=
  match node_at body p with
  | Some n => matches sel n
  | None => false
  end.

Definition querySelectorAll (sel : selector) (body : node) : list path :=
  filter (fun p => selected sel body p = true) (descendants body).

End Dom.

(** ** The libraries *)

(** What marked does with a text: the calls of the renderer it makes.  A
    call stands with the calls that produce its text argument, which are
    made first; [CRaw] is text that marked produces by its own rules. *)
#[local] Unset Elimination Schemes.
Inductive call : Type :=
| CRaw (html : string)
| CLink (href : string) (title : option string) (text : list call)
| CHeading (text : list call) (level : nat)
| CCodespan (code : string)
| CBlockquote (quote : list call)
| CHr
| CCode (code : string)
| CListitem (text : list call)
| CParagraph (text : list call).
#[local] Set Elimination Schemes.

Record libraries : Type := Libraries {
  (** [pug.render(source, {filename})]; [None] when it throws *)
  pug_render : option string -> string -> option string;
  (** the tokens of a [marked.Lexer] whose [html] rule is the one of
      [parseFull], as [marked.Parser.parse] walks them *)
  lexer_lex : string -> list call;
  (** [marked(source, {renderer})] *)
  marked : string -> list call;
  (** [yaml.parse(text)]: the own properties of the value; [None] when it
      throws *)
  yaml_parse : string -> option Data.obj;
  (** [ascii2mathml(text, {bare: true})]; [None] when it throws *)
  ascii2mathml : string -> option string;
  (** [entities.decode(text)] *)
  entities_decode : string -> string;
  (** [emoji.emojify(text, on_missing, format)] *)
  emojify : (string -> string) -> (N -> string -> string) -> string -> string;
  (** [new JSDom(html).window.document.body] *)
  JSDom : string -> Dom.node;
  (** the child nodes that [element.innerHTML = html] gives an element
      with the given tag *)
  parse_fragment : string -> string -> list Dom.node;
  (** [innerHTML] of an element with the given child nodes *)
  serialize : list Dom.node -> string;
  (** [minify(html, minifyOptions)] *)
  minify : string -> string
}.

(** ** Module state and the renderer *)

Module Renderer.
Import JS Data.

(** The variables declared with [let] at the top of [full.js], and the
    store of the step objects. *)
Record state : Type := State {
  bios : list string;
  gloss : list string;
  data : document;
  currentStep : option ref;
  currentDirectory : option string;
  globalPug : string;
  originalP : option string;
  objects : list obj
}.

(** The state when the module has been loaded. *)
Definition initial : state :=
  State [] [] (Document (StepsArray []) []) None None EmptyString None [].

Definition with_bios (f : list string -> list string) (s : state) : state :=
  State (f (bios s)) (gloss s) (data s) (currentStep s) (currentDirectory s)
        (globalPug s) (originalP s) (objects s).
Definition with_gloss (f : list string -> list string) (s : state) : state :=
  State (bios s) (f (gloss s)) (data s) (currentStep s) (currentDirectory s)
        (globalPug s) (originalP s) (objects s).
Definition with_data (f : document -> document) (s : state) : state :=
  State (bios s) (gloss s) (f (data s)) (currentStep s) (currentDirectory s)
        (globalPug s) (originalP s) (objects s).
Definition with_currentStep (r : option ref) (s : state) : state :=
  State (bios s) (gloss s) (data s) r (currentDirectory s)
        (globalPug s) (originalP s) (objects s).
Definition with_globalPug (f : string -> string) (s : state) : state :=
  State (bios s) (gloss s) (data s) (currentStep s) (currentDirectory s)
        (f (globalPug s)) (originalP s) (objects s).
Definition with_originalP (p : option string) (s : state) : state :=
  State (bios s) (gloss s) (data s) (currentStep s) (currentDirectory s)
        (globalPug s) p (objects s).
Definition with_objects (f : list obj -> list obj) (s : state) : state :=
  State (bios s) (gloss s) (data s) (currentStep s) (currentDirectory s)
        (globalPug s) (originalP s) (f (objects s)).

(** A computation on the module state that returns or throws; the state
    outlives an exception. *)
Definition M (A : Type) : Type := state -> result A * state.

Definition ret {A} (a : A) : M A := fun s => (Ok a, s).

Definition bind {A B} (m : M A) (k : A -> M B) : M B :=
  fun s => match m s with
           | (Ok a, s') => k a s'
           | (Throw e, s') => (Throw e, s')
           end.

Definition throw {A} (e : exn) : M A := fun s => (Throw e, s).
Definition lift {A} (r : result A) : M A := fun s => (r, s).
Definition gets {A} (f : state -> A) : M A := fun s => (Ok (f s), s).
Definition modify (f : state -> state) : M unit := fun s => (Ok tt, f s).

Notation "'let*' x ':=' m 'in' k" := (bind m (fun x => k))
  (at level 10, x pattern, m at level 100, k at level 200).
Notation "m ';;' k" := (bind m (fun _ => k))
  (at level 100, k at level 200, right associativity).

(** [m] keeps the property [I] of the module state, whether it returns
    or throws. *)
Definition keeps (I : state -> Prop) {A} (m : M A) : Prop :=
  forall s, I s -> I (snd (m s)).

(** The array of steps that [parseFull] creates holds the step objects in
    the order of their creation: the addresses from 0 on. *)
Definition steps_fresh (s : state) : Prop :=
  match Data.steps (data s) with
  | StepsArray l => l = seq 0 (length (objects s))
  | StepsScalar _ => True
  end.

(** The sets have no repetition. *)
Definition sets_ok (s : state) : Prop := NoDup (gloss s) /\ NoDup (bios s).

(** A computation that leaves both sets as they are. *)
Definition sets_untouched {A} (m : M A) : Prop :=
  forall s, gloss (snd (m s)) = gloss s /\ bios (snd (m s)) = bios s.

(** A loop over a list that threads a value. *)
Fixpoint foldM {A B} (f : B -> A -> M B) (b : B) (l : list A) : M B :=
  match l with
  | [] => ret b
  | a :: l' => let* b' := f b a in foldM f b' l'
  end.

(** *** [renderer.link] *)

Section WithLibraries.
Variable L : libraries.

Definition link (href : string) (title : option string) (text : string) : M string :=
  if startsWith href "gloss:" then
    let id := slice 6 href in
    modify (with_gloss (set_add id));;
    ret ("<x-gloss xid=" +:+ Q id +:+ ">" +:+ text +:+ "</x-gloss>")
  else if startsWith href "bio:" then
    let id := slice 4 href in
    modify (with_bios (set_add id));;
    ret ("<x-bio xid=" +:+ Q id +:+ ">" +:+ text +:+ "</x-bio>")
  else if startsWith href "target:" then
    let id := slice 7 href in
    ret ("<span class=" +:+ Q "step-target" +:+ " data-to=" +:+ Q id +:+ ">"
           +:+ text +:+ "</span>")
  else
    let href1 := entities_decode L href in
    if startsWith href1 "->" then
      ret ("<x-target to=" +:+ Q (trim (slice 2 href1)) +:+ ">" +:+ text
             +:+ "</x-target>")
    else
      ret ("<a href=" +:+ Q href +:+ " target=" +:+ Q "_blank" +:+ ">" +:+ text
             +:+ "</a>").

(** *** [renderer.heading] *)

Definition set_title (text : string) (d : document) : document :=
  Document (steps d) (set (props d) "title" (SStr text)).

Definition heading (text : string) (level : nat) : M string :=
  if (level =? 1)%nat then
    modify (with_data (set_title text));;
    ret EmptyString
  else
    ret ("<h" +:+ pretty level +:+ ">" +:+ text +:+ "</h" +:+ pretty level +:+ ">").

(** *** [renderer.codespan] *)

(** The length of what [.] matches at the start of [s]: one character
    other than a line terminator (bytes of UTF-8: a sequence of one to
    three bytes; U+2028 and U+2029 are E2 80 A8 and E2 80 A9). *)
Definition dot (s : string) : option nat :=
  match s with
  | EmptyString => None
  | String a r =>
      let n := nat_of_ascii a in
      if (n =? 10)%nat || (n =? 13)%nat then None
      else if (n <? 128)%nat then Some 1%nat
      else if (n <? 192)%nat then None
      else if (n <? 224)%nat then Some 2%nat
      else if (n <? 240)%nat then
        match r with
        | String b (String c _) =>
            if (n =? 226)%nat && (nat_of_ascii b =? 128)%nat
               && ((nat_of_ascii c =? 168)%nat || (nat_of_ascii c =? 169)%nat)
            then None else Some 3%nat
        | _ => Some 3%nat
        end
      else None
  end.

(** White space, then the attribute [accent] with the value [true]. *)
Definition accent_re : matcher :=
  fun s =>
    let r := trimStart s in
    if startsWith r ("accent=" +:+ Q "true")
    then Some ([], String.length s - String.length r + 13)
    else None.

(** The end of an opening tag, one character, and the closing tag of an
    operator: [/>(.)<\/mo>/]. *)
Definition mo_re : matcher :=
  fun s =>
    if startsWith s ">" then
      match dot (bytes_from 1 s) with
      | Some n =>
          if startsWith (bytes_from (1 + n) s) "</mo>"
          then Some ([bytes_to n (bytes_from 1 s)], 1 + n + 5)
          else None
      | None => None
      end
    else None.

Definition mo_value (mo : string) : string :=
  " value=" +:+ Q mo +:+ ">" +:+ mo +:+ "</mo>".

Definition codespan (code : string) : M string :=
  let* maths := lift (or_throw MathConversionError
                        (ascii2mathml L (entities_decode L code))) in
  let maths := replace_global (word "<mo>-</mo>") (expand "<mo>−</mo>") maths in
  let maths := replace_global accent_re (expand EmptyString) maths in
  let maths :=
    replace_global (word ("lspace=" +:+ Q "0" +:+ " rspace=" +:+ Q "0" +:+ ">′"))
                   (expand ">′") maths in
  let maths :=
    replace_global mo_re
      (by_function (fun _ groups => mo_value (default EmptyString (groups !! 0%nat))))
      maths in
  ret ("<span class=" +:+ Q "math" +:+ ">" +:+ maths +:+ "</span>").

(** *** [renderer.blockquote] *)

(** [originalP || quote] *)
Definition metadata_source (p : option string) (quote : string) : string :=
  match p with
  | Some (String a r) => String a r
  | _ => quote
  end.

Definition blockquote (quote : string) : M string :=
  let* p := gets originalP in
  let* documentData := lift (or_throw MetadataParseError
                               (yaml_parse L (metadata_source p quote))) in
  let* cur := gets currentStep in
  match cur with
  | Some r =>
      modify (with_objects (alter (fun o => assign o documentData) r))
  | None =>
      modify (with_data (fun d => assign_document d documentData))
  end;;
  ret EmptyString.

(** *** [renderer.hr] *)

Definition hr : M string :=
  let* previous := gets currentStep in
  let* r := gets (fun s => length (objects s)) in
  modify (with_objects (fun h => h ++ [[]]));;
  modify (with_currentStep (Some r));;
  let* d := gets data in
  match steps d with
  | StepsArray l =>
      modify (with_data (fun d => Document (StepsArray (l ++ [r])) (props d)))
  | StepsScalar _ => throw TypeError
  end;;
  ret (match previous with
       | Some _ => "</x-step><x-step>"
       | None => "<x-step>"
       end).

(** *** [renderer.code] *)

Definition code (c : string) : M string :=
  let* cur := gets currentStep in
  match cur with
  | None =>
      modify (with_globalPug (fun g => g +:+ c +:+ nl +:+ nl));;
      ret EmptyString
  | Some _ =>
      let* g := gets globalPug in
      let* dir := gets currentDirectory in
      lift (or_throw TemplateRenderError
              (pug_render L (Some (default "null" dir +:+ "/content.pug")) (g +:+ c)))
  end.

(** *** [renderer.listitem] and [renderer.paragraph] *)

Definition listitem (text : string) : M string :=
  ret ("<li>" +:+ Inline.parseParagraph (emojify L) text +:+ "</li>").

Definition paragraph (text : string) : M string :=
  modify (with_originalP (Some text));;
  ret ("<p>" +:+ Inline.parseParagraph (emojify L) text +:+ "</p>").

(** *** The calls that marked makes *)

Fixpoint render (c : call) : M string :=
  let render_all :=
    fix go (l : list call) : M string :=
      match l with
      | [] => ret EmptyString
      | c' :: l' =>
          let* a := render c' in
          let* b := go l' in
          ret (a +:+ b)
      end in
  match c with
  | CRaw html => ret html
  | CLink href title text => let* t := render_all text in link href title t
  | CHeading text level => let* t := render_all text in heading t level
  | CCodespan c => codespan c
  | CBlockquote quote => let* q := render_all quote in blockquote q
  | CHr => hr
  | CCode c => code c
  | CListitem text => let* t := render_all text in listitem t
  | CParagraph text => let* t := render_all text in paragraph t
  end.

(** The text that marked returns: the texts of the calls, one after the
    other. *)
Fixpoint render_all (l : list call) : M string :=
  match l with
  | [] => ret EmptyString
  | c :: l' =>
      let* a := render c in
      let* b := render_all l' in
      ret (a +:+ b)
  end.

End WithLibraries.

(** *** The links of a document *)

(** The addresses of the links among the calls, in the order in which
    [link] is called for them: a link comes after the links of its text. *)
Fixpoint hrefs (c : call) : list string :=
  let all :=
    fix go (l : list call) : list string :=
      match l with
      | [] => []
      | c' :: l' => hrefs c' ++ go l'
      end in
  match c with
  | CLink href _ text => all text ++ [href]
  | CHeading text _ | CBlockquote text | CListitem text | CParagraph text => all text
  | CRaw _ | CCodespan _ | CHr | CCode _ => []
  end.

Fixpoint all_hrefs (l : list call) : list string :=
  match l with
  | [] => []
  | c :: l' => hrefs c ++ all_hrefs l'
  end.

(** The glossary entry and the biography that [link] records for an
    address. *)
Definition gloss_id (href : string) : option string :=
  if startsWith href "gloss:" then Some (slice 6 href) else None.

Definition bio_id (href : string) : option string :=
  if startsWith href "gloss:" then None
  else if startsWith href "bio:" then Some (slice 4 href)
  else None.

(** The set [s] after the elements of [l] have been added, one by one. *)
Definition set_add_all (l s : list string) : list string :=
  foldl (fun s x => set_add x s) s l.

(** A computation that, when it returns, has added [g] to the glossary
    set and [b] to the biography set. *)
Definition adds {A} (g b : list string) (m : M A) : Prop :=
  forall s a s', m s = (Ok a, s') ->
    gloss s' = set_add_all g (gloss s) /\ bios s' = set_add_all b (bios s).

End Renderer.

(** ** [parseFull] *)

Module Full.
Import JS Data Dom Renderer.

(** What [parseFull] returns.  [out_data_steps] and [out_data_props] are
    [data.steps], with the step objects in place of their addresses, and
    the other properties of [data]; [out_steps] maps a step id to its
    HTML. *)
Record output : Type := Output {
  html : string;
  out_bios : list string;
  out_gloss : list string;
  out_data_props : obj;
  out_data_steps : scalar + list obj;
  out_steps : list (string * string)
}.

Section WithLibraries.
Variable L : libraries.

(** *** Attribute blocks: [blockAttributes] *)

(** [blockAttributes(node)] for the element at [p]: the tree afterwards. *)
Definition blockAttributes (body : node) (p : path) : result node :=
  match node_at body p with
  | Some (Element t a (Text txt :: rest)) =>
      match Inline.brace_group txt with
      | None => Ok body
      | Some (inner, len) =>
          let txt' := replace (bytes_to len txt) EmptyString txt in
          let! rendered := or_throw TemplateRenderError (pug_render L None inner) in
          match filter (fun n => is_element n = true) (parse_fragment L "div" rendered) with
          | Element rt ra rcs :: _ =>
              if String.eqb rt "div" then
                let a' := foldl (fun acc kv => setAttribute acc (fst kv) (snd kv)) a ra in
                Ok (update_at (fun _ => Element t a' (Text txt' :: rest)) p body)
              else
                Ok (update_at (fun _ => Element rt ra (rcs ++ Text txt' :: rest)) p body)
          | _ => Throw TypeError
          end
      end
  | _ => Ok body
  end.

(** A loop over a list that threads the tree and stops at an exception. *)
Fixpoint for_each {A} (f : node -> A -> result node) (body : node) (l : list A)
  : result node :=
  match l with
  | [] => Ok body
  | x :: l' => let! body' := f body x in for_each f body' l'
  end.

(** [for (let n of nodes(doc.body)) blockAttributes(n)] *)
Definition expand_attributes (body : node) : result node :=
  for_each blockAttributes body (nodes body).

(** *** Markdown inside elements of class [md] *)

(** [s.replace(/^<p>|<\/p>$/g, '')] *)
Definition strip_p (s : string) : string :=
  let s1 := if startsWith s "<p>" then bytes_from 3 s else s in
  if endsWith s1 "</p>" then bytes_to (String.length s1 - 4) s1 else s1.

(** [q] lies strictly below [p]. *)
Definition below (p q : path) : bool :=
  bool_decide (p `prefix_of` q) && negb (bool_decide (p = q)).

(** One round of the loop.  [body] is the tree when the list [$md] was
    taken and [done] the part of the list already visited.  An element
    that lies below a visited one has left the document when its ancestor
    received new content: it is rendered all the same, which calls the
    renderer, and the document stays as it is. *)
Definition render_md (body : node) (done : list path) (cur : node) (p : path)
  : M node :=
  match node_at body p with
  | Some (Element t a cs) =>
      let* a' := lift (classList_remove "md" a) in
      let* rendered := render_all L (marked L (serialize L cs)) in
      let cs' := parse_fragment L t (strip_p rendered) in
      if existsb (fun q => below q p) done then ret cur
      else ret (update_at (fun _ => Element t a' cs') p cur)
  | _ => ret cur
  end.

Fixpoint render_mds (body : node) (done todo : list path) (cur : node) : M node :=
  match todo with
  | [] => ret cur
  | p :: todo' =>
      let* cur' := render_md body done cur p in
      render_mds body (done ++ [p]) todo' cur'
  end.

Definition render_markdown (body : node) : M node :=
  render_mds body [] (querySelectorAll (ByClass "md") body) body.

(** *** Parent classes *)

(** One round of the loop over [$parents], for the element at [p]. *)
Definition propagate_parent (body : node) (p : path) : result node :=
  match node_at body p with
  | Some (Element _ a _) =>
      match getAttribute a "parent" with
      | None => Throw TypeError
      | Some v =>
          let classes := split " " v in
          let body1 := update_at (set_attributes (removeAttribute a "parent")) p body in
          match node_at body1 (parent_path p) with
          | Some (Element _ pa _) =>
              let! pa' := classList_add classes pa in
              Ok (update_at (set_attributes pa') (parent_path p) body1)
          | _ => Throw TypeError
          end
      end
  | _ => Throw TypeError
  end.

Definition propagate_parents (body : node) : result node :=
  for_each propagate_parent body (querySelectorAll (ByAttribute "parent") body).

(** *** Step identity *)

(** [data.steps[i]]: a step object, a value without properties of its
    own (a character of a text), or nothing. *)
Inductive record : Type :=
| RObject (r : ref)
| RPrimitive.

Definition step_record (d : document) (i : nat) : option record :=
  match steps d with
  | StepsArray l => RObject <$> l !! i
  | StepsScalar (SStr s) =>
      if (i <? units s)%nat then Some RPrimitive else None
  | StepsScalar _ => None
  end.

(** [d[k]] *)
Definition field (objects : list obj) (d : record) (k : string) : option scalar :=
  match d with
  | RObject r => match objects !! r with Some o => get o k | None => None end
  | RPrimitive => None
  end.

(** [if (!d.id) d.id = 'step-' + i] *)
Definition ensure_id (i : nat) (d : record) : M unit :=
  let* id := gets (fun s => field (objects s) d "id") in
  if truthy id then ret tt
  else match d with
       | RObject r =>
           modify (with_objects
                     (alter (fun o => set o "id" (SStr ("step-" +:+ pretty i))) r))
       | RPrimitive => ret tt
       end.

(** The attributes of a step element after its round: the [id], then
    [goals] and [class] when the record has them. *)
Definition step_attributes (objs : list obj) (d : record) (a : attrs) : attrs :=
  let set_one (k : string) (a : attrs) : attrs :=
    if truthy (field objs d k) then setAttribute a k (to_string (field objs d k))
    else a in
  set_one "class"
    (set_one "goals" (setAttribute a "id" (to_string (field objs d "id")))).

(** One round of the loop over [$steps]: the [i]-th step element is at
    [p]. *)
Definition assign_step (body : node) (ip : nat * path) : M node :=
  let (i, p) := ip in
  let* d := gets data in
  match step_record d i with
  | None => throw TypeError
  | Some d =>
      ensure_id i d;;
      let* objs := gets objects in
      ret (update_at
             (fun n => set_attributes (step_attributes objs d (attributes n)) n)
             p body)
  end.

(** The id of the [i]-th step record [o] when the loop is over. *)
Definition final_id (i : nat) (o : obj) : option scalar :=
  if truthy (get o "id") then get o "id"
  else Some (SStr ("step-" +:+ pretty i)).

(** The elements of a list with their indices. *)
Definition indexed {A} (l : list A) : list (nat * A) := imap (fun i x => (i, x)) l.

Definition assign_steps (body : node) : M node :=
  foldM assign_step body (indexed (querySelectorAll (ByTag "x-step") body)).

(** *** Output *)

(** [steps[id] = html] on an object used as a map. *)
Fixpoint map_set (m : list (string * string)) (k v : string) : list (string * string) :=
  match m with
  | [] => [(k, v)]
  | (k', v') :: m' =>
      if String.eqb k' k then (k, v) :: m' else (k', v') :: map_set m' k v
  end.


(** [$s.id] *)
Definition id_of (n : node) : string :=
  default EmptyString (getAttribute (attributes n) "id").

Definition step_htmls (body : node) : list (string * string) :=
  foldl (fun m p =>
           match node_at body p with
           | Some n => map_set m (id_of n) (minify L (serialize L [n]))
           | None => m
           end)
        [] (querySelectorAll (ByTag "x-step") body).

Definition resolve (objects : list obj) (v : steps_value) : scalar + list obj :=
  match v with
  | StepsArray l => inr ((fun r => default [] (objects !! r)) <$> l)
  | StepsScalar x => inl x
  end.

(** The assignments at the start of [parseFull]. *)
Definition reset (path : string) (s : state) : state :=
  State [] [] (Document (StepsArray []) []) None (Some path) EmptyString
        (originalP s) [].

Definition parseFull (id content path : string) : M output :=
  modify (reset path);;
  let content := Preprocess.preprocess id content in
  let* content := lift (Blocks.blockIndentation (pug_render L) content) in
  let* parsed := render_all L (lexer_lex L content) in
  let body := JSDom L (parsed +:+ "</x-step>") in
  let* body := lift (expand_attributes body) in
  let* body := render_markdown body in
  let* body := lift (propagate_parents body) in
  let* body := assign_steps body in
  let steps := step_htmls body in
  let html := minify L (serialize L (childNodes body)) in
  let* s := gets (fun s => s) in
  ret (Output html (bios s) (gloss s) (props (data s))
              (resolve (objects s) (Data.steps (data s))) steps).

(** [parseFull] in two parts: the tree up to the loop over [$parents],
    with the state reset, and what is returned for a tree whose steps have
    their identity. *)
Definition tree (id content : string) : M node :=
  let content := Preprocess.preprocess id content in
  let* content := lift (Blocks.blockIndentation (pug_render L) content) in
  let* parsed := render_all L (lexer_lex L content) in
  let body := JSDom L (parsed +:+ "</x-step>") in
  let* body := lift (expand_attributes body) in
  let* body := render_markdown body in
  lift (propagate_parents body).

Definition finish (body : node) : M output :=
  let steps := step_htmls body in
  let html := minify L (serialize L (childNodes body)) in
  let* s := gets (fun s => s) in
  ret (Output html (bios s) (gloss s) (props (data s))
              (resolve (objects s) (Data.steps (data s))) steps).

End WithLibraries.

End Full.

(** ** Concrete libraries for the examples *)

Module Examples.
Import JS.

(** Pug on the two templates of the column examples.  An attribute
    stands between parentheses after the name of the element; what
    follows the name after a space is the text of the element. *)
Definition pug_columns (filename : option string) (src : string) : option string :=
  if String.eqb src "div(width=200)"
  then Some ("<div width=" +:+ Q "200" +:+ "></div>")
  else if String.eqb src "div width=200"
  then Some "<div>width=200</div>"
  else None.

(** The character U+00E9, one code unit, and the character U+1F600, a
    pair of surrogates, with the second surrogate of the pair (U+DE00). *)
Definition e_acute : string := String "195" (String "169" EmptyString).

Definition grinning_face : string :=
  String "240" (String "159" (String "152" (String "128" EmptyString))).

Definition grinning_face_second_unit : string :=
  String "237" (String "184" (String "128" EmptyString)).

(** A Pug that rejects every template. *)
Definition pug_rejects (filename : option string) (src : string) : option string :=
  None.

(** The input of the column example as the specification writes it: the
    second marker is a bare [:::]. *)
Definition columns_as_specified : string :=
  JS.join nl ["::: column width=200"; "left"; ":::"; "right"; ":::"].

(** The same input with the width as an attribute and a second column
    marker. *)
Definition columns_as_parsed : string :=
  JS.join nl ["::: column(width=200)"; "left"; "::: column(width=200)"; "right"; ":::"].


(** A plain serializer: tags, attributes and children as they stand. *)
Fixpoint serialize_node (n : Dom.node) : string :=
  match n with
  | Dom.Element t a cs =>
      "<" +:+ t
        +:+ String.concat EmptyString
              (map (fun kv => " " +:+ fst kv +:+ "=" +:+ Q (snd kv)) a)
        +:+ ">"
        +:+ (fix go (l : list Dom.node) : string :=
               match l with
               | [] => EmptyString
               | c :: l' => serialize_node c +:+ go l'
               end) cs
        +:+ "</" +:+ t +:+ ">"
  | Dom.Text s => s
  | Dom.Comment s => "<!--" +:+ s +:+ "-->"
  end.

(** A front matter block with the key [steps] before a step element
    written in HTML. *)
Definition steps_in_front_matter : string :=
  "> steps: ab" +:+ nl +:+ nl +:+ "<x-step>" +:+ nl +:+ nl +:+ "text".

(** A paragraph with two links to the same entry of the glossary. *)
Definition two_links : string := "[atom](gloss:atom) and [atoms](gloss:atom)".

(** The answers of marked, of the YAML parser and of the HTML parser on
    the texts of the examples. *)
Definition lex_example (s : string) : list call :=
  if String.eqb s "# Intro" then [CHeading [CRaw "Intro"] 1]
  else if String.eqb s two_links then
    [CParagraph [CLink "gloss:atom" None [CRaw "atom"]; CRaw " and ";
                 CLink "gloss:atom" None [CRaw "atoms"]]]
  else if String.eqb s "> ***" then [CBlockquote [CHr]]
  else if String.eqb s "> " then [CBlockquote []]
  else if String.eqb s "title: Leaked" then [CParagraph [CRaw "title: Leaked"]]
  else if String.eqb s steps_in_front_matter then
    [CBlockquote [CParagraph [CRaw "steps: ab"]];
     CRaw ("<x-step>" +:+ nl +:+ nl);
     CParagraph [CRaw "text"]]
  else [].

Definition yaml_example (s : string) : option Data.obj :=
  if String.eqb s "title: Leaked" then Some [("title", Data.SStr "Leaked")]
  else if String.eqb s "steps: ab" then Some [("steps", Data.SStr "ab")]
  else if String.eqb s "<x-step>" then
    Some [("0", Data.SStr "<"); ("1", Data.SStr "x"); ("2", Data.SStr "-");
          ("3", Data.SStr "s"); ("4", Data.SStr "t"); ("5", Data.SStr "e");
          ("6", Data.SStr "p"); ("7", Data.SStr ">")]
  else if String.eqb s EmptyString then Some []
  else None.

Definition JSDom_example (s : string) : Dom.node :=
  if String.eqb s "<p>title: Leaked</p></x-step>"
  then Dom.Element "body" [] [Dom.Element "p" [] [Dom.Text "title: Leaked"]]
  else if String.eqb s ("<x-step>" +:+ nl +:+ nl +:+ "<p>text</p></x-step>")
  then Dom.Element "body" []
         [Dom.Element "x-step" []
            [Dom.Text (nl +:+ nl); Dom.Element "p" [] [Dom.Text "text"]]]
  else if String.eqb s
            ("<p><x-gloss xid=" +:+ Q "atom" +:+ ">atom</x-gloss> and <x-gloss xid="
               +:+ Q "atom" +:+ ">atoms</x-gloss></p></x-step>")
  then Dom.Element "body" []
         [Dom.Element "p" []
            [Dom.Element "x-gloss" [("xid", "atom")] [Dom.Text "atom"];
             Dom.Text " and ";
             Dom.Element "x-gloss" [("xid", "atom")] [Dom.Text "atoms"]]]
  else Dom.Element "body" [] [].

Definition libs : libraries := {|
  pug_render := pug_rejects;
  lexer_lex := lex_example;
  marked := fun _ => [];
  yaml_parse := yaml_example;
  ascii2mathml := fun _ => None;
  entities_decode := fun s => s;
  emojify := fun _ _ s => s;
  JSDom := JSDom_example;
  parse_fragment := fun _ _ => [];
  serialize := fun l => String.concat EmptyString (map serialize_node l);
  minify := fun s => s
|}.

(** Pug on a [section] with a [span] inside, and on a [div] given by
    its class. *)
Definition pug_blocks (filename : option string) (src : string) : option string :=
  if String.eqb src "section: span"
  then Some "<section><span></span></section>"
  else if String.eqb src ".tab"
  then Some ("<div class=" +:+ Q "tab" +:+ "></div>")
  else if String.eqb src ".red"
  then Some ("<div class=" +:+ Q "red" +:+ "></div>")
  else None.

(** The libraries of the examples with that Pug, and an HTML parser that
    knows the [div] of the class [red]. *)
Definition libs_blocks : libraries := {|
  pug_render := pug_blocks;
  lexer_lex := lexer_lex libs;
  marked := marked libs;
  yaml_parse := yaml_parse libs;
  ascii2mathml := ascii2mathml libs;
  entities_decode := entities_decode libs;
  emojify := emojify libs;
  JSDom := JSDom libs;
  parse_fragment := fun _ html =>
    if String.eqb html ("<div class=" +:+ Q "red" +:+ "></div>")
    then [Dom.Element "div" [("class", "red")] []]
    else [];
  serialize := serialize libs;
  minify := minify libs
|}.

(** A tree with two step elements, and a state with their two records,
    the second of which has an id. *)
Definition body_with_steps : Dom.node :=
  Dom.Element "body" []
    [Dom.Element "x-step" [] [Dom.Text "one"];
     Dom.Element "x-step" [] [Dom.Text "two"]].

Definition state_with_steps : Renderer.state :=
  Renderer.State [] [] (Data.Document (Data.StepsArray [0; 1]%nat) [])
    (Some 1%nat) (Some "dir") EmptyString None
    [[]; [("id", Data.SStr "intro")]].

(** A tree with one step element, and a state whose one record has the
    id 0 from its front matter. *)
Definition body_with_one_step : Dom.node :=
  Dom.Element "body" [] [Dom.Element "x-step" [] []].

Definition state_with_id_zero : Renderer.state :=
  Renderer.State [] [] (Data.Document (Data.StepsArray [0%nat]) [])
    (Some 0%nat) (Some "dir") EmptyString None
    [[("id", Data.SNum true "0")]].

(** The lines that the column example gives: the row with its first
    column, the passage to the next column, and the end of the row. *)
Definition row_open : string :=
  "<div class=" +:+ Q "row padded" +:+ "><div style=" +:+ Q "width: 200px" +:+ ">" +:+ nl.

Definition next_column : string :=
  nl +:+ "</div><div style=" +:+ Q "width: 200px" +:+ ">" +:+ nl.

Definition row_close : string := nl +:+ "</div></div>" +:+ nl.

End Examples.

(** * Verified properties *)

#[local] Arguments Ascii.eqb : simpl never.
#[local] Arguments String.eqb : simpl never.

(** ** Strings and regular expressions *)

Section StringFacts.
Import JS.

Lemma sapp_cons a s t : String a s +:+ t = String a (s +:+ t).
Proof. reflexivity. Qed.

Lemma sapp_nil_l s : "" +:+ s = s.
Proof. reflexivity. Qed.

Lemma sapp_nil_r s : s +:+ "" = s.
Proof. induction s as [|a s IH]; [done|]. by rewrite sapp_cons, IH. Qed.

Lemma sapp_assoc s1 s2 s3 : (s1 +:+ s2) +:+ s3 = s1 +:+ s2 +:+ s3.
Proof. induction s1 as [|a s1 IH]; [done|]. by rewrite !sapp_cons, IH. Qed.

Lemma sapp_snoc s a t : (s +:+ String a "") +:+ t = s +:+ String a t.
Proof. by rewrite sapp_assoc. Qed.

Lemma slength_app s t : String.length (s +:+ t) = (String.length s + String.length t)%nat.
Proof. induction s as [|a s IH]; [done|]. rewrite sapp_cons. cbn. by rewrite IH. Qed.

Lemma startsWith_app p s : startsWith (p +:+ s) p = true.
Proof.
  induction p as [|a p IH]; [done|]. rewrite sapp_cons. cbn.
  by rewrite Ascii.eqb_refl.
Qed.

Lemma startsWith_inv s p : startsWith s p = true -> exists r, s = p +:+ r.
Proof.
  revert s. induction p as [|a p IH]; intros s; [by exists s|].
  destruct s as [|b s]; [done|]. cbn.
  destruct (Ascii.eqb_spec a b) as [->|]; [|done].
  intros [r ->]%IH. by exists r.
Qed.

Lemma bytes_from_app x s : bytes_from (String.length x) (x +:+ s) = s.
Proof. induction x as [|a x IH]; [by destruct s|]. exact IH. Qed.

Lemma bytes_to_app x s : bytes_to (String.length x) (x +:+ s) = x.
Proof.
  induction x as [|a x IH]; [by destruct s|]. rewrite sapp_cons. cbn.
  by rewrite IH.
Qed.

(** *** The scanner *)

Lemma replace_global_skip re rep x : forall before s,
  replace_global_from re rep before (String.length x) (x +:+ s)
  = replace_global_from re rep (before +:+ x) 0 s.
Proof.
  induction x as [|a x IH]; intros before s.
  - by rewrite sapp_nil_r.
  - rewrite sapp_cons. cbn. rewrite IH. by rewrite sapp_snoc.
Qed.

Lemma replace_global_nowhere re rep s : forall before,
  matches_nowhere re s = true -> replace_global_from re rep before 0 s = s.
Proof.
  induction s as [|a s IH]; intros before; [done|].
  cbn. destruct (re (String a s)) as [[g n]|]; [done|].
  intros H. by rewrite IH.
Qed.

Lemma replace_global_prefix re rep pre t : forall before,
  unmatched_before re pre t = true ->
  replace_global_from re rep before 0 (pre +:+ t)
  = pre +:+ replace_global_from re rep (before +:+ pre) 0 t.
Proof.
  induction pre as [|a pre IH]; intros before.
  - intros _. by rewrite sapp_nil_r.
  - rewrite !sapp_cons. cbn. rewrite !sapp_cons.
    destruct (re (String a (pre +:+ t))) as [[g n]|]; [done|].
    intros H. rewrite (IH _ H). by rewrite sapp_snoc.
Qed.

Lemma replace_global_match re rep a m t groups before :
  re (String a m +:+ t) = Some (groups, S (String.length m)) ->
  replace_global_from re rep before 0 (String a m +:+ t)
  = rep (String a m) groups before t
      +:+ replace_global_from re rep (before +:+ String a m) 0 t.
Proof.
  intros Hre. rewrite sapp_cons in *. cbn. rewrite Hre.
  rewrite <- !sapp_cons.
  change (S (String.length m)) with (String.length (String a m)).
  rewrite bytes_from_app, bytes_to_app. cbn. rewrite Nat.sub_0_r.
  rewrite replace_global_skip. by rewrite sapp_snoc.
Qed.

Lemma replace_global_before re rep s :
  ignores_before rep ->
  forall b1 b2 skip,
    replace_global_from re rep b1 skip s = replace_global_from re rep b2 skip s.
Proof.
  intros Hrep. induction s as [|a s IH]; intros b1 b2 skip; [done|].
  cbn. destruct skip as [|k]; [|apply IH].
  destruct (re (String a s)) as [[g n]|].
  - rewrite (Hrep _ _ b1 b2). f_equal. apply IH.
  - f_equal. apply IH.
Qed.

(** The first match of a text and what the scanner does with it. *)
Lemma replace_global_first re rep pre a m t groups :
  ignores_before rep ->
  unmatched_before re pre (String a m +:+ t) = true ->
  re (String a m +:+ t) = Some (groups, S (String.length m)) ->
  replace_global re rep (pre +:+ String a m +:+ t)
  = pre +:+ rep (String a m) groups pre t +:+ replace_global re rep t.
Proof.
  intros Hrep Hpre Hre. unfold replace_global.
  rewrite (replace_global_prefix _ _ _ _ _ Hpre).
  rewrite (replace_global_match _ _ _ _ _ _ _ Hre). cbn.
  by rewrite (replace_global_before re rep t Hrep _ EmptyString).
Qed.

Lemma expand_plain tmpl m groups before after :
  contains "$"%char tmpl = false -> expand tmpl m groups before after = tmpl.
Proof.
  induction tmpl as [|a tmpl IH]; [done|]. cbn.
  destruct (Ascii.eqb a "$"%char); [done|]. cbn.
  intros H. by rewrite IH.
Qed.

Lemma by_function_ignores_before f : ignores_before (by_function f).
Proof. by intros m g b1 b2 a. Qed.


End StringFacts.

(** ** Block structure parser *)

Section BlockFacts.
Import JS Blocks.

Variable pug : option string -> string -> option string.

Lemma blockLine_plain st line :
  is_marker line = false -> blockLine pug st line = Ok (line, st).
Proof. unfold is_marker, blockLine. intros ->. reflexivity. Qed.

Lemma blockLine_close st line :
  is_close line = true ->
  blockLine pug st line =
    Ok (nl +:+ str_of (head (closeTags st)) +:+ nl,
        Stacks (tail (closeTags st)) (tail (nested st))).
Proof.
  unfold is_close, is_marker, blockLine.
  intros [-> Hs]%andb_prop. apply String.eqb_eq in Hs. rewrite Hs. reflexivity.
Qed.

Lemma blockLine_throw st line e :
  blockLine pug st line = Throw e ->
  e = TemplateRenderError /\ is_open line = true /\
  pug None (template_of (slice 4 line)) = None.
Proof.
  unfold is_open, is_marker, blockLine, template_of, render.
  destruct (startsWith line ":::"); cbv [negb andb]; [|discriminate].
  destruct (slice 4 line) as [|c tag]; [discriminate|].
  destruct (startsWith (String c tag) "column").
  { destruct (pug None _); cbv [or_throw rbind].
    - destruct (last_is "column" st); discriminate.
    - intros [= <-]. auto. }
  destruct (startsWith (String c tag) "tab").
  { destruct (pug None _); cbv [or_throw rbind].
    - destruct (last_is "tab" st); discriminate.
    - intros [= <-]. auto. }
  destruct (pug None _); cbv [or_throw rbind]; [discriminate|].
  intros [= <-]. auto.
Qed.

Lemma blockLines_throw lines : forall st e,
  blockLines pug st lines = Throw e ->
  e = TemplateRenderError /\
  exists line, line ∈ lines /\ is_open line = true /\
               pug None (template_of (slice 4 line)) = None.
Proof.
  induction lines as [|l ls IH]; intros st e; simpl; [discriminate|].
  destruct (blockLine pug st l) as [[l' st']|e'] eqn:Hl; simpl.
  - destruct (blockLines pug st' ls) as [[ls' st'']|e''] eqn:Hls; simpl;
      [discriminate|].
    intros [= <-]. destruct (IH _ _ Hls) as [-> (line & Hin & Ho & Hp)].
    split; [done|]. exists line. split; [rewrite elem_of_cons; by right|done].
  - intros [= <-]. destruct (blockLine_throw _ _ _ Hl) as (-> & Ho & Hp).
    split; [done|]. exists l. split; [rewrite elem_of_cons; by left|done].
Qed.

Lemma blockLines_plain a : forall st rest,
  Forall (fun l => is_marker l = false) a ->
  blockLines pug st (a ++ rest) =
    let! (r, st') := blockLines pug st rest in Ok (a ++ r, st').
Proof.
  induction a as [|l a IH]; intros st rest Ha; simpl.
  - destruct (blockLines pug st rest) as [[r st']|e]; reflexivity.
  - inversion Ha as [|? ? Hl Ha']; subst.
    rewrite (blockLine_plain _ _ Hl). simpl. rewrite (IH _ _ Ha').
    destruct (blockLines pug st rest) as [[r st']|e]; reflexivity.
Qed.

Lemma blockIndentation_throw source e :
  blockIndentation pug source = Throw e ->
  e = TemplateRenderError /\
  exists line, line ∈ split nl source /\ is_open line = true /\
               pug None (template_of (slice 4 line)) = None.
Proof.
  unfold blockIndentation.
  destruct (blockLines pug empty_stacks (split nl source)) as [[ls st]|e'] eqn:E;
    simpl; [discriminate|].
  intros [= <-]. eapply blockLines_throw, E.
Qed.

End BlockFacts.

(** *** Lines and their concatenation *)

Section Lines.
Import JS Blocks.

Lemma split_one_line line :
  one_line line = true -> split nl line = [line].
Proof.
  unfold split. induction line as [|a line IH]; simpl; [done|].
  intros [Ha Hl]%andb_prop. rewrite Ascii.eqb_sym.
  destruct (Ascii.eqb a "010"%char); [discriminate Ha|].
  rewrite (IH Hl). reflexivity.
Qed.

Lemma split_line_then line s :
  one_line line = true -> split nl (line +:+ nl +:+ s) = line :: split nl s.
Proof.
  unfold split. induction line as [|a line IH]; [intros _; reflexivity|simpl].
  intros [Ha Hl]%andb_prop. rewrite Ascii.eqb_sym.
  destruct (Ascii.eqb a "010"%char); [discriminate Ha|].
  rewrite (IH Hl). reflexivity.
Qed.

Lemma split_join l ls :
  Forall (fun s => one_line s = true) (l :: ls) ->
  split nl (join nl (l :: ls)) = l :: ls.
Proof.
  revert l. induction ls as [|l' ls IH]; intros l Hall.
  - simpl. apply split_one_line. by inversion Hall.
  - inversion Hall as [|? ? Hl Hall']; subst.
    change (join nl (l :: l' :: ls)) with (l +:+ nl +:+ join nl (l' :: ls)).
    rewrite (split_line_then _ _ Hl), (IH _ Hall'). reflexivity.
Qed.

End Lines.

(** *** Close markers *)

Section CloseMarkers.
Import JS Blocks.

(** C1, as the code has it.  A close marker never makes the block parser
    fail.  With no block open the marker line becomes the text
    [undefined] between two line feeds and the stacks stay empty.  The
    parser throws nothing but the error of the template engine, and only
    for an open marker whose template Pug rejects; when Pug accepts the
    template of every open marker the parser returns its output, whether
    or not the close markers are matched. *)
Theorem unmatched_close_is_not_an_error
    (pug : option string -> string -> option string) (source : string) :
  (forall line, is_close line = true ->
     blockLine pug empty_stacks line
       = Ok (nl +:+ "undefined" +:+ nl, empty_stacks)) /\
  (forall e, blockIndentation pug source = Throw e ->
     e = TemplateRenderError /\
     exists line, line ∈ split nl source /\ is_open line = true /\
                  pug None (template_of (slice 4 line)) = None) /\
  ((forall line, line ∈ split nl source -> is_open line = true ->
      is_Some (pug None (template_of (slice 4 line)))) ->
   exists out, blockIndentation pug source = Ok out).
Proof.
  split; [|split].
  - intros line Hc. by rewrite (blockLine_close pug _ _ Hc).
  - apply blockIndentation_throw.
  - intros Hpug.
    destruct (blockIndentation pug source) as [out|e] eqn:E; [eauto|].
    destruct (blockIndentation_throw _ _ _ E) as [_ (line & Hin & Ho & Hp)].
    destruct (Hpug line Hin Ho) as [x Hx]. congruence.
Qed.

Lemma unmatched_close_is_not_an_error_witness :
  exists out, blockIndentation Examples.pug_rejects ":::" = Ok out.
Proof.
  apply (proj2 (proj2 (unmatched_close_is_not_an_error Examples.pug_rejects ":::"))).
  intros line Hin Ho.
  apply list_elem_of_In in Hin. simpl in Hin.
  destruct Hin as [<-|[]]. discriminate Ho.
Defined.

(** C1 as stated fails: the input made of one close marker, with nothing
    open and a Pug that would reject anything, is compiled to a text. *)
Lemma unmatched_close_does_not_fail :
  blockIndentation Examples.pug_rejects ":::" = Ok (nl +:+ "undefined" +:+ nl).
Proof. reflexivity. Qed.

Lemma slice_one_unit ch rest : one_unit ch = true -> slice 1 (ch +:+ rest) = rest.
Proof.
  destruct ch as [|a r]; [done|]. unfold one_unit.
  intros [Hlt Hlen]%andb_prop. apply Nat.ltb_lt in Hlt. apply Nat.eqb_eq in Hlen.
  assert (Hr : forall m, String.length r = m -> bytes_from m (r +:+ rest) = rest)
    by (intros m <-; apply bytes_from_app).
  rewrite sapp_cons. cbn [slice].
  destruct (sequence_bytes a) as [|[|[|[|m]]]]; [..|lia];
    cbn [slice Nat.sub] in *; by apply Hr.
Qed.

Lemma blockLines_same_line pug a b before after :
  (forall st, blockLine pug st a = blockLine pug st b) ->
  forall st,
    blockLines pug st (before ++ a :: after) = blockLines pug st (before ++ b :: after).
Proof.
  intros Hab. induction before as [|l before IH]; intros st; simpl.
  - by rewrite Hab.
  - destruct (blockLine pug st l) as [[l' st']|e]; simpl; [|done]. by rewrite IH.
Qed.

Lemma split_join_lines l :
  l <> [] -> Forall (fun s => one_line s = true) l -> split nl (join nl l) = l.
Proof. destruct l as [|x l]; [done|]. intros _. apply split_join. Qed.

(** C10, as the code has it.  The specifier of a marker line starts at
    offset 4, counted in UTF-16 code units, whatever stands at offset 3.
    So the sentinel followed by one code unit, a character of the Basic
    Multilingual Plane such as [x] or [é], is a close marker: it takes the
    close tag of the innermost block and pops both stacks, as the bare
    sentinel does, Pug is not called, and a source with such a line is
    compiled as the source with the bare sentinel in its place. *)
Theorem specifier_starts_at_offset_4
    (pug : option string -> string -> option string)
    (st : stacks) (ch rest : string) (before after : list string) :
  one_unit ch = true ->
  slice 4 (":::" +:+ ch +:+ rest) = rest /\
  is_close (":::" +:+ ch) = true /\
  blockLine pug st (":::" +:+ ch)
    = Ok (nl +:+ str_of (head (closeTags st)) +:+ nl,
          Stacks (tail (closeTags st)) (tail (nested st))) /\
  blockLine pug st (":::" +:+ ch) = blockLine pug st ":::" /\
  (one_line ch = true ->
   Forall (fun l => one_line l = true) before ->
   Forall (fun l => one_line l = true) after ->
   blockIndentation pug (join nl (before ++ (":::" +:+ ch) :: after))
   = blockIndentation pug (join nl (before ++ ":::" :: after))).
Proof.
  intros Hch.
  assert (Hslice : forall r, slice 4 (":::" +:+ ch +:+ r) = r)
    by (intros r; exact (slice_one_unit ch r Hch)).
  assert (Hclose : is_close (":::" +:+ ch) = true).
  { unfold is_close. replace (":::" +:+ ch) with (":::" +:+ ch +:+ "")
      by (by rewrite sapp_nil_r).
    by rewrite Hslice. }
  assert (Hline : forall st', blockLine pug st' (":::" +:+ ch) = blockLine pug st' ":::").
  { intros st'. by rewrite (blockLine_close pug _ _ Hclose). }
  split; [apply Hslice|]. split; [exact Hclose|].
  split; [by rewrite (blockLine_close pug _ _ Hclose)|]. split; [apply Hline|].
  intros Hone Hb Ha. unfold blockIndentation.
  rewrite !split_join_lines;
    [|by destruct before|apply Forall_app; split; [done|by constructor]
     |by destruct before|apply Forall_app; split; [done|constructor; [|done]]].
  - by rewrite (blockLines_same_line pug _ _ before after Hline).
  - cbn. exact Hone.
Qed.

Lemma specifier_starts_at_offset_4_witness :
  is_close (":::" +:+ "x") = true /\
  is_close (":::" +:+ Examples.e_acute) = true /\
  blockIndentation Examples.pug_rejects (join nl ([] ++ (":::" +:+ Examples.e_acute) :: []))
  = blockIndentation Examples.pug_rejects (join nl ([] ++ ":::" :: [])).
Proof.
  split; [|split].
  - apply (specifier_starts_at_offset_4 Examples.pug_rejects empty_stacks "x" "" [] []).
    reflexivity.
  - apply (specifier_starts_at_offset_4 Examples.pug_rejects empty_stacks
             Examples.e_acute "" [] []).
    reflexivity.
  - apply (specifier_starts_at_offset_4 Examples.pug_rejects empty_stacks
             Examples.e_acute "" [] []); [reflexivity|reflexivity|constructor|constructor].
Defined.

(** C10 as stated fails for a character outside the Basic Multilingual
    Plane, which is two code units: after the sentinel its first unit is
    skipped and its second unit is the specifier, so the line is an open
    marker and its template goes to Pug. *)
Lemma character_of_two_units_opens_a_block :
  slice 4 (":::" +:+ Examples.grinning_face) = Examples.grinning_face_second_unit /\
  is_close (":::" +:+ Examples.grinning_face) = false /\
  is_open (":::" +:+ Examples.grinning_face) = true /\
  blockIndentation Examples.pug_rejects (":::" +:+ Examples.grinning_face)
  = Throw TemplateRenderError /\
  blockIndentation Examples.pug_rejects ":::" = Ok (nl +:+ "undefined" +:+ nl).
Proof. repeat split; reflexivity. Qed.

End CloseMarkers.

(** *** Columns *)

Section Columns.
Import JS Blocks Examples.

Lemma column_line pug st :
  pug None "div(width=200)" = Some ("<div width=" +:+ Q "200" +:+ "></div>") ->
  blockLine pug st "::: column(width=200)" =
    if last_is "column" st then Ok (next_column, st)
    else Ok (row_open, Stacks ("</div></div>" :: closeTags st) ("column" :: nested st)).
Proof.
  intros Hp. unfold blockLine.
  change (startsWith "::: column(width=200)" ":::") with true.
  cbv [negb]. change (slice 4 "::: column(width=200)") with "column(width=200)".
  change (startsWith "column(width=200)" "column") with true. cbv iota.
  change (replace "column" "div" "column(width=200)") with "div(width=200)".
  unfold render. rewrite Hp. cbv [or_throw rbind].
  destruct (last_is "column" st); reflexivity.
Qed.

(** C5, as the code has it.  The width of a column is an attribute of
    its template, written between parentheses, and the second column is
    opened by a second column marker.  Pug renders the template
    [div(width=200)] as a [div] with the attribute [width] of 200; then the
    input made of a column marker with that attribute, content lines, a
    second such marker, content lines and one close marker gives one row
    container that wraps two column [div]s, each with the inline style
    [width: 200px], the content lines unchanged, and one closing pair of
    the column and the row. *)
Theorem two_columns_one_close
    (pug : option string -> string -> option string) (left right : list string) :
  pug None "div(width=200)" = Some ("<div width=" +:+ Q "200" +:+ "></div>") ->
  Forall (fun l => one_line l = true) left ->
  Forall (fun l => one_line l = true) right ->
  Forall (fun l => is_marker l = false) left ->
  Forall (fun l => is_marker l = false) right ->
  blockIndentation pug
    (join nl ("::: column(width=200)" :: left
              ++ "::: column(width=200)" :: right ++ [":::"]))
  = Ok (join nl (row_open :: left ++ next_column :: right ++ [row_close])).
Proof.
  intros Hp Hl1 Hr1 Hl Hr. unfold blockIndentation.
  rewrite split_join.
  2:{ constructor; [done|]. apply Forall_app. split; [done|].
      constructor; [done|]. apply Forall_app. split; [done|].
      constructor; [done|constructor]. }
  cbn [blockLines]. rewrite (column_line _ _ Hp). cbn [last_is empty_stacks nested rbind].
  rewrite (blockLines_plain _ _ _ _ Hl). cbn [blockLines].
  rewrite (column_line _ _ Hp). cbn [last_is nested rbind].
  change (String.eqb "column" "column") with true. cbv iota. cbn [rbind].
  rewrite (blockLines_plain _ _ _ _ Hr). cbn [blockLines].
  reflexivity.
Qed.

Lemma two_columns_one_close_witness :
  Blocks.blockIndentation Examples.pug_columns Examples.columns_as_parsed
  = Ok (join nl [row_open; "left"; next_column; "right"; row_close]).
Proof.
  apply (two_columns_one_close Examples.pug_columns ["left"] ["right"]);
    repeat constructor.
Defined.

(** C5 as stated fails on its own input.  The text [width=200] after a
    space is not an attribute for Pug but the text of the [div], so the
    column has no width and no style; and the second marker, a bare
    sentinel, closes the row after the first column, so that the last
    marker, with nothing left to close, leaves the text [undefined]. *)
Lemma bare_marker_opens_no_column :
  Blocks.blockIndentation Examples.pug_columns Examples.columns_as_specified
  = Ok (join nl ["<div class=" +:+ Q "row padded" +:+ "><div>width=200" +:+ nl;
                 "left"; row_close; "right"; nl +:+ "undefined" +:+ nl]).
Proof. reflexivity. Qed.

End Columns.

(** ** Text preprocessor *)

Section PreprocessFacts.
Import JS Preprocess.








End PreprocessFacts.

(** ** Inline extension processor *)

Section InlineFacts.
Import JS Inline.

Lemma span_until c body r :
  contains c body = false ->
  span (not_char c) (body +:+ String c r) = (body, String c r).
Proof.
  induction body as [|a body IH].
  - intros _. rewrite sapp_nil_l. cbn. unfold not_char.
    by rewrite Ascii.eqb_refl.
  - rewrite sapp_cons. cbn. unfold not_char at 1.
    destruct (Ascii.eqb a c); [done|]. cbn. intros H. by rewrite (IH H).
Qed.

Lemma blank_re_match body post :
  body <> EmptyString -> contains "]"%char body = false ->
  blank_re ("[[" +:+ body +:+ "]]" +:+ post)
  = Some ([body], S (String.length ("[" +:+ body +:+ "]]"))).
Proof.
  intros Hne Hfree. unfold blank_re.
  change ("[[" +:+ body +:+ "]]" +:+ post)
    with (String "[" (String "[" (body +:+ String "]" (String "]" post)))).
  cbn [startsWith bytes_from]. rewrite !Ascii.eqb_refl.
  rewrite (span_until _ _ _ Hfree).
  destruct body as [|b body]; [done|].
  cbn [startsWith]. rewrite !Ascii.eqb_refl.
  do 3 f_equal. rewrite !slength_app. cbn [String.length]. lia.
Qed.

Lemma split_nonempty sep skip s : split_from sep skip s <> [].
Proof.
  revert skip. induction s as [|a s IH]; intros skip; [done|].
  cbn. destruct skip; [|apply IH].
  destruct (startsWith (String a s) sep); [done|].
  specialize (IH 0%nat). by destruct (split_from sep 0 s).
Qed.

Lemma length_cons_head a l : l <> [] -> length (cons_head a l) = length l.
Proof. by destruct l. Qed.

(** The body holds two alternatives or more when it holds a bar. *)
Lemma several_alternatives body :
  (1 <? length (split "|" body))%nat = contains "|"%char body.
Proof.
  unfold split. induction body as [|a body IH]; [done|].
  cbn. rewrite Ascii.eqb_sym.
  destruct (Ascii.eqb a "|"%char); cbn.
  - pose proof (split_nonempty "|" 0 body) as Hne.
    by destruct (split_from "|" 0 body).
  - rewrite length_cons_head by apply split_nonempty. exact IH.
Qed.

(** *** A text without the dollar sign *)

Lemma contains_app c s t : contains c (s +:+ t) = contains c s || contains c t.
Proof.
  induction s as [|a s IH]; [done|]. rewrite sapp_cons. cbn.
  by rewrite IH, orb_assoc.
Qed.

Lemma contains_bytes_from c n : forall s,
  contains c s = false -> contains c (bytes_from n s) = false.
Proof.
  induction n as [|n IH]; intros s; [done|].
  destruct s as [|a s]; [done|]. cbn.
  intros [_ H]%orb_false_elim. by apply IH.
Qed.

Lemma contains_span c p s :
  contains c s = false -> contains c (fst (span p s)) = false.
Proof.
  induction s as [|a s IH]; [done|]. cbn.
  intros [Ha Hs]%orb_false_elim. destruct (p a); [|done].
  destruct (span p s) as [x r]. cbn in *. by rewrite Ha, IH.
Qed.

(** An expression that can only match at the character [c] matches
    nowhere in a text without [c]. *)
Lemma nowhere_without (re : matcher) c s :
  (forall a r, a <> c -> re (String a r) = None) ->
  contains c s = false -> matches_nowhere re s = true.
Proof.
  intros Hre. induction s as [|a s IH]; [done|]. cbn.
  intros [Ha Hs]%orb_false_elim.
  rewrite Hre; [by apply IH|]. intros ->. by rewrite Ascii.eqb_refl in Ha.
Qed.

Lemma starts_with_other a r c p :
  a <> c -> startsWith (String a r) (String c p) = false.
Proof. intros H. cbn. destruct (Ascii.eqb_spec c a); [congruence|done]. Qed.

Lemma bound_var_re_at a r : a <> "$"%char -> bound_var_re (String a r) = None.
Proof. intros H. unfold bound_var_re. by rewrite starts_with_other. Qed.

Lemma var_re_at a r : a <> "$"%char -> var_re (String a r) = None.
Proof. intros H. unfold var_re. by rewrite starts_with_other. Qed.

(** The scanner puts the character [c] into a text without it only if
    the replacement does. *)
Lemma contains_replace_global c re rep :
  (forall s g n b, re s = Some (g, n) -> contains c s = false ->
     contains c (rep (bytes_to n s) g b (bytes_from n s)) = false) ->
  forall s before skip,
    contains c s = false ->
    contains c (replace_global_from re rep before skip s) = false.
Proof.
  intros Hrep. induction s as [|a s IH]; intros before skip; [done|].
  intros Hs. pose proof Hs as Hs'. cbn in Hs'. apply orb_false_elim in Hs' as [Ha Hs'].
  cbn [replace_global_from]. destruct skip as [|k]; [|by apply IH].
  destruct (re (String a s)) as [[g n]|] eqn:E.
  - rewrite contains_app, (Hrep _ _ _ _ E Hs). by apply IH.
  - cbn. rewrite Ha. by apply IH.
Qed.

Lemma blank_without_dollar body :
  contains "$"%char body = false -> contains "$"%char (blank body) = false.
Proof.
  intros H. unfold blank, Q.
  destruct (1 <? length (split "|" body))%nat; rewrite !contains_app, H; reflexivity.
Qed.

Lemma replace_blanks_without_dollar text :
  contains "$"%char text = false -> contains "$"%char (replace_blanks text) = false.
Proof.
  intros H. apply contains_replace_global; [|exact H].
  intros s g n b Hre Hs. unfold by_function. apply blank_without_dollar.
  unfold blank_re in Hre. destruct (startsWith s "[["); [|done].
  pose proof (contains_span "$"%char (not_char "]"%char) (bytes_from 2 s)
                (contains_bytes_from _ 2 s Hs)) as Hbody.
  destruct (span (not_char "]"%char) (bytes_from 2 s)) as [body r].
  destruct body as [|b0 body]; [done|].
  destruct (startsWith r "]]"); [|done]. by injection Hre as <- _.
Qed.

(** C8, as the code has it.  The first [replace] of [parseParagraph]
    turns the leftmost marker of a text, two opening brackets, a
    non-empty body free of the closing bracket and two closing brackets,
    into a blank element, and goes on with the text after the marker; the
    text before it is unchanged.  The element is the multiple-choice blank
    with the whole body as [choices] when the body holds a bar, hence two
    alternatives or more, and the free-text blank with the body as
    [solution] when it holds none.  The two passes for the variables then
    run over the text with its blank elements, the values of the
    attributes included: they change nothing in a text without a dollar
    sign, which reaches the emoji pass with its blank elements as the
    first pass made them.  The two examples of the specification are of
    that kind. *)
Theorem blank_markers
    (emojify : (string -> string) -> (N -> string -> string) -> string -> string)
    (text pre body post : string) :
  (body <> EmptyString -> contains "]"%char body = false ->
   unmatched_before blank_re pre ("[[" +:+ body +:+ "]]" +:+ post) = true ->
   replace_blanks (pre +:+ "[[" +:+ body +:+ "]]" +:+ post)
   = pre +:+ blank body +:+ replace_blanks post) /\
  (contains "|"%char body = true ->
   blank body = "<x-blank choices=" +:+ Q body +:+ "></x-blank>") /\
  (contains "|"%char body = false ->
   blank body = "<x-blank-input solution=" +:+ Q body +:+ "></x-blank-input>") /\
  (contains "$"%char text = false ->
   parseParagraph emojify text = emojify (fun x => x) emojiImg (replace_blanks text)) /\
  parseParagraph emojify "[[paris|london|berlin]]"
  = emojify (fun x => x) emojiImg
      ("<x-blank choices=" +:+ Q "paris|london|berlin" +:+ "></x-blank>") /\
  parseParagraph emojify "[[42]]"
  = emojify (fun x => x) emojiImg
      ("<x-blank-input solution=" +:+ Q "42" +:+ "></x-blank-input>").
Proof.
  split; [|split; [|split; [|split; [|split]]]].
  - intros Hne Hfree Hpre. unfold replace_blanks.
    assert (E : "[[" +:+ body +:+ "]]" +:+ post
                = String "[" ("[" +:+ body +:+ "]]") +:+ post)
      by (rewrite (sapp_cons "["%char ("[" +:+ body +:+ "]]") post),
            (sapp_assoc "[" (body +:+ "]]") post), (sapp_assoc body "]]" post);
          reflexivity).
    rewrite E in *.
    rewrite (replace_global_first _ _ pre "[" ("[" +:+ body +:+ "]]") post [body]).
    + reflexivity.
    + apply by_function_ignores_before.
    + exact Hpre.
    + rewrite <- E. by apply blank_re_match.
  - intros H. unfold blank. by rewrite several_alternatives, H.
  - intros H. unfold blank. by rewrite several_alternatives, H.
  - intros H. unfold parseParagraph. f_equal.
    pose proof (replace_blanks_without_dollar text H) as H1.
    assert (replace_bound_vars (replace_blanks text) = replace_blanks text) as ->.
    { apply replace_global_nowhere, (nowhere_without _ "$"%char);
        [apply bound_var_re_at|exact H1]. }
    apply replace_global_nowhere, (nowhere_without _ "$"%char);
      [apply var_re_at|exact H1].
  - reflexivity.
  - reflexivity.
Qed.

Lemma blank_markers_witness :
  replace_blanks ("Capital: " +:+ "[[" +:+ "paris|london" +:+ "]]" +:+ "!")
  = "Capital: " +:+ blank "paris|london" +:+ replace_blanks "!" /\
  parseParagraph (emojify Examples.libs) "Capital: [[paris|london]]!"
  = "Capital: <x-blank choices=" +:+ Q "paris|london" +:+ "></x-blank>!".
Proof.
  split.
  - apply (blank_markers (fun _ _ x => x) "" "Capital: " "paris|london" "!");
      [discriminate|reflexivity|reflexivity].
  - rewrite (proj1 (proj2 (proj2 (proj2
               (blank_markers (emojify Examples.libs) "Capital: [[paris|london]]!"
                  "" "" "")))));
      reflexivity.
Defined.

(** C8 as stated fails for a body that holds a variable: the pass for
    the variables rewrites the body inside the attribute of the blank
    element, so that the attribute no longer carries the body. *)
Lemma variable_in_a_blank_is_rewritten :
  parseParagraph (emojify Examples.libs) "[[${x}]]"
  = "<x-blank-input solution=" +:+ dq +:+ "<span class=" +:+ Q "var"
      +:+ ">${x}</span>" +:+ dq +:+ "></x-blank-input>".
Proof. reflexivity. Qed.

End InlineFacts.

(** ** The DOM *)

Section DomFacts.
Import JS Dom.

Lemma node_ind (P : node -> Prop) :
  (forall t a cs, Forall P cs -> P (Element t a cs)) ->
  (forall s, P (Text s)) ->
  (forall s, P (Comment s)) ->
  forall n, P n.
Proof.
  intros He Ht Hc. fix IH 1. intros [t a cs|s|s]; [|apply Ht|apply Hc].
  apply He. induction cs as [|c cs IHcs]; constructor; [apply IH|apply IHcs].
Qed.

(** *** Attributes *)

Lemma getAttribute_setAttribute a k v k' :
  getAttribute (setAttribute a k v) k'
  = if String.eqb k k' then Some v else getAttribute a k'.
Proof.
  induction a as [|[k0 v0] a IH]; cbn.
  - done.
  - destruct (String.eqb_spec k0 k) as [->|Hne]; cbn.
    + by destruct (String.eqb k k').
    + rewrite IH. destruct (String.eqb_spec k0 k') as [->|]; [|done].
      destruct (String.eqb_spec k k') as [->|]; done.
Qed.


(** *** Paths *)

Lemma attrs_at_update_with (g : attrs -> attrs) p : forall n q,
  attrs_at (update_at (fun m => set_attributes (g (attributes m)) m) p n) q
  = if decide (q = p) then g <$> attrs_at n p else attrs_at n q.
Proof.
  unfold attrs_at.
  induction p as [|i p IH]; intros n q.
  - destruct n as [t a cs|s|s], q as [|j q]; by cbn.
  - destruct n as [t a cs|s|s].
    2,3: destruct q as [|j q]; cbn; [done|]; by case_decide.
    destruct q as [|j q]; [done|]. cbn.
    destruct (decide (i = j)) as [->|Hij].
    + rewrite list_lookup_alter. rewrite decide_True by done.
      destruct (cs !! j) as [c|]; cbn.
      * rewrite IH. repeat case_decide; simplify_eq; done.
      * by case_decide.
    + rewrite list_lookup_alter_ne by done.
      rewrite decide_False; [done|]. by intros [= ? ?].
Qed.


Lemma elem_of_child_paths first below l : forall k q,
  q ∈ child_paths first below k l <->
  exists i c, l !! i = Some c /\ is_element c = true /\
              (q = [(k + i)%nat] \/ exists q', q' ∈ below c /\ q = (k + i)%nat :: q').
Proof.
  induction l as [|c l IH]; intros k q; cbn.
  - rewrite elem_of_nil. split; [done|]. by intros (i & c & ? & _).
  - rewrite elem_of_app, IH. split.
    + intros [H|(i & c' & Hi & Hc & Hq)].
      * exists 0%nat, c. rewrite Nat.add_0_r. split; [done|].
        destruct (is_element c); [|by apply elem_of_nil in H].
        split; [done|]. destruct first.
        -- apply elem_of_cons in H as [->|H]; [by left|].
           apply list_elem_of_fmap in H as (q' & -> & H).
           right. by exists q'.
        -- apply elem_of_app in H as [H|H].
           ++ apply list_elem_of_fmap in H as (q' & -> & H).
              right. by exists q'.
           ++ apply list_elem_of_singleton in H. by left.
      * exists (S i), c'. rewrite Nat.add_succ_r. done.
    + intros ([|i] & c' & Hi & Hc & Hq).
      * left. cbn in Hi. injection Hi as ->. rewrite Hc.
        rewrite Nat.add_0_r in Hq. destruct first.
        -- apply elem_of_cons. destruct Hq as [->|(q' & Hq' & ->)]; [by left|].
           right. by apply list_elem_of_fmap_2.
        -- apply elem_of_app. destruct Hq as [->|(q' & Hq' & ->)].
           ++ right. by apply list_elem_of_singleton.
           ++ left. by apply list_elem_of_fmap_2.
      * right. exists i, c'. rewrite Nat.add_succ_r in Hq. done.
Qed.

Lemma descendants_nonempty n q : q ∈ descendants n -> q <> [].
Proof.
  destruct n as [t a cs|s|s]; cbn; [|by intros ?%elem_of_nil..].
  intros (i & c & _ & _ & [->|(q' & _ & ->)])%elem_of_child_paths; done.
Qed.


End DomFacts.

(** *** Class lists *)

Section ClassFacts.
Import JS Dom.




















End ClassFacts.

(** ** Parent classes *)

Section ParentFacts.
Import JS Dom Full.








Lemma elem_of_querySelectorAll sel body q :
  q ∈ querySelectorAll sel body <-> q ∈ descendants body /\ selected sel body q = true.
Proof. unfold querySelectorAll. rewrite list_elem_of_filter. tauto. Qed.


End ParentFacts.

(** *** The list of the elements has no repetition *)

Section TraversalFacts.
Import JS Dom Full.

Lemma NoDup_child_paths below l :
  (forall c, c ∈ l -> NoDup (below c) /\ forall q, q ∈ below c -> q <> []) ->
  forall k, NoDup (child_paths true below k l).
Proof.
  induction l as [|c l IH]; intros Hl k; cbn; [constructor|].
  apply NoDup_app. split; [|split].
  - destruct (is_element c); [|constructor].
    destruct (Hl c) as [Hnd Hne]; [by left|].
    apply NoDup_cons. split.
    + intros (q' & [= <-] & Hq')%list_elem_of_fmap. by apply (Hne []).
    + apply NoDup_fmap_2; [|done]. by intros ?? [= ->].
  - intros q Hq (i & c' & _ & _ & Hi)%elem_of_child_paths.
    destruct (is_element c); [|by apply elem_of_nil in Hq].
    apply elem_of_cons in Hq as [->|(q' & -> & _)%list_elem_of_fmap];
      destruct Hi as [[= ?]|(q'' & _ & [= ? ?])]; lia.
  - apply IH. intros c' Hc'. apply Hl. by right.
Qed.

Lemma NoDup_descendants n : NoDup (descendants n).
Proof.
  induction n as [t a cs IH|s|s] using node_ind; cbn; [|constructor..].
  apply NoDup_child_paths. intros c Hc. split.
  - rewrite Forall_forall in IH. by apply IH.
  - intros q. apply descendants_nonempty.
Qed.

Lemma NoDup_querySelectorAll sel body : NoDup (querySelectorAll sel body).
Proof. apply NoDup_filter, NoDup_descendants. Qed.




(** *** Loops on the module state *)


End TraversalFacts.


(** ** Step identity *)

Section StepFacts.
Import JS Data Dom Renderer Full.

(** *** A change of attributes keeps the shape of the tree *)

Lemma tag_at_update_with (g : attrs -> attrs) p : forall n q,
  tag_at (update_at (fun m => set_attributes (g (attributes m)) m) p n) q = tag_at n q.
Proof.
  unfold tag_at.
  induction p as [|i p IH]; intros n q.
  - destruct n as [t a cs|s|s], q as [|j q]; by cbn.
  - destruct n as [t a cs|s|s]; [|done..].
    destruct q as [|j q]; [done|]. cbn.
    destruct (decide (i = j)) as [->|Hij].
    + rewrite list_lookup_alter. rewrite decide_True by done.
      destruct (cs !! j) as [c|]; cbn; [apply IH|done].
    + by rewrite list_lookup_alter_ne.
Qed.

Lemma child_paths_alter (f : node -> node) cs : forall i k,
  (forall c, cs !! i = Some c ->
     is_element (f c) = is_element c /\ descendants (f c) = descendants c) ->
  child_paths true descendants k (alter f i cs) = child_paths true descendants k cs.
Proof.
  induction cs as [|c cs IH]; intros i k Hf; [done|].
  destruct i as [|i]; cbn.
  - destruct (Hf c) as [-> ->]; done.
  - f_equal. apply IH. intros c' Hc'. by apply Hf.
Qed.

Lemma descendants_update_with (g : attrs -> attrs) p : forall n,
  is_element (update_at (fun m => set_attributes (g (attributes m)) m) p n) = is_element n
  /\ descendants (update_at (fun m => set_attributes (g (attributes m)) m) p n)
     = descendants n.
Proof.
  induction p as [|i p IH]; intros n.
  - by destruct n.
  - destruct n as [t a cs|s|s]; [|done..]. split; [done|]. cbn.
    apply child_paths_alter. intros c _. apply IH.
Qed.

Lemma selected_tag t n q :
  selected (ByTag t) n q
  = match tag_at n q with Some t' => String.eqb t' t | None => false end.
Proof.
  unfold selected, tag_at. by destruct (node_at n q) as [[]|].
Qed.

Lemma querySelectorAll_tag_ext t n n' :
  descendants n' = descendants n ->
  (forall q, tag_at n' q = tag_at n q) ->
  querySelectorAll (ByTag t) n' = querySelectorAll (ByTag t) n.
Proof.
  intros Hd Ht. unfold querySelectorAll. rewrite Hd.
  apply list_filter_iff. intros q. by rewrite !selected_tag, Ht.
Qed.

(** *** Objects *)

Lemma get_set o k v k' :
  get (set o k v) k' = if String.eqb k k' then Some v else get o k'.
Proof.
  induction o as [|[k0 v0] o IH]; cbn.
  - done.
  - destruct (String.eqb_spec k0 k) as [->|Hne]; cbn.
    + by destruct (String.eqb k k').
    + rewrite IH. destruct (String.eqb_spec k0 k') as [->|]; [|done].
      destruct (String.eqb_spec k k') as [->|]; done.
Qed.

Lemma getAttribute_id_step_attributes objs d a :
  getAttribute (step_attributes objs d a) "id" = Some (to_string (field objs d "id")).
Proof.
  unfold step_attributes.
  assert (forall k' v b, k' <> "id" ->
            getAttribute (setAttribute b k' v) "id" = getAttribute b "id") as Hset.
  { intros k' v b Hne. rewrite getAttribute_setAttribute.
    by destruct (String.eqb_spec k' "id"). }
  destruct (truthy (field objs d "class")); [rewrite Hset by done|];
    (destruct (truthy (field objs d "goals")); [rewrite Hset by done|]);
    by rewrite getAttribute_setAttribute.
Qed.

(** *** One round *)

Lemma assign_step_object cur i p st l r o :
  steps (data st) = StepsArray l -> l !! i = Some r -> objects st !! r = Some o ->
  exists o' st',
    assign_step cur (i, p) st
    = (Ok (update_at
             (fun n => set_attributes
                         (step_attributes (objects st') (RObject r) (attributes n)) n)
             p cur), st') /\
    data st' = data st /\
    objects st' = <[r := o']> (objects st) /\
    get o' "id" = final_id i o.
Proof.
  intros Hsteps Hl Ho.
  unfold assign_step, ensure_id, bind, gets, throw, ret, step_record.
  rewrite Hsteps, Hl. cbn [fmap option_fmap option_map field]. rewrite Ho.
  unfold final_id. destruct (truthy (get o "id")) eqn:Hid.
  - exists o, st. rewrite list_insert_id by done. done.
  - exists (set o "id" (SStr ("step-" +:+ pretty i))), 
      (with_objects (alter (fun o => set o "id" (SStr ("step-" +:+ pretty i))) r) st).
    split; [done|]. split; [done|]. split.
    + cbn. apply list_eq. intros j. rewrite list_lookup_alter, list_lookup_insert.
      case_decide as Hj; [subst j|].
      * rewrite Ho. cbn. rewrite decide_True; [done|].
        split; [done|]. by eapply lookup_lt_Some.
      * rewrite decide_False; [done|]. by intros [? _].
    + by rewrite get_set.
Qed.

End StepFacts.

(** *** The loop *)

Section StepLoop.
Import JS Data Dom Renderer Full.

Lemma assign_loop (l : list nat) ps : forall k cur st,
  steps (data st) = StepsArray l -> NoDup l -> NoDup ps ->
  (forall j p, ps !! j = Some p ->
     is_Some (attrs_at cur p) /\
     exists r, l !! (k + j)%nat = Some r /\ is_Some (objects st !! r)) ->
  exists cur' st',
    foldM assign_step cur (imap (fun j x => ((k + j)%nat, x)) ps) st = (Ok cur', st') /\
    data st' = data st /\
    (forall q, q ∉ ps -> attrs_at cur' q = attrs_at cur q) /\
    (forall q, tag_at cur' q = tag_at cur q) /\
    descendants cur' = descendants cur /\
    (forall r, (forall j, (j < length ps)%nat -> l !! (k + j)%nat <> Some r) ->
               objects st' !! r = objects st !! r) /\
    (forall j p r o, ps !! j = Some p -> l !! (k + j)%nat = Some r ->
       objects st !! r = Some o ->
       (exists o', objects st' !! r = Some o' /\ get o' "id" = final_id (k + j) o) /\
       (exists a, attrs_at cur' p = Some a /\
                  getAttribute a "id" = Some (to_string (final_id (k + j) o)))).
Proof.
  induction ps as [|p0 ps IH]; intros k cur st Hsteps Hl Hps Hall.
  - exists cur, st. cbn. repeat split; try done.
    all: intros j p r o Hj; by rewrite lookup_nil in Hj.
  - apply NoDup_cons in Hps as [Hp0 Hps].
    destruct (Hall 0%nat p0) as ([a0 Ha0] & r0 & Hr0 & [o0 Ho0]); [done|].
    rewrite Nat.add_0_r in Hr0.
    destruct (assign_step_object cur k p0 st l r0 o0 Hsteps Hr0 Ho0)
      as (o0' & st1 & Hstep & Hdata1 & Hobjs1 & Hid0).
    set (g := step_attributes (objects st1) (RObject r0)) in *.
    set (cur1 := update_at (fun n => set_attributes (g (attributes n)) n) p0 cur) in *.
    assert (Hr0lt : (r0 < length (objects st))%nat) by (by eapply lookup_lt_Some).
    assert (Hother : forall r, r <> r0 -> objects st1 !! r = objects st !! r).
    { intros r Hr. rewrite Hobjs1. by apply list_lookup_insert_ne. }
    assert (Hsame : objects st1 !! r0 = Some o0').
    { rewrite Hobjs1. by apply list_lookup_insert_eq. }
    assert (Hinj : forall j, l !! (S k + j)%nat <> Some r0).
    { intros j Hj. pose proof (NoDup_lookup _ _ _ _ Hl Hr0 Hj). lia. }
    destruct (IH (S k) cur1 st1) as (cur' & st' & Hloop & Hdata & Hattrs & Htags & Hdesc & Hobjs & Hres).
    { by rewrite Hdata1. }
    { done. }
    { done. }
    { intros j p Hj. destruct (Hall (S j) p) as ([a Ha] & r & Hr & [o Ho]); [done|].
      rewrite Nat.add_succ_r in Hr. split.
      - unfold cur1. rewrite attrs_at_update_with, decide_False.
        + by exists a.
        + intros ->. apply Hp0. by eapply list_elem_of_lookup_2.
      - exists r. split; [done|]. rewrite Hother; [by exists o|].
        intros ->. by apply (Hinj j). }
    exists cur', st'. split; [|split; [|split; [|split; [|split; [|split]]]]].
    + cbn [imap foldM]. unfold bind at 1. rewrite Nat.add_0_r, Hstep.
      erewrite imap_ext; [exact Hloop|]. intros j x _. cbn. f_equal. lia.
    + by rewrite Hdata.
    + intros q Hq. apply not_elem_of_cons in Hq as [Hq0 Hq].
      rewrite (Hattrs q Hq). unfold cur1. by rewrite attrs_at_update_with, decide_False.
    + intros q. rewrite Htags. apply tag_at_update_with.
    + rewrite Hdesc. apply descendants_update_with.
    + intros r Hr. rewrite Hobjs.
      * apply Hother. intros ->. apply (Hr 0%nat); [cbn; lia|]. by rewrite Nat.add_0_r.
      * intros j Hj. specialize (Hr (S j)). rewrite Nat.add_succ_r in Hr.
        apply Hr. cbn. lia.
    + intros j p r o Hj Hr Ho. destruct j as [|j].
      * cbn in Hj. injection Hj as <-. rewrite Nat.add_0_r in *.
        assert (r = r0) as -> by congruence. assert (o = o0) as -> by congruence.
        split.
        -- exists o0'. split; [|done]. rewrite Hobjs; [done|].
           intros j _. apply Hinj.
        -- rewrite (Hattrs p0 Hp0). unfold cur1.
           rewrite attrs_at_update_with, decide_True, Ha0 by done. cbn.
           eexists. split; [done|]. unfold g.
           rewrite getAttribute_id_step_attributes. cbn. by rewrite Hsame, Hid0.
      * cbn in Hj. rewrite Nat.add_succ_r in *.
        apply (Hres j p r o); [done|done|].
        rewrite Hother; [done|]. intros ->. by apply (Hinj j).
Qed.

End StepLoop.


(** ** The renderer and the module state *)

Section RendererFacts.
Import JS Data Dom Renderer Full.

Lemma call_ind (P : call -> Prop) :
  (forall html, P (CRaw html)) ->
  (forall href title text, Forall P text -> P (CLink href title text)) ->
  (forall text level, Forall P text -> P (CHeading text level)) ->
  (forall c, P (CCodespan c)) ->
  (forall quote, Forall P quote -> P (CBlockquote quote)) ->
  P CHr ->
  (forall c, P (CCode c)) ->
  (forall text, Forall P text -> P (CListitem text)) ->
  (forall text, Forall P text -> P (CParagraph text)) ->
  forall c, P c.
Proof.
  intros Hraw Hlink Hhead Hspan Hquote Hhr Hcode Hitem Hpar. fix IH 1.
  intros [html|href title text|text level|c|text| |c|text|text];
    [apply Hraw|apply Hlink|apply Hhead|apply Hspan|apply Hquote
    |apply Hhr|apply Hcode|apply Hitem|apply Hpar];
    (induction text as [|c l IHl]; constructor; [apply IH|apply IHl]).
Qed.

(** *** Invariants of the module state *)

Lemma keeps_ret I {A} (a : A) : keeps I (ret a).
Proof. by intros s Hs. Qed.

Lemma keeps_bind I {A B} (m : M A) (k : A -> M B) :
  keeps I m -> (forall a, keeps I (k a)) -> keeps I (bind m k).
Proof.
  intros Hm Hk s Hs. unfold bind. specialize (Hm s Hs).
  destruct (m s) as [[a|e] s1]; [|done]. by apply Hk.
Qed.

Lemma keeps_lift I {A} (r : result A) : keeps I (lift r).
Proof. by intros s Hs. Qed.

Lemma keeps_throw I {A} e : keeps I (@throw A e).
Proof. by intros s Hs. Qed.

Lemma keeps_gets I {A} (f : state -> A) : keeps I (gets f).
Proof. by intros s Hs. Qed.

Lemma keeps_modify I (f : state -> state) :
  (forall s, I s -> I (f s)) -> keeps I (modify f).
Proof. intros Hf s Hs. by apply Hf. Qed.

Lemma keeps_foldM I {A B} (f : B -> A -> M B) l :
  (forall b a, keeps I (f b a)) -> forall b, keeps I (foldM f b l).
Proof.
  intros Hf. induction l as [|a l IH]; intros b; cbn.
  - apply keeps_ret.
  - apply keeps_bind; [apply Hf|]. intros b'. apply IH.
Qed.

Section Render.
Variable L : libraries.
Variable I : state -> Prop.
Hypothesis I_link : forall href title text, keeps I (link L href title text).
Hypothesis I_heading : forall text level, keeps I (heading text level).
Hypothesis I_codespan : forall c, keeps I (codespan L c).
Hypothesis I_blockquote : forall quote, keeps I (blockquote L quote).
Hypothesis I_hr : keeps I hr.
Hypothesis I_code : forall c, keeps I (code L c).
Hypothesis I_listitem : forall text, keeps I (listitem L text).
Hypothesis I_paragraph : forall text, keeps I (paragraph L text).

Lemma render_all_keeps_from l :
  Forall (fun c => keeps I (render L c)) l -> keeps I (render_all L l).
Proof.
  induction 1 as [|c l Hc Hl IH]; cbn.
  - apply keeps_ret.
  - apply keeps_bind; [done|]. intros a. apply keeps_bind; [done|].
    intros b. apply keeps_ret.
Qed.

Lemma render_unfold c :
  render L c =
  match c with
  | CRaw html => ret html
  | CLink href title text => bind (render_all L text) (fun t => link L href title t)
  | CHeading text level => bind (render_all L text) (fun t => heading t level)
  | CCodespan c => codespan L c
  | CBlockquote quote => bind (render_all L quote) (fun q => blockquote L q)
  | CHr => hr
  | CCode c => code L c
  | CListitem text => bind (render_all L text) (fun t => listitem L t)
  | CParagraph text => bind (render_all L text) (fun t => paragraph L t)
  end.
Proof. by destruct c. Qed.

Lemma render_keeps c : keeps I (render L c).
Proof.
  induction c using call_ind; rewrite render_unfold;
    try (apply keeps_bind; [by apply render_all_keeps_from|intros t]); auto.
  apply keeps_ret.
Qed.

Lemma render_all_keeps l : keeps I (render_all L l).
Proof.
  apply render_all_keeps_from, Forall_forall. intros c _. apply render_keeps.
Qed.

End Render.

End RendererFacts.

(** ** Reference sets *)

Section ReferenceSets.
Import JS Data Dom Renderer Full.

Lemma NoDup_set_add x l : NoDup l -> NoDup (set_add x l).
Proof.
  intros Hl. unfold set_add. case_bool_decide; [done|].
  apply NoDup_app. split; [done|]. split; [|apply NoDup_singleton].
  intros y Hy ->%list_elem_of_singleton. done.
Qed.

Lemma bind_Ok {A B} (m : M A) (k : A -> M B) s b s' :
  bind m k s = (Ok b, s') ->
  exists a s1, m s = (Ok a, s1) /\ k a s1 = (Ok b, s').
Proof.
  unfold bind. destruct (m s) as [[a|e] s1]; [|done]. intros H. by exists a, s1.
Qed.

Lemma untouched_keeps {A} (m : M A) : sets_untouched m -> keeps sets_ok m.
Proof. intros Hm s [Hg Hb]. destruct (Hm s) as [Eg Eb]. split; congruence. Qed.

Section WithLibraries.
Variable L : libraries.

Lemma link_keeps href title text : keeps sets_ok (link L href title text).
Proof.
  intros s [Hg Hb]. unfold link.
  destruct (startsWith href "gloss:"); [split; cbn; [by apply NoDup_set_add|done]|].
  destruct (startsWith href "bio:"); [split; cbn; [done|by apply NoDup_set_add]|].
  destruct (startsWith href "target:"); [done|].
  by destruct (startsWith (entities_decode L href) "->").
Qed.

Lemma heading_keeps text level : keeps sets_ok (heading text level).
Proof. apply untouched_keeps. intros s. unfold heading. by destruct (level =? 1)%nat. Qed.

Lemma codespan_keeps c : keeps sets_ok (codespan L c).
Proof.
  apply untouched_keeps. intros s. unfold codespan, bind, lift, or_throw.
  by destruct (ascii2mathml L (entities_decode L c)).
Qed.

Lemma blockquote_keeps quote : keeps sets_ok (blockquote L quote).
Proof.
  apply untouched_keeps. intros s. unfold blockquote, bind, gets, lift, or_throw.
  destruct (yaml_parse L _); [|done]. by destruct (currentStep s).
Qed.

Lemma hr_keeps : keeps sets_ok hr.
Proof.
  apply untouched_keeps. intros s. unfold hr, bind, gets, modify, throw. cbn.
  by destruct (steps (data s)).
Qed.

Lemma code_keeps c : keeps sets_ok (code L c).
Proof.
  apply untouched_keeps. intros s. unfold code, bind, gets, lift, or_throw.
  destruct (currentStep s); [|done]. by destruct (pug_render L _ _).
Qed.

Lemma listitem_keeps text : keeps sets_ok (listitem L text).
Proof. by apply untouched_keeps. Qed.

Lemma paragraph_keeps text : keeps sets_ok (paragraph L text).
Proof. by apply untouched_keeps. Qed.

Lemma render_all_sets_ok l : keeps sets_ok (render_all L l).
Proof.
  apply render_all_keeps;
    auto using link_keeps, heading_keeps, codespan_keeps, blockquote_keeps,
      hr_keeps, code_keeps, listitem_keeps, paragraph_keeps.
Qed.

Lemma render_mds_sets_ok body todo : forall done cur,
  keeps sets_ok (render_mds L body done todo cur).
Proof.
  induction todo as [|p todo IH]; intros done cur; cbn; [apply keeps_ret|].
  apply keeps_bind; [|intros cur'; apply IH].
  unfold render_md. destruct (node_at body p) as [[t a cs|s|s]|]; try apply keeps_ret.
  apply keeps_bind; [apply keeps_lift|]. intros a'.
  apply keeps_bind; [apply render_all_sets_ok|]. intros rendered.
  destruct (existsb _ done); apply keeps_ret.
Qed.

Lemma assign_steps_sets_ok body : keeps sets_ok (assign_steps body).
Proof.
  apply keeps_foldM. intros b [i p]. apply untouched_keeps. intros s.
  unfold assign_step, ensure_id, bind, gets, throw.
  destruct (step_record (data s) i) as [d|]; [|done].
  destruct (truthy _); [done|]. by destruct d.
Qed.

Lemma parseFull_sets_ok id content path s :
  sets_ok (snd (parseFull L id content path s)).
Proof.
  unfold parseFull. unfold bind at 1, modify.
  assert (sets_ok (reset path s)) as Hreset by (split; constructor).
  revert Hreset. generalize (reset path s). intros s0 Hs0.
  revert s0 Hs0. change (keeps sets_ok ?m) with (forall s0, sets_ok s0 -> sets_ok (snd (m s0))).
  apply keeps_bind; [apply keeps_lift|]. intros content'.
  apply keeps_bind; [apply render_all_sets_ok|]. intros parsed.
  apply keeps_bind; [apply keeps_lift|]. intros body.
  apply keeps_bind; [apply render_mds_sets_ok|]. intros body1.
  apply keeps_bind; [apply keeps_lift|]. intros body2.
  apply keeps_bind; [apply assign_steps_sets_ok|]. intros body3.
  apply keeps_bind; [apply keeps_gets|]. intros s1. apply keeps_ret.
Qed.

(** What [parseFull] returns is read from the module state. *)
Lemma parseFull_output id content path s out s' :
  parseFull L id content path s = (Ok out, s') ->
  out_gloss out = gloss s' /\ out_bios out = bios s' /\
  out_data_props out = props (data s') /\
  out_data_steps out = resolve (objects s') (steps (data s')).
Proof.
  unfold parseFull.
  intros (? & s1 & _ & H)%bind_Ok.
  apply bind_Ok in H as (content' & s2 & _ & H).
  apply bind_Ok in H as (parsed & s3 & _ & H).
  apply bind_Ok in H as (body & s4 & _ & H).
  apply bind_Ok in H as (body1 & s5 & _ & H).
  apply bind_Ok in H as (body2 & s6 & _ & H).
  apply bind_Ok in H as (body3 & s7 & _ & H).
  unfold bind, gets, ret in H. by injection H as <- <-.
Qed.

End WithLibraries.

(** An invariant of the rendering is an invariant of the loop over the
    elements of class [md]. *)
Lemma render_mds_keeps (L : libraries) (I : state -> Prop) body todo :
  (forall l, keeps I (render_all L l)) ->
  forall done cur, keeps I (render_mds L body done todo cur).
Proof.
  intros Hrender.
  induction todo as [|p todo IH]; intros done cur; cbn; [apply keeps_ret|].
  apply keeps_bind; [|intros cur'; apply IH].
  unfold render_md. destruct (node_at body p) as [[t a cs|x|x]|]; try apply keeps_ret.
  apply keeps_bind; [apply keeps_lift|]. intros a'.
  apply keeps_bind; [apply Hrender|]. intros rendered.
  destruct (existsb _ done); apply keeps_ret.
Qed.

(** *** What the links add to the sets *)

Lemma elem_of_set_add x y l : x ∈ set_add y l <-> x ∈ l \/ x = y.
Proof.
  unfold set_add. case_bool_decide as H.
  - split; [by left|]. by intros [?| ->].
  - rewrite elem_of_app, list_elem_of_singleton. tauto.
Qed.

Lemma set_add_all_app l1 l2 s :
  set_add_all (l1 ++ l2) s = set_add_all l2 (set_add_all l1 s).
Proof. apply foldl_app. Qed.

Lemma elem_of_set_add_all x l : forall s, x ∈ set_add_all l s <-> x ∈ s \/ x ∈ l.
Proof.
  induction l as [|y l IH]; intros s.
  - cbn. rewrite elem_of_nil. tauto.
  - change (set_add_all (y :: l) s) with (set_add_all l (set_add y s)).
    rewrite IH, elem_of_set_add, elem_of_cons. tauto.
Qed.

Lemma adds_ret {A} (a : A) : adds [] [] (ret a).
Proof. by intros s a' s' [= _ <-]. Qed.

Lemma adds_bind {A B} g1 b1 g2 b2 (m : M A) (k : A -> M B) :
  adds g1 b1 m -> (forall a, adds g2 b2 (k a)) -> adds (g1 ++ g2) (b1 ++ b2) (bind m k).
Proof.
  intros Hm Hk s b s' (a & s1 & H1 & H2)%bind_Ok.
  destruct (Hm _ _ _ H1) as [Eg Eb]. destruct (Hk a _ _ _ H2) as [Eg' Eb'].
  by rewrite !set_add_all_app, <- Eg, <- Eb.
Qed.

Lemma untouched_adds {A} (m : M A) : sets_untouched m -> adds [] [] m.
Proof. intros Hm s a s' H. destruct (Hm s) as [Eg Eb]. by rewrite H in Eg, Eb. Qed.

(** A computation that leaves the sets as they are keeps every property
    of theirs. *)
Lemma untouched_keeps_all {A} (m : M A) (P : list string -> list string -> Prop) :
  sets_untouched m -> keeps (fun s => P (gloss s) (bios s)) m.
Proof. intros Hm s Hs. destruct (Hm s) as [-> ->]. exact Hs. Qed.

Section Links.
Variable L : libraries.

Lemma heading_untouched text level : sets_untouched (heading text level).
Proof. intros s. unfold heading. by destruct (level =? 1)%nat. Qed.

Lemma codespan_untouched c : sets_untouched (codespan L c).
Proof.
  intros s. unfold codespan, bind, lift, or_throw.
  by destruct (ascii2mathml L (entities_decode L c)).
Qed.

Lemma blockquote_untouched quote : sets_untouched (blockquote L quote).
Proof.
  intros s. unfold blockquote, bind, gets, lift, or_throw.
  destruct (yaml_parse L _); [|done]. by destruct (currentStep s).
Qed.

Lemma hr_untouched : sets_untouched hr.
Proof.
  intros s. unfold hr, bind, gets, modify, throw. cbn. by destruct (steps (data s)).
Qed.

Lemma code_untouched c : sets_untouched (code L c).
Proof.
  intros s. unfold code, bind, gets, lift, or_throw.
  destruct (currentStep s); [|done]. by destruct (pug_render L _ _).
Qed.

Lemma assign_step_untouched b ip : sets_untouched (assign_step b ip).
Proof.
  destruct ip as [i p]. intros s.
  unfold assign_step, ensure_id, bind, gets, throw.
  destruct (step_record (data s) i) as [d|]; [|done].
  destruct (truthy _); [done|]. by destruct d.
Qed.

Lemma link_adds href title text :
  adds (option_list (gloss_id href)) (option_list (bio_id href)) (link L href title text).
Proof.
  intros s a s'. unfold link, gloss_id, bio_id.
  destruct (startsWith href "gloss:"); [by intros [= _ <-]|].
  destruct (startsWith href "bio:"); [by intros [= _ <-]|].
  destruct (startsWith href "target:"); [by intros [= _ <-]|].
  destruct (startsWith (entities_decode L href) "->"); by intros [= _ <-].
Qed.

(** A link keeps what is in the sets. *)
Lemma link_keeps_members (P : list string -> Prop) href title text :
  (forall x l, P l -> P (set_add x l)) ->
  keeps (fun s => P (gloss s)) (link L href title text) /\
  keeps (fun s => P (bios s)) (link L href title text).
Proof.
  intros HP. split; intros s Hs; unfold link;
    (destruct (startsWith href "gloss:"); [cbn; auto|]);
    (destruct (startsWith href "bio:"); [cbn; auto|]);
    (destruct (startsWith href "target:"); [done|]);
    by destruct (startsWith (entities_decode L href) "->").
Qed.

Lemma hrefs_unfold c :
  hrefs c =
  match c with
  | CLink href _ text => all_hrefs text ++ [href]
  | CHeading text _ | CBlockquote text | CListitem text | CParagraph text =>
      all_hrefs text
  | CRaw _ | CCodespan _ | CHr | CCode _ => []
  end.
Proof. by destruct c. Qed.

Lemma render_all_adds_from l :
  Forall (fun c => adds (omap gloss_id (hrefs c)) (omap bio_id (hrefs c)) (render L c)) l ->
  adds (omap gloss_id (all_hrefs l)) (omap bio_id (all_hrefs l)) (render_all L l).
Proof.
  induction 1 as [|c l Hc Hl IH]; cbn [render_all all_hrefs].
  - apply adds_ret.
  - rewrite !omap_app. apply adds_bind; [done|]. intros a.
    rewrite <- (app_nil_r (omap gloss_id (all_hrefs l))).
    rewrite <- (app_nil_r (omap bio_id (all_hrefs l))).
    apply adds_bind; [done|]. intros b. apply adds_ret.
Qed.

Lemma render_adds c :
  adds (omap gloss_id (hrefs c)) (omap bio_id (hrefs c)) (render L c).
Proof.
  induction c as [html|href title text IH|text level IH|c|quote IH| |c|text IH|text IH]
    using call_ind; rewrite render_unfold, hrefs_unfold.
  - apply adds_ret.
  - rewrite !omap_app. apply adds_bind; [by apply render_all_adds_from|]. intros t.
    assert (Hone : forall f : string -> option string,
              omap f [href] = option_list (f href))
      by (intros f; cbn; by destruct (f href)).
    rewrite !Hone. apply link_adds.
  - rewrite <- (app_nil_r (omap gloss_id _)), <- (app_nil_r (omap bio_id _)).
    apply adds_bind; [by apply render_all_adds_from|]. intros t.
    apply untouched_adds, heading_untouched.
  - apply untouched_adds, codespan_untouched.
  - rewrite <- (app_nil_r (omap gloss_id _)), <- (app_nil_r (omap bio_id _)).
    apply adds_bind; [by apply render_all_adds_from|]. intros t.
    apply untouched_adds, blockquote_untouched.
  - apply untouched_adds, hr_untouched.
  - apply untouched_adds, code_untouched.
  - rewrite <- (app_nil_r (omap gloss_id _)), <- (app_nil_r (omap bio_id _)).
    apply adds_bind; [by apply render_all_adds_from|]. intros t.
    by apply untouched_adds.
  - rewrite <- (app_nil_r (omap gloss_id _)), <- (app_nil_r (omap bio_id _)).
    apply adds_bind; [by apply render_all_adds_from|]. intros t.
    by apply untouched_adds.
Qed.

Lemma render_all_adds l :
  adds (omap gloss_id (all_hrefs l)) (omap bio_id (all_hrefs l)) (render_all L l).
Proof. apply render_all_adds_from, Forall_forall. intros c _. apply render_adds. Qed.

(** What is in a set stays in it while the calls of marked are rendered. *)
Lemma render_all_keeps_members (P : list string -> Prop) l :
  (forall x l, P l -> P (set_add x l)) ->
  keeps (fun s => P (gloss s)) (render_all L l) /\
  keeps (fun s => P (bios s)) (render_all L l).
Proof.
  intros HP. split; apply render_all_keeps;
    try (intros; apply (link_keeps_members P); exact HP);
    intros;
    first [ apply (untouched_keeps_all _ (fun g _ => P g))
          | apply (untouched_keeps_all _ (fun _ b => P b)) ];
    auto using heading_untouched, codespan_untouched, blockquote_untouched,
      hr_untouched, code_untouched; done.
Qed.

Lemma assign_steps_untouched body s body' s' :
  assign_steps body s = (Ok body', s') -> gloss s' = gloss s /\ bios s' = bios s.
Proof.
  intros H.
  pose proof (keeps_foldM (fun x => gloss x = gloss s /\ bios x = bios s) assign_step
                (indexed (querySelectorAll (ByTag "x-step") body))) as Hk.
  unfold assign_steps in H.
  specialize (Hk (fun b ip =>
    untouched_keeps_all _ (fun g b' => g = gloss s /\ b' = bios s)
      (assign_step_untouched b ip)) body s (conj eq_refl eq_refl)).
  by rewrite H in Hk.
Qed.

(** The sets that [parseFull] returns, from the links of the document. *)
Lemma parseFull_sets id content path lexed s out s' :
  parseFull L id content path s = (Ok out, s') ->
  Blocks.blockIndentation (pug_render L) (Preprocess.preprocess id content) = Ok lexed ->
  exists parsed s1 body body1 s2,
    render_all L (lexer_lex L lexed) (reset path s) = (Ok parsed, s1) /\
    gloss s1 = set_add_all (omap gloss_id (all_hrefs (lexer_lex L lexed))) [] /\
    bios s1 = set_add_all (omap bio_id (all_hrefs (lexer_lex L lexed))) [] /\
    expand_attributes L (JSDom L (parsed +:+ "</x-step>")) = Ok body /\
    render_markdown L body s1 = (Ok body1, s2) /\
    out_gloss out = gloss s2 /\ out_bios out = bios s2.
Proof.
  intros Hfull Hlexed.
  destruct (parseFull_output L _ _ _ _ _ _ Hfull) as (Eg & Eb & _).
  unfold parseFull in Hfull.
  apply bind_Ok in Hfull as ([] & s0 & [= <-] & H).
  apply bind_Ok in H as (content' & s2 & E1 & H).
  unfold lift in E1. rewrite Hlexed in E1. injection E1 as <- <-.
  apply bind_Ok in H as (parsed & s3 & E2 & H).
  apply bind_Ok in H as (body0 & s4 & E3 & H).
  unfold lift in E3. injection E3 as E3 <-.
  apply bind_Ok in H as (body1 & s5 & E4 & H).
  apply bind_Ok in H as (body & s6 & E5 & H).
  unfold lift in E5. injection E5 as E5 <-.
  apply bind_Ok in H as (body' & s7 & E6 & H).
  assert (s7 = s') as -> by (unfold bind, gets, ret in H; by injection H as _ <-).
  destruct (assign_steps_untouched _ _ _ _ E6) as [Eg' Eb'].
  destruct (render_all_adds _ _ _ _ E2) as [Hg Hb].
  exists parsed, s3, body0, body1, s5. repeat split; try done; congruence.
Qed.

End Links.

(** C4.  Whenever [parseFull] returns, the glossary set and the
    biography set that it returns hold no identifier twice, whatever the
    document and however many links refer to an identifier, and they hold
    the identifier of every [gloss:] and [bio:] link of the document.  When
    the tree of the document has no element of the class [md], whose
    content would be rendered as well, the sets are the identifiers of
    these links, each once, in the order of their first link; so two links
    to [gloss:atom] give the glossary set with the one member [atom]. *)
Theorem reference_sets_hold_each_identifier_once
    (L : libraries) (id content path lexed : string) (s s' : state) (out : output) :
  parseFull L id content path s = (Ok out, s') ->
  Blocks.blockIndentation (pug_render L) (Preprocess.preprocess id content) = Ok lexed ->
  (NoDup (out_gloss out) /\ NoDup (out_bios out)) /\
  (forall x, x ∈ omap gloss_id (all_hrefs (lexer_lex L lexed)) -> x ∈ out_gloss out) /\
  (forall x, x ∈ omap bio_id (all_hrefs (lexer_lex L lexed)) -> x ∈ out_bios out) /\
  ((forall parsed s1 body,
      render_all L (lexer_lex L lexed) (reset path s) = (Ok parsed, s1) ->
      expand_attributes L (JSDom L (parsed +:+ "</x-step>")) = Ok body ->
      querySelectorAll (ByClass "md") body = []) ->
   out_gloss out = set_add_all (omap gloss_id (all_hrefs (lexer_lex L lexed))) [] /\
   out_bios out = set_add_all (omap bio_id (all_hrefs (lexer_lex L lexed))) [] /\
   (omap gloss_id (all_hrefs (lexer_lex L lexed)) = ["atom"; "atom"] ->
    out_gloss out = ["atom"])).
Proof.
  intros Hfull Hlexed.
  destruct (parseFull_sets L _ _ _ _ _ _ _ Hfull Hlexed)
    as (parsed & s1 & body & body1 & s2 & Hrender & Hg & Hb & Hattr & Hmd & Eg & Eb).
  split; [|split; [|split]].
  - destruct (parseFull_output L _ _ _ _ _ _ Hfull) as (-> & -> & _).
    pose proof (parseFull_sets_ok L id content path s) as Hok.
    rewrite Hfull in Hok. exact Hok.
  - intros x Hx. rewrite Eg.
    pose proof (render_mds_keeps L (fun st => x ∈ gloss st) body
                  (querySelectorAll (ByClass "md") body)
                  (fun l => proj1 (render_all_keeps_members L (fun g => x ∈ g) l
                                     (fun y g Hy => proj2 (elem_of_set_add x y g) (or_introl Hy))))
                  [] body s1) as Hk.
    unfold render_markdown in Hmd. rewrite Hmd in Hk. apply Hk.
    rewrite Hg. apply elem_of_set_add_all. by right.
  - intros x Hx. rewrite Eb.
    pose proof (render_mds_keeps L (fun st => x ∈ bios st) body
                  (querySelectorAll (ByClass "md") body)
                  (fun l => proj2 (render_all_keeps_members L (fun g => x ∈ g) l
                                     (fun y g Hy => proj2 (elem_of_set_add x y g) (or_introl Hy))))
                  [] body s1) as Hk.
    unfold render_markdown in Hmd. rewrite Hmd in Hk. apply Hk.
    rewrite Hb. apply elem_of_set_add_all. by right.
  - intros Hnone. specialize (Hnone _ _ _ Hrender Hattr).
    unfold render_markdown in Hmd. rewrite Hnone in Hmd. cbn in Hmd.
    injection Hmd as _ <-.
    split; [congruence|]. split; [congruence|].
    intros E. rewrite Eg, Hg, E. reflexivity.
Qed.

Lemma reference_sets_hold_each_identifier_once_witness :
  match parseFull Examples.libs "doc" Examples.two_links "dir" initial with
  | (Ok out, _) =>
      out_gloss out = ["atom"] /\ out_bios out = [] /\ NoDup (out_gloss out)
  | (Throw _, _) => False
  end.
Proof.
  destruct (parseFull Examples.libs "doc" Examples.two_links "dir" initial)
    as [[out|e] s'] eqn:E.
  - destruct (reference_sets_hold_each_identifier_once Examples.libs "doc"
                Examples.two_links "dir" Examples.two_links initial s' out E eq_refl)
      as ([Hg _] & _ & _ & Hexact).
    destruct Hexact as (_ & Hb & Hatom).
    + intros parsed s1 body H1 H2. vm_compute in H1. injection H1 as <- _.
      vm_compute in H2. by injection H2 as <-.
    + split; [by apply Hatom|]. by split.
  - vm_compute in E. discriminate E.
Defined.

End ReferenceSets.

(** ** The stages of [parseFull] *)

Section Pipeline.
Import JS Data Dom Renderer Full.


Lemma parseFull_stages (L : libraries) id content path s out s' :
  parseFull L id content path s = (Ok out, s') ->
  exists body s1 body',
    tree L id content (reset path s) = (Ok body, s1) /\
    assign_steps body s1 = (Ok body', s') /\
    finish L body' s' = (Ok out, s').
Proof.
  unfold parseFull.
  intros ([] & s0 & [= <-] & H)%bind_Ok.
  apply bind_Ok in H as (content' & s2 & E1 & H).
  apply bind_Ok in H as (parsed & s3 & E2 & H).
  apply bind_Ok in H as (body0 & s4 & E3 & H).
  apply bind_Ok in H as (body1 & s5 & E4 & H).
  apply bind_Ok in H as (body & s6 & E5 & H).
  apply bind_Ok in H as (body' & s7 & E6 & H).
  exists body, s6, body'.
  assert (s7 = s') as ->.
  { unfold bind, gets, ret in H. by injection H as _ <-. }
  split; [|by split].
  unfold tree. unfold bind at 1. rewrite E1.
  unfold bind at 1. rewrite E2.
  unfold bind at 1. rewrite E3.
  unfold bind at 1. rewrite E4. exact E5.
Qed.

(** An invariant of the callbacks is an invariant of the first part. *)
Lemma tree_keeps (L : libraries) (I : state -> Prop) id content :
  (forall l, keeps I (render_all L l)) -> keeps I (tree L id content).
Proof.
  intros Hrender. unfold tree.
  apply keeps_bind; [apply keeps_lift|]. intros content'.
  apply keeps_bind; [apply Hrender|]. intros parsed.
  apply keeps_bind; [apply keeps_lift|]. intros body.
  apply keeps_bind; [|intros body1; apply keeps_lift].
  by apply render_mds_keeps.
Qed.

(** *** The array of steps *)

Lemma assign_document_steps src : forall d,
  steps (assign_document d src) = steps d \/
  exists v, steps (assign_document d src) = StepsScalar v.
Proof.
  unfold assign_document.
  induction src as [|[k v] src IH]; intros d; cbn; [by left|].
  destruct (String.eqb k "steps").
  - right. destruct (IH (Document (StepsScalar v) (props d))) as [->|[v' ->]]; eauto.
  - destruct (IH (Document (steps d) (set (props d) k v))) as [->|[v' ->]]; eauto.
Qed.

Lemma render_all_steps_fresh (L : libraries) l : keeps steps_fresh (render_all L l).
Proof.
  apply render_all_keeps.
  - intros href title text s Hs. unfold link.
    destruct (startsWith href "gloss:"); [done|].
    destruct (startsWith href "bio:"); [done|].
    destruct (startsWith href "target:"); [done|].
    by destruct (startsWith (entities_decode L href) "->").
  - intros text level s Hs. unfold heading. by destruct (level =? 1)%nat.
  - intros c s Hs. unfold codespan, bind, lift, or_throw.
    by destruct (ascii2mathml L (entities_decode L c)).
  - intros quote s Hs. unfold blockquote, bind, gets, lift, or_throw.
    destruct (yaml_parse L _) as [src|]; [|done].
    destruct (currentStep s) as [r|]; unfold steps_fresh in *; cbn.
    + by rewrite length_alter.
    + destruct (assign_document_steps src (data s)) as [->|[v ->]]; done.
  - intros s Hs. unfold hr, bind, gets, modify, throw, steps_fresh in *. cbn.
    destruct (steps (data s)) as [l'|v] eqn:E; cbn.
    + rewrite Hs, length_app. cbn. by rewrite Nat.add_1_r, seq_S.
    + by rewrite E.
  - intros c s Hs. unfold code, bind, gets, lift, or_throw.
    destruct (currentStep s); [|done]. by destruct (pug_render L _ _).
  - by intros text s Hs.
  - by intros text s Hs.
Qed.

Lemma tree_steps_fresh (L : libraries) id content path s body s1 :
  tree L id content (reset path s) = (Ok body, s1) -> steps_fresh s1.
Proof.
  intros H.
  pose proof (tree_keeps L steps_fresh id content (render_all_steps_fresh L)
                (reset path s)) as Hk.
  rewrite H in Hk. by apply Hk.
Qed.


(** *** The loop over the steps needs a record for each element *)

Lemma assign_step_Ok cur i p st cur' st' :
  assign_step cur (i, p) st = (Ok cur', st') ->
  is_Some (step_record (data st) i) /\ data st' = data st.
Proof.
  unfold assign_step, ensure_id, bind, gets, throw, ret.
  destruct (step_record (data st) i) as [d|]; [|done].
  destruct (truthy _); [by intros [= <- <-]|].
  destruct d; by intros [= <- <-].
Qed.

Lemma assign_loop_Ok (l : list nat) ps : forall k cur st cur' st',
  foldM assign_step cur (imap (fun j x => ((k + j)%nat, x)) ps) st = (Ok cur', st') ->
  steps (data st) = StepsArray l ->
  data st' = data st /\ forall j, (j < length ps)%nat -> (k + j < length l)%nat.
Proof.
  induction ps as [|p0 ps IH]; intros k cur st cur' st'; cbn.
  - intros [= <- <-] _. split; [done|]. lia.
  - intros (cur1 & st1 & Hstep & Hrest)%bind_Ok Hsteps.
    apply assign_step_Ok in Hstep as [[d Hd] Hdata].
    erewrite imap_ext in Hrest;
      [apply (IH (S k)) in Hrest as [Hdata' Hlt]|]; [| |intros j x _; cbn; f_equal; lia].
    2:{ by rewrite Hdata. }
    split; [congruence|]. intros [|j] Hj.
    + unfold step_record in Hd. rewrite Hsteps in Hd.
      rewrite Nat.add_0_r in *.
      destruct (l !! k) eqn:Hk; [|done]. by eapply lookup_lt_Some.
    + specialize (Hlt j). lia.
Qed.

(** The loop when a front matter block has put a text in the place of
    the array of steps: the record of a step element is a character of
    the text, which has no property and takes none. *)
Lemma assign_step_primitive cur i p st v cur' st' :
  steps (data st) = StepsScalar v ->
  assign_step cur (i, p) st = (Ok cur', st') ->
  st' = st /\ (exists text, v = SStr text /\ (i < units text)%nat) /\
  cur' = update_at
           (fun n => set_attributes
                       ((fun a => setAttribute a "id" "undefined") (attributes n)) n)
           p cur.
Proof.
  intros Hsteps. unfold assign_step, ensure_id, bind, gets, throw, ret, step_record.
  rewrite Hsteps. destruct v as [| | |text]; try done.
  destruct (i <? units text)%nat eqn:E; [|done]. cbn.
  intros [= <- <-]. split; [done|].
  split; [exists text; split; [done|by apply Nat.ltb_lt]|done].
Qed.

Lemma assign_loop_scalar v ps : forall k cur st cur' st',
  steps (data st) = StepsScalar v -> NoDup ps ->
  (forall p, p ∈ ps -> is_Some (attrs_at cur p)) ->
  foldM assign_step cur (imap (fun j x => ((k + j)%nat, x)) ps) st = (Ok cur', st') ->
  st' = st /\
  (forall q, q ∉ ps -> attrs_at cur' q = attrs_at cur q) /\
  (forall q, tag_at cur' q = tag_at cur q) /\
  descendants cur' = descendants cur /\
  (forall j p, ps !! j = Some p ->
     (exists text, v = SStr text /\ (k + j < units text)%nat) /\
     exists a, attrs_at cur' p = Some a /\ getAttribute a "id" = Some "undefined").
Proof.
  induction ps as [|p0 ps IH]; intros k cur st cur' st' Hsteps Hps Hel; cbn.
  - intros [= <- <-]. repeat split; try done.
    all: intros j p Hj; by rewrite lookup_nil in Hj.
  - intros (cur1 & st1 & Hstep & Hrest)%bind_Ok.
    rewrite Nat.add_0_r in Hstep.
    apply (assign_step_primitive _ _ _ _ v) in Hstep as (-> & Htext & ->); [|done].
    apply NoDup_cons in Hps as [Hp0 Hps].
    rewrite (imap_ext _ (fun j x => ((S k + j)%nat, x))) in Hrest
      by (intros j x _; cbn; f_equal; lia).
    set (g := fun a : attrs => setAttribute a "id" "undefined") in *.
    set (cur1 := update_at (fun n => set_attributes (g (attributes n)) n) p0 cur) in *.
    assert (Hel1 : forall p, p ∈ ps -> is_Some (attrs_at cur1 p)).
    { intros p Hp. unfold cur1. rewrite attrs_at_update_with, decide_False.
      - apply Hel. by right.
      - by intros ->. }
    destruct (IH (S k) cur1 st cur' st' Hsteps Hps Hel1 Hrest)
      as (Est & Hattrs & Htags & Hdesc & Hres).
    split; [exact Est|]. split; [|split; [|split]].
    + intros q Hq. apply not_elem_of_cons in Hq as [Hq0 Hq].
      rewrite (Hattrs q Hq). unfold cur1. by rewrite attrs_at_update_with, decide_False.
    + intros q. rewrite Htags. apply tag_at_update_with.
    + rewrite Hdesc. apply descendants_update_with.
    + intros [|j] p Hj.
      * cbn in Hj. injection Hj as <-. rewrite Nat.add_0_r. split; [done|].
        rewrite (Hattrs p0 Hp0). unfold cur1.
        rewrite attrs_at_update_with, decide_True by done.
        destruct (Hel p0) as [a0 Ha0]; [by left|]. rewrite Ha0. cbn.
        eexists. split; [done|]. unfold g. rewrite getAttribute_setAttribute.
        by rewrite String.eqb_refl.
      * cbn in Hj. rewrite Nat.add_succ_r. by apply Hres.
Qed.

End Pipeline.

(** *** The [parent] attribute does not reach the output *)

Section ParentTheorem.
Import JS Data Dom Renderer Full.





End ParentTheorem.

(** *** Step elements and step records *)

Section StepTheorem.
Import JS Data Dom Renderer Full.

(** Each call of [renderer.hr] adds one step record and returns text with
    one opening tag of a step. *)
Lemma hr_adds_one_step st l :
  steps (data st) = StepsArray l ->
  exists st',
    hr st = (Ok (match currentStep st with
                 | Some _ => "</x-step><x-step>"
                 | None => "<x-step>"
                 end), st') /\
    steps (data st') = StepsArray (l ++ [length (objects st)]) /\
    objects st' = objects st ++ [[]] /\
    currentStep st' = Some (length (objects st)).
Proof.
  intros Hsteps. unfold hr, bind, gets, modify, ret. cbn. rewrite Hsteps. cbn.
  eexists. split; [reflexivity|]. done.
Qed.

(** The loop over the step elements, when there is a record for each. *)
Lemma assign_steps_gives_ids (body : node) (st : state) (l : list nat) :
  steps (data st) = StepsArray l ->
  NoDup l ->
  (forall r, r ∈ l -> (r < length (objects st))%nat) ->
  (length (querySelectorAll (ByTag "x-step") body) <= length l)%nat ->
  exists body' st',
    assign_steps body st = (Ok body', st') /\
    data st' = data st /\
    querySelectorAll (ByTag "x-step") body' = querySelectorAll (ByTag "x-step") body /\
    forall i p r o,
      querySelectorAll (ByTag "x-step") body !! i = Some p ->
      l !! i = Some r ->
      objects st !! r = Some o ->
      (exists o', objects st' !! r = Some o' /\ get o' "id" = final_id i o) /\
      (exists a, attrs_at body' p = Some a /\
                 getAttribute a "id" = Some (to_string (final_id i o))).
Proof.
  intros Hsteps Hnd Hvalid Hlen.
  destruct (assign_loop l (querySelectorAll (ByTag "x-step") body) 0 body st)
    as (body' & st' & Hloop & Hdata & _ & Htags & Hdesc & _ & Hres);
    [done|done|apply NoDup_querySelectorAll| |].
  - intros j p Hj. split.
    + apply list_elem_of_lookup_2, elem_of_querySelectorAll in Hj as [_ Hsel].
      unfold selected in Hsel. unfold attrs_at.
      destruct (node_at body p) as [[t a cs|s|s]|]; [by eexists|done..].
    + destruct (lookup_lt_is_Some_2 l j) as [r Hr].
      { apply lookup_lt_Some in Hj. lia. }
      exists r. split; [done|]. apply lookup_lt_is_Some_2, Hvalid.
      by eapply list_elem_of_lookup_2.
  - exists body', st'. split; [exact Hloop|]. split; [done|]. split.
    + by apply querySelectorAll_tag_ext.
    + intros i p r o Hp Hr Ho. by apply (Hres i p r o).
Qed.

Lemma assign_steps_data body st body' st' :
  assign_steps body st = (Ok body', st') -> data st' = data st.
Proof.
  unfold assign_steps. generalize (indexed (querySelectorAll (ByTag "x-step") body)).
  intros ips. revert body st.
  induction ips as [|[i p] ips IH]; intros body st; cbn.
  - by intros [= <- <-].
  - intros (cur1 & st1 & Hstep & Hrest)%bind_Ok.
    apply assign_step_Ok in Hstep as [_ Hd]. rewrite <- Hd. by eapply IH.
Qed.

Lemma truthy_final_id i o : truthy (final_id i o) = true.
Proof.
  unfold final_id. destruct (truthy (get o "id")) eqn:E; [done|]. reflexivity.
Qed.

(** C3, as the code has it.  While [data.steps] is the array that
    [parseFull] created, a call of [renderer.hr] adds one step record and
    returns text with one opening tag of a step; once a front matter block
    has put a scalar in its place, the call throws a [TypeError].  When
    the tree has no more step elements than there are step records, the
    loop over the step elements returns; it leaves the list of the step
    elements as it was, and for each index [i] the record [i] ends with
    the id of its front matter if that id is truthy and with [step-<i>]
    otherwise, and the [i]-th step element has the text of that id as its
    [id] attribute.  So whenever [parseFull] returns with the array of
    steps in [data.steps], the tree its HTML is taken from has no more
    step elements than there are records, and each step element has the
    text of the truthy id of the record of its index as its [id]
    attribute.  And whenever it returns with a scalar in [data.steps], the
    scalar is a text with a character for each step element, and every
    step element has the [id] attribute [undefined]. *)
Theorem step_ids_follow_records (L : libraries) :
  (forall st : state,
     match steps (data st) with
     | StepsArray l =>
         exists tag st',
           hr st = (Ok tag, st') /\
           (tag = "<x-step>" \/ tag = "</x-step><x-step>") /\
           steps (data st') = StepsArray (l ++ [length (objects st)]) /\
           objects st' = objects st ++ [[]]
     | StepsScalar _ => fst (hr st) = Throw TypeError
     end) /\
  (forall (body : node) (st : state) (l : list nat),
     steps (data st) = StepsArray l ->
     NoDup l ->
     (forall r, r ∈ l -> (r < length (objects st))%nat) ->
     (length (querySelectorAll (ByTag "x-step") body) <= length l)%nat ->
     exists body' st',
       assign_steps body st = (Ok body', st') /\
       data st' = data st /\
       querySelectorAll (ByTag "x-step") body'
         = querySelectorAll (ByTag "x-step") body /\
       forall i p r o,
         querySelectorAll (ByTag "x-step") body !! i = Some p ->
         l !! i = Some r ->
         objects st !! r = Some o ->
         (exists o', objects st' !! r = Some o' /\ get o' "id" = final_id i o) /\
         (exists a, attrs_at body' p = Some a /\
                    getAttribute a "id" = Some (to_string (final_id i o)))) /\
  (forall id content path s out s' records,
     parseFull L id content path s = (Ok out, s') ->
     out_data_steps out = inr records ->
     exists final,
       html out = minify L (serialize L (childNodes final)) /\
       out_steps out = step_htmls L final /\
       (length (querySelectorAll (ByTag "x-step") final) <= length records)%nat /\
       forall i p,
         querySelectorAll (ByTag "x-step") final !! i = Some p ->
         exists o a,
           records !! i = Some o /\ truthy (get o "id") = true /\
           attrs_at final p = Some a /\
           getAttribute a "id" = Some (to_string (get o "id"))) /\
  (forall id content path s out s' v,
     parseFull L id content path s = (Ok out, s') ->
     out_data_steps out = inl v ->
     exists final,
       html out = minify L (serialize L (childNodes final)) /\
       out_steps out = step_htmls L final /\
       forall i p,
         querySelectorAll (ByTag "x-step") final !! i = Some p ->
         (exists text, v = SStr text /\ (i < units text)%nat) /\
         exists a,
           attrs_at final p = Some a /\ getAttribute a "id" = Some "undefined").
Proof.
  split; [|split; [apply assign_steps_gives_ids|split]].
  { intros st. destruct (steps (data st)) as [l|v] eqn:Hsteps.
    - destruct (hr_adds_one_step st l Hsteps) as (st' & Hhr & Hl & Hobjs & _).
      eexists _, st'. split; [exact Hhr|]. split; [|by split].
      destruct (currentStep st); [by right|by left].
    - unfold hr, bind, gets, modify, throw. cbn. by rewrite Hsteps. }
  { intros id content path s out s' records
      (b & s1 & b' & Htree & Hloop & Hfin)%parseFull_stages Hrecs.
    unfold finish, bind, gets, ret in Hfin. injection Hfin as <-.
    cbn in Hrecs. unfold resolve in Hrecs.
    destruct (steps (data s')) as [l|v] eqn:Hsteps'; [|done]. injection Hrecs as <-.
    pose proof Hloop as Hloop'. unfold assign_steps, indexed in Hloop'.
    assert (steps (data s1) = StepsArray l) as Hsteps.
    { by rewrite <- (assign_steps_data _ _ _ _ Hloop). }
    destruct (assign_loop_Ok l _ 0 _ _ _ _ Hloop' Hsteps) as [Hdata Hlt].
    pose proof (tree_steps_fresh _ _ _ _ _ _ _ Htree) as Hfresh.
    unfold steps_fresh in Hfresh. rewrite Hsteps in Hfresh.
    assert (length (querySelectorAll (ByTag "x-step") b) <= length l)%nat as Hlen.
    { destruct (length (querySelectorAll (ByTag "x-step") b)) as [|n] eqn:En; [lia|].
      specialize (Hlt n). lia. }
    destruct (assign_steps_gives_ids b s1 l Hsteps) as (b'' & s'' & Hloop2 & _ & Hq & Hids).
    { rewrite Hfresh. apply NoDup_seq. }
    { intros r. rewrite Hfresh, elem_of_seq. lia. }
    { done. }
    rewrite Hloop in Hloop2. injection Hloop2 as <- <-.
    exists b'. split; [done|]. split; [done|]. split.
    { by rewrite Hq, length_fmap. }
    intros i p Hp. rewrite Hq in Hp.
    destruct (lookup_lt_is_Some_2 l i) as [r Hr].
    { apply lookup_lt_Some in Hp. lia. }
    destruct (lookup_lt_is_Some_2 (objects s1) r) as [o0 Ho0].
    { apply list_elem_of_lookup_2 in Hr. rewrite Hfresh, elem_of_seq in Hr. lia. }
    destruct (Hids i p r o0 Hp Hr Ho0) as [(o' & Ho' & Hid) (a & Ha & Hattr)].
    exists o', a. split; [|split; [|split]].
    - rewrite list_lookup_fmap, Hr. cbn. unfold obj in *. by rewrite Ho'.
    - rewrite Hid. apply truthy_final_id.
    - done.
    - by rewrite Hid. }
  intros id content path s out s' v
    (b & s1 & b' & Htree & Hloop & Hfin)%parseFull_stages Hrecs.
  unfold finish, bind, gets, ret in Hfin. injection Hfin as <-.
  cbn in Hrecs. unfold resolve in Hrecs.
  destruct (steps (data s')) as [l|v'] eqn:Hsteps'; [done|]. injection Hrecs as ->.
  assert (steps (data s1) = StepsScalar v) as Hsteps.
  { by rewrite <- (assign_steps_data _ _ _ _ Hloop). }
  unfold assign_steps, indexed in Hloop.
  assert (Hel : forall p, p ∈ querySelectorAll (ByTag "x-step") b ->
                          is_Some (attrs_at b p)).
  { intros p [_ Hsel]%elem_of_querySelectorAll.
    unfold selected in Hsel. unfold attrs_at.
    destruct (node_at b p) as [[t a cs|x|x]|]; [by eexists|done..]. }
  destruct (assign_loop_scalar v (querySelectorAll (ByTag "x-step") b) 0 b s1 b' s'
              Hsteps (NoDup_querySelectorAll (ByTag "x-step") b) Hel Hloop)
    as (_ & _ & Htags & Hdesc & Hres).
  exists b'. split; [done|]. split; [done|].
  intros i p Hp.
  rewrite (querySelectorAll_tag_ext "x-step" b b' Hdesc Htags) in Hp.
  exact (Hres i p Hp).
Qed.

Lemma step_ids_follow_records_witness :
  (exists body' st',
     assign_steps Examples.body_with_steps Examples.state_with_steps = (Ok body', st') /\
     attrs_at body' [0%nat] = Some [("id", "step-0")] /\
     attrs_at body' [1%nat] = Some [("id", "intro")]) /\
  match parseFull Examples.libs "doc" Examples.steps_in_front_matter "dir" initial with
  | (Ok out, _) =>
      out_data_steps out = inl (SStr "ab") /\
      exists final,
        out_steps out = step_htmls Examples.libs final /\
        forall i p,
          querySelectorAll (ByTag "x-step") final !! i = Some p ->
          exists a, attrs_at final p = Some a /\ getAttribute a "id" = Some "undefined"
  | (Throw _, _) => False
  end.
Proof.
  split.
  - destruct (proj1 (proj2 (step_ids_follow_records Examples.libs)) Examples.body_with_steps
                Examples.state_with_steps [0; 1]%nat)
      as (body' & st' & Hloop & _); [reflexivity| | |vm_compute; lia|].
    + apply NoDup_cons_2; [by intros ?%list_elem_of_singleton|apply NoDup_singleton].
    + intros r. rewrite !elem_of_cons, elem_of_nil. cbn. lia.
    + exists body', st'. split; [exact Hloop|].
      vm_compute in Hloop. injection Hloop as <- _. by split.
  - destruct (parseFull Examples.libs "doc" Examples.steps_in_front_matter "dir" initial)
      as [[out|e] s'] eqn:E; [|vm_compute in E; discriminate E].
    assert (Hsteps : out_data_steps out = inl (SStr "ab")).
    { pose proof E as E'. vm_compute in E'. by injection E' as <- _. }
    split; [exact Hsteps|].
    destruct (proj2 (proj2 (proj2 (step_ids_follow_records Examples.libs)))
                _ _ _ _ _ _ _ E Hsteps) as (final & _ & Hout & Hids).
    exists final. split; [exact Hout|]. intros i p Hp.
    by destruct (Hids i p Hp) as [_ Ha].
Defined.

(** C3 as stated fails, three times.  A rule inside a block quote adds a
    step record, and the text it returns, with the opening tag of the
    step, is dropped by the block quote: the document has one step
    record, which never receives an id, and no step element.  An id that
    the front matter sets to 0 is replaced by the default id.  And a front
    matter block with the key [steps] puts its value in the place of the
    array: the document has a step element, written in HTML, whose id is
    the text [undefined], and no step record. *)
Lemma step_inside_quote_has_no_element :
  fst (parseFull Examples.libs "doc" "> ***" "dir" initial)
  = Ok (Output EmptyString [] [] []
          (inr [[("0", SStr "<"); ("1", SStr "x"); ("2", SStr "-");
                 ("3", SStr "s"); ("4", SStr "t"); ("5", SStr "e");
                 ("6", SStr "p"); ("7", SStr ">")]])
          []) /\
  (let r := assign_steps Examples.body_with_one_step Examples.state_with_id_zero in
   fst r = Ok (Element "body" [] [Element "x-step" [("id", "step-0")] []]) /\
   objects (snd r) = [[("id", SStr "step-0")]]) /\
  (let step := "<x-step id=" +:+ Q "undefined" +:+ ">" +:+ nl +:+ nl
                 +:+ "<p>text</p></x-step>" in
   fst (parseFull Examples.libs "doc" Examples.steps_in_front_matter "dir" initial)
   = Ok (Output step [] [] [] (inl (SStr "ab")) [("undefined", step)])).
Proof. split; [reflexivity|]. split; [split; reflexivity|reflexivity]. Qed.

End StepTheorem.


(** ** Headings *)

Section Headings.
Import JS Data Dom Renderer Full.

(** The pipeline on a document that renders to no element at all. *)
Lemma parseFull_empty_tree (L : libraries) id content path s parsed_state lexed :
  Blocks.blockIndentation (pug_render L) (Preprocess.preprocess id content) = Ok lexed ->
  render_all L (lexer_lex L lexed) (reset path s) = (Ok EmptyString, parsed_state) ->
  JSDom L "</x-step>" = Element "body" [] [] ->
  parseFull L id content path s
  = (Ok (Output (minify L (serialize L [])) (bios parsed_state) (gloss parsed_state)
                (props (data parsed_state))
                (resolve (objects parsed_state) (steps (data parsed_state))) []),
     parsed_state).
Proof.
  intros Hblocks Hrender Hdom. unfold parseFull.
  unfold bind at 1, modify. cbv zeta.
  unfold bind at 1, lift. rewrite Hblocks.
  unfold bind at 1. rewrite Hrender.
  change (EmptyString +:+ "</x-step>") with "</x-step>". rewrite Hdom.
  reflexivity.
Qed.

(** C6.  A heading of level 1 stores its text as the title of the
    document and returns no HTML; a heading of another level returns the
    heading element and leaves the state alone.  For the document made of
    the top-level heading [Intro] (marked calls the heading callback once,
    with that text and level 1, and the HTML parser finds no element in
    the lone closing tag of a step), [parseFull] returns the title
    [Intro], an empty sequence of step records and no step HTML. *)
Theorem top_level_heading_is_the_title
    (L : libraries) (id path text : string) (level : nat) (s : state) :
  (heading text 1 s = (Ok EmptyString, with_data (set_title text) s) /\
   get (props (data (with_data (set_title text) s))) "title" = Some (SStr text)) /\
  (level <> 1%nat ->
   heading text level s
   = (Ok ("<h" +:+ pretty level +:+ ">" +:+ text +:+ "</h" +:+ pretty level +:+ ">"), s)) /\
  (lexer_lex L "# Intro" = [CHeading [CRaw "Intro"] 1] ->
   JSDom L "</x-step>" = Element "body" [] [] ->
   exists s',
     parseFull L id "# Intro" path s
     = (Ok (Output (minify L (serialize L [])) [] [] [("title", SStr "Intro")]
                   (inr []) []), s')).
Proof.
  split; [split|split].
  - reflexivity.
  - cbn. by rewrite get_set.
  - intros Hlevel. unfold heading.
    destruct (Nat.eqb_spec level 1) as [->|_]; done.
  - intros Hlex Hdom. exists (with_data (set_title "Intro") (reset path s)).
    apply (parseFull_empty_tree L id "# Intro" path s
             (with_data (set_title "Intro") (reset path s)) "# Intro");
      [reflexivity| |done].
    rewrite Hlex. reflexivity.
Qed.

Lemma top_level_heading_is_the_title_witness :
  exists s',
    parseFull Examples.libs "doc" "# Intro" "dir" initial
    = (Ok (Output EmptyString [] [] [("title", SStr "Intro")] (inr []) []), s').
Proof.
  apply (top_level_heading_is_the_title Examples.libs "doc" "dir" "Intro" 2 initial);
    reflexivity.
Defined.

End Headings.

(** ** State that outlives a call *)

Section Reentrancy.
Import JS Data Dom Renderer Full.

(** [parseFull] reads nothing of the state it finds except the cached
    paragraph. *)
Lemma parseFull_reads_only_the_cache (L : libraries) id content path s1 s2 :
  originalP s1 = originalP s2 ->
  parseFull L id content path s1 = parseFull L id content path s2.
Proof.
  intros Hp. unfold parseFull. unfold bind at 1 3, modify.
  assert (reset path s1 = reset path s2) as -> by (unfold reset; by rewrite Hp).
  reflexivity.
Qed.

(** A paragraph leaves its text in the cache. *)
Lemma paragraph_caches (L : libraries) text s :
  originalP (snd (paragraph L text s)) = Some text.
Proof. reflexivity. Qed.

(** C2 fails on the code: [parseFull] does not reset [originalP].  For
    the document made of an empty block quote (marked calls the block quote
    callback with no text, and the YAML parser is asked for the cached
    paragraph if there is one), the call made on a fresh module returns no
    metadata, and the same call made after a document whose last paragraph
    was [title: Leaked] returns that title. *)
Theorem cached_paragraph_outlives_the_call
    (L : libraries) (id path : string) (fresh used : state) :
  originalP fresh = None ->
  originalP used = Some "title: Leaked" ->
  lexer_lex L "> " = [CBlockquote []] ->
  yaml_parse L EmptyString = Some [] ->
  yaml_parse L "title: Leaked" = Some [("title", SStr "Leaked")] ->
  JSDom L "</x-step>" = Element "body" [] [] ->
  exists s1 s2,
    parseFull L id "> " path fresh
    = (Ok (Output (minify L (serialize L [])) [] [] [] (inr []) []), s1) /\
    parseFull L id "> " path used
    = (Ok (Output (minify L (serialize L [])) [] [] [("title", SStr "Leaked")]
                  (inr []) []), s2).
Proof.
  intros Hfresh Hused Hlex Hyaml0 Hyaml1 Hdom.
  exists (reset path fresh),
         (with_data (fun d => assign_document d [("title", SStr "Leaked")])
                    (reset path used)).
  split.
  - apply (parseFull_empty_tree L id "> " path fresh (reset path fresh) "> ");
      [reflexivity| |done].
    rewrite Hlex. cbn. unfold bind, ret, blockquote, bind, gets, lift, modify.
    cbn. rewrite Hfresh. cbn. rewrite Hyaml0. reflexivity.
  - apply (parseFull_empty_tree L id "> " path used
             (with_data (fun d => assign_document d [("title", SStr "Leaked")])
                        (reset path used)) "> ");
      [reflexivity| |done].
    rewrite Hlex. cbn. unfold bind, ret, blockquote, bind, gets, lift, modify.
    cbn. rewrite Hused. cbn. rewrite Hyaml1. reflexivity.
Qed.

Lemma cached_paragraph_outlives_the_call_witness :
  exists s1 s2,
    parseFull Examples.libs "b" "> " "dir" initial
    = (Ok (Output EmptyString [] [] [] (inr []) []), s1) /\
    parseFull Examples.libs "b" "> " "dir"
      (snd (parseFull Examples.libs "a" "title: Leaked" "dir" initial))
    = (Ok (Output EmptyString [] [] [("title", SStr "Leaked")] (inr []) []), s2).
Proof.
  apply (cached_paragraph_outlives_the_call Examples.libs "b" "dir" initial
           (snd (parseFull Examples.libs "a" "title: Leaked" "dir" initial)));
    reflexivity.
Defined.

End Reentrancy.


(** * Further properties of the functions *)

(** ** Block structure parser: lines, nesting and tabs *)

Section BlockLines.
Import JS Blocks.

Lemma join_cons_head a l :
  l <> [] -> join nl (cons_head a l) = String a (join nl l).
Proof. destruct l as [|h [|h' t]]; done. Qed.

(** Splitting a text at the line feeds and joining the lines gives the
    text back. *)
Lemma join_split s : join nl (split nl s) = s.
Proof.
  unfold split. induction s as [|a s IH]; [done|].
  cbn [split_from startsWith nl]. rewrite Ascii.eqb_sym.
  destruct (Ascii.eqb_spec a "010"%char) as [->|Hne].
  - change (String.length nl - 1)%nat with 0%nat.
    pose proof (split_nonempty nl 0 s) as Hs.
    destruct (split_from nl 0 s) as [|h t] eqn:E; [done|].
    change (join nl (EmptyString :: h :: t)) with (nl +:+ join nl (h :: t)).
    by rewrite IH.
  - rewrite join_cons_head by apply split_nonempty. by rewrite IH.
Qed.

Lemma blockLines_app pug a : forall st b,
  blockLines pug st (a ++ b) =
    let! (a', st1) := blockLines pug st a in
    let! (b', st2) := blockLines pug st1 b in
    Ok (a' ++ b', st2).
Proof.
  induction a as [|l a IH]; intros st b; simpl.
  - by destruct (blockLines pug st b) as [[b' st2]|e].
  - destruct (blockLine pug st l) as [[l' st']|e]; simpl; [|done].
    rewrite IH. destruct (blockLines pug st' a) as [[a' st1]|e]; simpl; [|done].
    by destruct (blockLines pug st1 b) as [[b' st2]|e].
Qed.

(** X1.  A source without marker lines is returned as it is, and Pug is not
    consulted: the statement holds for every Pug. *)
Theorem source_without_markers_is_unchanged
    (pug : option string -> string -> option string) (source : string) :
  Forall (fun l => is_marker l = false) (split nl source) ->
  blockIndentation pug source = Ok source.
Proof.
  intros H. unfold blockIndentation.
  rewrite <- (app_nil_r (split nl source)).
  rewrite (blockLines_plain pug _ _ _ H). simpl.
  by rewrite app_nil_r, join_split.
Qed.

Lemma source_without_markers_is_unchanged_witness :
  blockIndentation Examples.pug_rejects ("# Title" +:+ nl +:+ nl +:+ "A :: B")
  = Ok ("# Title" +:+ nl +:+ nl +:+ "A :: B").
Proof.
  apply (source_without_markers_is_unchanged Examples.pug_rejects).
  repeat constructor.
Defined.



Lemma blockLine_generic pug st tag html :
  tag <> EmptyString ->
  startsWith tag "column" = false -> startsWith tag "tab" = false ->
  pug None tag = Some html ->
  blockLine pug st ("::: " +:+ tag)
  = Ok (str_of (split "</" html !! 0%nat) +:+ nl,
        Stacks (("</" +:+ str_of (split "</" html !! 1%nat)) :: closeTags st)
               (EmptyString :: nested st)).
Proof.
  intros Hne Hcol Htab Hp. unfold blockLine.
  change (startsWith ("::: " +:+ tag) ":::") with true.
  change (slice 4 ("::: " +:+ tag)) with tag. cbv [negb].
  destruct tag as [|a tag]; [done|].
  rewrite Hcol, Htab. unfold render. rewrite Hp. reflexivity.
Qed.

(** X3.  A block opened with a specifier that is neither a column nor a tab.
    The open marker becomes the text that Pug renders up to the first
    [</]; the close marker becomes [</] and the text up to the next [</],
    so of a template with nested elements only the innermost one is
    closed, and for a template without an end tag the text [undefined] is
    written.  The lines in between are processed with the block on both
    stacks, and the stacks are afterwards what they were: blocks nest. *)
Theorem generic_block_closes_with_first_end_tag
    (pug : option string -> string -> option string)
    (st : stacks) (tag html o : string) (more inner inner' : list string) :
  tag <> EmptyString ->
  startsWith tag "column" = false -> startsWith tag "tab" = false ->
  pug None tag = Some html ->
  split "</" html = o :: more ->
  blockLines pug
    (Stacks (("</" +:+ str_of (head more)) :: closeTags st) (EmptyString :: nested st))
    inner
  = Ok (inner',
        Stacks (("</" +:+ str_of (head more)) :: closeTags st)
               (EmptyString :: nested st)) ->
  blockLines pug st (("::: " +:+ tag) :: inner ++ [":::"])
  = Ok ((o +:+ nl) :: inner' ++ [nl +:+ ("</" +:+ str_of (head more)) +:+ nl], st).
Proof.
  intros Hne Hcol Htab Hp Hsplit Hinner.
  cbn [blockLines]. rewrite (blockLine_generic pug _ _ _ Hne Hcol Htab Hp).
  rewrite Hsplit.
  change ((o :: more) !! 0%nat) with (Some o).
  change ((o :: more) !! 1%nat) with (more !! 0%nat).
  assert (more !! 0%nat = head more) as -> by (by destruct more).
  cbn [rbind str_of].
  rewrite blockLines_app, Hinner. cbn [rbind blockLines].
  rewrite (blockLine_close pug _ ":::" eq_refl). cbn [rbind].
  destruct st as [ct ns]. reflexivity.
Qed.

Lemma generic_block_closes_with_first_end_tag_witness :
  blockLines Examples.pug_blocks empty_stacks
    (("::: " +:+ "section: span") :: ["text"] ++ [":::"])
  = Ok (("<section><span>" +:+ nl) :: ["text"]
          ++ [nl +:+ ("</" +:+ str_of (head ["span>"; "section>"])) +:+ nl],
        empty_stacks).
Proof.
  apply (generic_block_closes_with_first_end_tag Examples.pug_blocks empty_stacks
           "section: span" "<section><span></span></section>" "<section><span>"
           ["span>"; "section>"] ["text"] ["text"]);
    try reflexivity. discriminate.
Defined.

Lemma blockLine_tab pug st rest html :
  pug None (".tab" +:+ rest) = Some html ->
  blockLine pug st ("::: tab" +:+ rest) =
    if last_is "tab" st then Ok (nl +:+ "</div>" +:+ open_part html +:+ nl, st)
    else Ok ("<x-tabbox>" +:+ open_part html +:+ nl,
             Stacks ("</div></x-tabbox>" :: closeTags st) ("tab" :: nested st)).
Proof.
  intros Hp. unfold blockLine.
  change (startsWith ("::: tab" +:+ rest) ":::") with true.
  change (slice 4 ("::: tab" +:+ rest)) with ("tab" +:+ rest). cbv [negb].
  change ("tab" +:+ rest) with (String "t" ("ab" +:+ rest)).
  change (startsWith (String "t" ("ab" +:+ rest)) "column") with false.
  change (startsWith (String "t" ("ab" +:+ rest)) "tab") with true.
  change (replace "tab" ".tab" (String "t" ("ab" +:+ rest))) with (".tab" +:+ rest).
  cbv iota. unfold render. rewrite Hp. reflexivity.
Qed.

(** X4.  Tabs.  A specifier that starts with [tab] (so also [table]) gives
    Pug the specifier with a dot in front.  The first tab marker opens the
    tab box and its first tab; a tab marker that finds a tab innermost
    closes that tab and opens the next one in the same box; the close
    marker closes the last tab and the box, and the stacks are what they
    were. *)
Theorem tabs_share_one_box
    (pug : option string -> string -> option string)
    (st : stacks) (rest1 rest2 html1 html2 : string) (body1 body2 : list string) :
  last_is "tab" st = false ->
  pug None (".tab" +:+ rest1) = Some html1 ->
  pug None (".tab" +:+ rest2) = Some html2 ->
  Forall (fun l => is_marker l = false) body1 ->
  Forall (fun l => is_marker l = false) body2 ->
  blockLines pug st
    (("::: tab" +:+ rest1) :: body1 ++ ("::: tab" +:+ rest2) :: body2 ++ [":::"])
  = Ok (("<x-tabbox>" +:+ open_part html1 +:+ nl) :: body1
          ++ (nl +:+ "</div>" +:+ open_part html2 +:+ nl) :: body2
          ++ [nl +:+ "</div></x-tabbox>" +:+ nl],
        st).
Proof.
  intros Hst Hp1 Hp2 Hb1 Hb2.
  cbn [blockLines]. rewrite (blockLine_tab pug _ _ _ Hp1), Hst. cbn [rbind].
  rewrite (blockLines_plain pug _ _ _ Hb1). cbn [blockLines].
  rewrite (blockLine_tab pug _ _ _ Hp2).
  change (last_is "tab" (Stacks _ ("tab" :: nested st))) with true.
  cbv iota. cbn [rbind].
  rewrite (blockLines_plain pug _ _ _ Hb2). cbn [blockLines].
  rewrite (blockLine_close pug _ ":::" eq_refl). cbn [rbind].
  destruct st as [ct ns]. reflexivity.
Qed.

Lemma tabs_share_one_box_witness :
  blockLines Examples.pug_blocks empty_stacks
    (("::: tab" +:+ "") :: ["one"] ++ ("::: tab" +:+ "") :: ["two"] ++ [":::"])
  = Ok (("<x-tabbox>" +:+ open_part ("<div class=" +:+ Q "tab" +:+ "></div>") +:+ nl)
          :: ["one"]
          ++ (nl +:+ "</div>" +:+ open_part ("<div class=" +:+ Q "tab" +:+ "></div>") +:+ nl)
          :: ["two"]
          ++ [nl +:+ "</div></x-tabbox>" +:+ nl],
        empty_stacks).
Proof.
  apply (tabs_share_one_box Examples.pug_blocks empty_stacks "" ""
           ("<div class=" +:+ Q "tab" +:+ "></div>")
           ("<div class=" +:+ Q "tab" +:+ "></div>") ["one"] ["two"]);
    try reflexivity; repeat constructor.
Defined.

End BlockLines.

(** *** The width of a column *)

Section Width.
Import JS Blocks.

Lemma replace_first_prefix re rep pre t : forall before,
  unmatched_before re pre t = true ->
  replace_first_from re rep before (pre +:+ t)
  = pre +:+ replace_first_from re rep (before +:+ pre) t.
Proof.
  induction pre as [|a pre IH]; intros before.
  - intros _. by rewrite sapp_nil_r.
  - rewrite !sapp_cons. cbn [unmatched_before replace_first_from].
    rewrite !sapp_cons.
    destruct (re (String a (pre +:+ t))) as [[g n]|]; [done|].
    intros H. rewrite (IH _ H). by rewrite sapp_snoc.
Qed.

Lemma replace_first_here re rep before t groups len :
  re t = Some (groups, len) ->
  replace_first_from re rep before t
  = rep (bytes_to len t) groups before (bytes_from len t) +:+ bytes_from len t.
Proof. intros H. destruct t; cbn [replace_first_from]; by rewrite H. Qed.

Lemma span_every p ds r :
  every p ds = true ->
  match r with EmptyString => True | String a _ => p a = false end ->
  span p (ds +:+ r) = (ds, r).
Proof.
  intros Hds Hr. induction ds as [|a ds IH].
  - rewrite sapp_nil_l. destruct r as [|b r]; [done|]. cbn. by rewrite Hr.
  - rewrite sapp_cons. cbn in *. apply andb_prop in Hds as [-> Hds].
    by rewrite (IH Hds).
Qed.

Lemma width_re_match ds post :
  ds <> EmptyString -> every is_digit ds = true ->
  width_re ("width=" +:+ Q ds +:+ post)
  = Some ([ds], String.length ("width=" +:+ Q ds)).
Proof.
  intros Hne Hds. unfold width_re, Q.
  rewrite !sapp_assoc.
  change ("width=" +:+ dq +:+ ds +:+ dq +:+ post)
    with (("width=" +:+ dq) +:+ (ds +:+ dq +:+ post)).
  rewrite startsWith_app.
  change 7%nat with (String.length ("width=" +:+ dq)) at 1.
  rewrite bytes_from_app.
  rewrite (span_every is_digit ds (dq +:+ post) Hds) by reflexivity.
  destruct ds as [|d ds]; [done|].
  rewrite startsWith_app. do 3 f_equal.
  rewrite <- !sapp_assoc. rewrite !slength_app. cbn. lia.
Qed.

(** X5.  The width of a column.  The leftmost attribute [width] whose value
    is a number is replaced by a [style] attribute that gives the width
    in pixels; the text before it and the text after it, a further
    [width] attribute included, stay as they are. *)
Theorem width_becomes_a_style (pre ds post : string) :
  ds <> EmptyString -> every is_digit ds = true ->
  unmatched_before width_re pre ("width=" +:+ Q ds +:+ post) = true ->
  rewrite_width (pre +:+ "width=" +:+ Q ds +:+ post)
  = pre +:+ "style=" +:+ Q ("width: " +:+ ds +:+ "px") +:+ post.
Proof.
  intros Hne Hds Hpre. unfold rewrite_width, replace_first.
  rewrite (replace_first_prefix _ _ _ _ _ Hpre).
  rewrite (replace_first_here _ _ _ _ _ _ (width_re_match ds post Hne Hds)).
  rewrite <- (sapp_assoc "width=" (Q ds) post).
  rewrite bytes_from_app, bytes_to_app. f_equal.
  assert (forall m b a,
            expand ("style=" +:+ Q "width: $1px") m [ds] b a
            = "style=" +:+ Q ("width: " +:+ ds +:+ "px")) as ->.
  { intros m b a. unfold Q. rewrite !sapp_assoc. reflexivity. }
  by rewrite !sapp_assoc.
Qed.

Lemma width_becomes_a_style_witness :
  rewrite_width ("<div " +:+ "width=" +:+ Q "200" +:+ (" width=" +:+ Q "300" +:+ ">"))
  = "<div " +:+ "style=" +:+ Q ("width: " +:+ "200" +:+ "px")
      +:+ (" width=" +:+ Q "300" +:+ ">").
Proof.
  apply (width_becomes_a_style "<div " "200" (" width=" +:+ Q "300" +:+ ">"));
    [discriminate|reflexivity|reflexivity].
Defined.

End Width.

(** ** Text preprocessor: relative image addresses *)

Section Images.
Import JS Preprocess.

Lemma contains_id_images id :
  contains "$"%char id = false -> contains "$"%char (id +:+ "/images/") = false.
Proof. intros H. by rewrite contains_app, H. Qed.

Lemma image_template id m g b a :
  contains "$"%char id = false ->
  expand ("$1/resources/" +:+ id +:+ "/images/") m g b a
  = match g with
    | o :: _ => o +:+ "/resources/" +:+ id +:+ "/images/"
    | [] => "$1/resources/" +:+ id +:+ "/images/"
    end.
Proof.
  intros Hid. destruct g as [|o g].
  - change (expand ("$1/resources/" +:+ id +:+ "/images/") m [] b a)
      with ("$1/resources/" +:+ expand (id +:+ "/images/") m [] b a).
    by rewrite expand_plain by by apply contains_id_images.
  - change (expand ("$1/resources/" +:+ id +:+ "/images/") m (o :: g) b a)
      with (o +:+ "/resources/" +:+ expand (id +:+ "/images/") m (o :: g) b a).
    by rewrite expand_plain by by apply contains_id_images.
Qed.

Lemma image_re_match o post :
  o ∈ image_openings ->
  image_re (o +:+ "images/" +:+ post) = Some ([o], String.length (o +:+ "images/")).
Proof.
  unfold image_openings. rewrite !elem_of_cons, elem_of_nil.
  intros [->|[->|[->|[->|[]]]]]; reflexivity.
Qed.

(** X6.  Relative image addresses.  The leftmost occurrence of [images/]
    right after [url(], or after [src=], [href=] or [background=] and a
    double quote, receives the prefix [/resources/<id>/], and the
    rewriting goes on after it.  The identifier is part of the
    replacement pattern, so this holds for an identifier without a dollar
    sign. *)
Theorem image_addresses_get_the_resource_prefix (id o pre post : string) :
  contains "$"%char id = false ->
  o ∈ image_openings ->
  unmatched_before image_re pre (o +:+ "images/" +:+ post) = true ->
  rewrite_images id (pre +:+ o +:+ "images/" +:+ post)
  = pre +:+ o +:+ "/resources/" +:+ id +:+ "/images/" +:+ rewrite_images id post.
Proof.
  intros Hid Ho Hpre. unfold rewrite_images, replace_global.
  rewrite (replace_global_prefix _ _ _ _ _ Hpre).
  pose proof (image_re_match o post Ho) as Hre.
  assert (exists a m, o +:+ "images/" = String a m) as (a & m & E).
  { destruct o; [by eexists _, _|]. rewrite sapp_cons. by eexists _, _. }
  rewrite <- (sapp_assoc o "images/" post) in *. rewrite E in *.
  rewrite (replace_global_match _ _ _ _ _ _ _ Hre).
  rewrite (image_template _ _ _ _ _ Hid).
  rewrite (replace_global_before image_re _ post) with (b2 := EmptyString).
  - by rewrite !sapp_assoc.
  - intros m' g b1 b2 a'. by rewrite !image_template.
Qed.

Lemma image_addresses_get_the_resource_prefix_witness :
  rewrite_images "circles" ("<img " +:+ ("src=" +:+ dq) +:+ "images/" +:+ "a.png>")
  = "<img " +:+ ("src=" +:+ dq) +:+ "/resources/" +:+ "circles" +:+ "/images/"
      +:+ rewrite_images "circles" "a.png>".
Proof.
  apply (image_addresses_get_the_resource_prefix "circles" ("src=" +:+ dq) "<img " "a.png>").
  - reflexivity.
  - unfold image_openings. rewrite !elem_of_cons. tauto.
  - reflexivity.
Defined.

End Images.

(** ** Inline extension processor: variables *)

Section Variables.
Import JS Inline.

Lemma unmatched_without (re : matcher) c pre t :
  (forall a r, a <> c -> re (String a r) = None) ->
  contains c pre = false -> unmatched_before re pre t = true.
Proof.
  intros Hre. induction pre as [|a pre IH]; [done|]. cbn.
  intros [Ha Hpre]%orb_false_elim. rewrite sapp_cons.
  rewrite Hre; [by apply IH|]. intros ->. by rewrite Ascii.eqb_refl in Ha.
Qed.

Lemma brace_group_match body r :
  body <> EmptyString -> contains "}"%char body = false ->
  brace_group ("{" +:+ body +:+ "}" +:+ r)
  = Some (body, String.length ("{" +:+ body +:+ "}")).
Proof.
  intros Hne Hfree. unfold brace_group.
  change ("{" +:+ body +:+ "}" +:+ r) with (String "{" (body +:+ String "}" r)).
  cbn [startsWith bytes_from]. rewrite !Ascii.eqb_refl.
  rewrite (span_until _ _ _ Hfree).
  destruct body as [|b body]; [done|].
  cbn [startsWith]. rewrite !Ascii.eqb_refl.
  do 2 f_equal. rewrite !slength_app. cbn [String.length]. lia.
Qed.

Lemma bound_var_re_match e n post :
  e <> EmptyString -> contains "}"%char e = false ->
  n <> EmptyString -> contains "}"%char n = false ->
  bound_var_re ("${" +:+ e +:+ "}{" +:+ n +:+ "}" +:+ post)
  = Some ([e; n], String.length ("${" +:+ e +:+ "}{" +:+ n +:+ "}")).
Proof.
  intros He1 He2 Hn1 Hn2. unfold bound_var_re.
  change ("${" +:+ e +:+ "}{" +:+ n +:+ "}" +:+ post)
    with (String "$" ("{" +:+ e +:+ "}" +:+ ("{" +:+ n +:+ "}" +:+ post))).
  cbn [startsWith bytes_from]. rewrite Ascii.eqb_refl.
  rewrite (brace_group_match e _ He1 He2).
  cbn [Nat.add bytes_from].
  rewrite <- (sapp_assoc e "}" ("{" +:+ n +:+ "}" +:+ post)).
  rewrite <- (sapp_assoc "{" (e +:+ "}") ("{" +:+ n +:+ "}" +:+ post)).
  rewrite bytes_from_app.
  rewrite (brace_group_match n _ Hn1 Hn2).
  do 2 f_equal. rewrite !slength_app. cbn [String.length]. lia.
Qed.

Lemma var_re_match e post :
  e <> EmptyString -> contains "}"%char e = false ->
  var_re ("${" +:+ e +:+ "}" +:+ post)
  = if startsWith post "</x-var>" then None
    else Some ([e], String.length ("${" +:+ e +:+ "}")).
Proof.
  intros He1 He2. unfold var_re.
  change ("${" +:+ e +:+ "}" +:+ post) with (String "$" ("{" +:+ e +:+ "}" +:+ post)).
  cbn [startsWith bytes_from]. rewrite Ascii.eqb_refl.
  rewrite (brace_group_match e _ He1 He2).
  cbn [Nat.add bytes_from].
  rewrite <- (sapp_assoc e "}" post).
  rewrite <- (sapp_assoc "{" (e +:+ "}") post).
  rewrite bytes_from_app.
  destruct (startsWith post "</x-var>"); reflexivity.
Qed.

(** In front of the closing tag of a bound variable the expression of
    the third pass matches at no character of [u] and its closing brace. *)
Lemma var_re_bound u post :
  contains "}"%char u = false ->
  var_re (u +:+ "}</x-var>" +:+ post) = None.
Proof.
  intros Hu. destruct u as [|a u]; [done|].
  destruct (Ascii.eqb_spec a "$"%char) as [->|Ha]; [|rewrite sapp_cons; by apply var_re_at].
  destruct u as [|b u]; [done|].
  destruct (Ascii.eqb_spec b "{"%char) as [->|Hb].
  2:{ unfold var_re. rewrite !sapp_cons. cbn [startsWith bytes_from].
      rewrite Ascii.eqb_refl. unfold brace_group. by rewrite starts_with_other. }
  cbn in Hu. apply orb_false_elim in Hu as [_ Hu]. apply orb_false_elim in Hu as [_ Hu].
  destruct u as [|c u]; [reflexivity|].
  pose proof (var_re_match (String c u) ("</x-var>" +:+ post) ltac:(done) Hu) as H.
  rewrite startsWith_app in H. exact H.
Qed.

Lemma unmatched_bound u post :
  contains "}"%char u = false ->
  unmatched_before var_re (u +:+ "}") ("</x-var>" +:+ post) = true.
Proof.
  induction u as [|a u IH]; [done|]. intros Hu.
  change (unmatched_before var_re (String a u +:+ "}") ("</x-var>" +:+ post))
    with (match var_re ((String a u +:+ "}") +:+ ("</x-var>" +:+ post)) with
          | Some _ => false
          | None => unmatched_before var_re (u +:+ "}") ("</x-var>" +:+ post)
          end).
  assert (E : (String a u +:+ "}") +:+ ("</x-var>" +:+ post)
              = String a u +:+ "}</x-var>" +:+ post)
    by (by rewrite (sapp_assoc (String a u) "}" ("</x-var>" +:+ post))).
  rewrite E, (var_re_bound _ _ Hu).
  apply IH. cbn in Hu. by apply orb_false_elim in Hu as [_ ?].
Qed.

Lemma bound_template_ignores_before :
  ignores_before (expand ("<x-var bind=" +:+ Q "$2" +:+ ">${$1}</x-var>")).
Proof. intros m g b1 b2 a. destruct g as [|g1 [|g2 g]]; vm_compute; reflexivity. Qed.

Lemma var_template_ignores_before :
  ignores_before (expand ("<span class=" +:+ Q "var" +:+ ">${$1}</span>")).
Proof. intros m g b1 b2 a. destruct g as [|g1 g]; vm_compute; reflexivity. Qed.

Lemma replace_vars_bound e post :
  contains "}"%char e = false ->
  replace_vars ("${" +:+ e +:+ "}</x-var>" +:+ post)
  = "${" +:+ e +:+ "}" +:+ replace_vars ("</x-var>" +:+ post).
Proof.
  intros He. unfold replace_vars, replace_global.
  assert (E : "${" +:+ e +:+ "}</x-var>" +:+ post
              = (("${" +:+ e) +:+ "}") +:+ ("</x-var>" +:+ post))
    by (by rewrite (sapp_assoc ("${" +:+ e) "}" ("</x-var>" +:+ post))).
  rewrite E.
  rewrite (replace_global_prefix var_re _ (("${" +:+ e) +:+ "}") _ _
             (unmatched_bound ("${" +:+ e) post He)).
  rewrite (replace_global_before var_re _ _ var_template_ignores_before _ EmptyString).
  by rewrite (sapp_assoc ("${" +:+ e) "}").
Qed.

Lemma replace_vars_prefix pre t :
  contains "$"%char pre = false -> replace_vars (pre +:+ t) = pre +:+ replace_vars t.
Proof.
  intros Hpre. unfold replace_vars, replace_global.
  rewrite (replace_global_prefix var_re _ pre t EmptyString
             (unmatched_without var_re "$"%char pre t var_re_at Hpre)).
  by rewrite (replace_global_before var_re _ _ var_template_ignores_before _ EmptyString).
Qed.

Lemma replace_bound_vars_first e n pre post :
  e <> EmptyString -> contains "}"%char e = false ->
  n <> EmptyString -> contains "}"%char n = false ->
  unmatched_before bound_var_re pre ("${" +:+ e +:+ "}{" +:+ n +:+ "}" +:+ post) = true ->
  replace_bound_vars (pre +:+ "${" +:+ e +:+ "}{" +:+ n +:+ "}" +:+ post)
  = pre +:+ "<x-var bind=" +:+ Q n +:+ ">${" +:+ e +:+ "}</x-var>"
      +:+ replace_bound_vars post.
Proof.
  intros He1 He2 Hn1 Hn2 Hpre. unfold replace_bound_vars.
  assert (E : "${" +:+ e +:+ "}{" +:+ n +:+ "}" +:+ post
              = ("${" +:+ e +:+ "}{" +:+ n +:+ "}") +:+ post).
  { symmetry. rewrite (sapp_assoc "${" (e +:+ "}{" +:+ n +:+ "}") post).
    rewrite (sapp_assoc e ("}{" +:+ n +:+ "}") post).
    rewrite (sapp_assoc "}{" (n +:+ "}") post).
    by rewrite (sapp_assoc n "}" post). }
  pose proof (bound_var_re_match e n post He1 He2 Hn1 Hn2) as Hre.
  rewrite E in Hpre, Hre. rewrite E.
  etrans;
    [exact (replace_global_first _ _ pre "$" ("{" +:+ e +:+ "}{" +:+ n +:+ "}") post
              [e; n] bound_template_ignores_before Hpre Hre)|].
  f_equal.
  assert (forall m b a,
            expand ("<x-var bind=" +:+ Q "$2" +:+ ">${$1}</x-var>") m [e; n] b a
            = "<x-var bind=" +:+ dq +:+ n +:+ dq +:+ ">${" +:+ e +:+ "}</x-var>") as ->
    by (intros; vm_compute; reflexivity).
  unfold Q. by rewrite !sapp_assoc.
Qed.

(** X7.  Bound variables.  The second pass of [parseParagraph] turns the
    leftmost expression in braces after a dollar sign that is followed by
    a name in braces (both free of the closing brace, neither empty) into
    an [x-var] element that binds the name and holds the expression, and
    goes on after it.  The third pass leaves the expression in the
    element alone, so a paragraph made of one bound variable, its name
    free of the dollar sign, reaches the emoji pass as that one
    element. *)
Theorem bound_variable_becomes_x_var
    (emojify : (string -> string) -> (N -> string -> string) -> string -> string)
    (e n pre post : string) :
  e <> EmptyString -> contains "}"%char e = false ->
  n <> EmptyString -> contains "}"%char n = false ->
  (unmatched_before bound_var_re pre ("${" +:+ e +:+ "}{" +:+ n +:+ "}" +:+ post) = true ->
   replace_bound_vars (pre +:+ "${" +:+ e +:+ "}{" +:+ n +:+ "}" +:+ post)
   = pre +:+ "<x-var bind=" +:+ Q n +:+ ">${" +:+ e +:+ "}</x-var>"
       +:+ replace_bound_vars post) /\
  (contains "$"%char n = false ->
   contains "["%char e = false -> contains "["%char n = false ->
   parseParagraph emojify ("${" +:+ e +:+ "}{" +:+ n +:+ "}")
   = emojify (fun x => x) emojiImg
       ("<x-var bind=" +:+ Q n +:+ ">${" +:+ e +:+ "}</x-var>")).
Proof.
  intros He1 He2 Hn1 Hn2. split; [by apply replace_bound_vars_first|].
  intros Hn3 He3 Hn4. unfold parseParagraph. f_equal.
  assert (replace_blanks ("${" +:+ e +:+ "}{" +:+ n +:+ "}")
          = "${" +:+ e +:+ "}{" +:+ n +:+ "}") as ->.
  { apply replace_global_nowhere, (nowhere_without _ "["%char).
    - intros a r Ha. unfold blank_re. by rewrite starts_with_other.
    - rewrite !contains_app, He3, Hn4. reflexivity. }
  pose proof (replace_bound_vars_first e n EmptyString EmptyString
                He1 He2 Hn1 Hn2 eq_refl) as H1.
  rewrite !sapp_nil_l in H1.
  rewrite (sapp_nil_r "}") in H1. rewrite H1.
  change (replace_bound_vars "") with EmptyString.
  rewrite <- (sapp_assoc "<x-var bind=" (Q n)
                (">${" +:+ e +:+ "}</x-var>" +:+ "")).
  rewrite (replace_vars_prefix ("<x-var bind=" +:+ Q n)).
  2:{ unfold Q. by rewrite !contains_app, Hn3. }
  change (">${" +:+ e +:+ "}</x-var>" +:+ "")
    with (">" +:+ ("${" +:+ e +:+ "}</x-var>" +:+ "")).
  rewrite (replace_vars_prefix ">") by reflexivity.
  rewrite (replace_vars_bound e "" He2).
  change (replace_vars ("</x-var>" +:+ "")) with "</x-var>".
  rewrite (sapp_assoc "<x-var bind=" (Q n)). reflexivity.
Qed.

Lemma bound_variable_becomes_x_var_witness :
  parseParagraph (emojify Examples.libs) ("${" +:+ "2*a" +:+ "}{" +:+ "a" +:+ "}")
  = "<x-var bind=" +:+ Q "a" +:+ ">${" +:+ "2*a" +:+ "}</x-var>".
Proof.
  apply (proj2 (bound_variable_becomes_x_var (emojify Examples.libs) "2*a" "a" "" ""
                  ltac:(discriminate) eq_refl ltac:(discriminate) eq_refl));
    reflexivity.
Defined.

(** X8.  Variables.  The third pass turns the leftmost expression in braces
    after a dollar sign into a [span] of the class [var] that holds the
    expression, unless the closing tag of a bound variable follows it:
    then the expression stays as it is. *)
Theorem variable_becomes_a_span (e pre post : string) :
  e <> EmptyString -> contains "}"%char e = false ->
  (startsWith post "</x-var>" = false ->
   unmatched_before var_re pre ("${" +:+ e +:+ "}" +:+ post) = true ->
   replace_vars (pre +:+ "${" +:+ e +:+ "}" +:+ post)
   = pre +:+ "<span class=" +:+ Q "var" +:+ ">${" +:+ e +:+ "}</span>"
       +:+ replace_vars post) /\
  replace_vars ("${" +:+ e +:+ "}</x-var>" +:+ post)
  = "${" +:+ e +:+ "}" +:+ replace_vars ("</x-var>" +:+ post).
Proof.
  intros He1 He2. split; [|by apply replace_vars_bound].
  intros Hpost Hpre. unfold replace_vars.
  assert (E : "${" +:+ e +:+ "}" +:+ post = ("${" +:+ e +:+ "}") +:+ post).
  { symmetry. rewrite (sapp_assoc "${" (e +:+ "}") post).
    by rewrite (sapp_assoc e "}" post). }
  pose proof (var_re_match e post He1 He2) as Hre. rewrite Hpost in Hre.
  rewrite E in Hpre, Hre. rewrite E.
  etrans;
    [exact (replace_global_first _ _ pre "$" ("{" +:+ e +:+ "}") post [e]
              var_template_ignores_before Hpre Hre)|].
  f_equal.
  assert (forall m b a,
            expand ("<span class=" +:+ Q "var" +:+ ">${$1}</span>") m [e] b a
            = "<span class=" +:+ dq +:+ "var" +:+ dq +:+ ">${" +:+ e +:+ "}</span>") as ->
    by (intros; vm_compute; reflexivity).
  unfold Q. by rewrite !sapp_assoc.
Qed.

Lemma variable_becomes_a_span_witness :
  replace_vars ("x = " +:+ "${" +:+ "a+1" +:+ "}" +:+ ".")
  = "x = " +:+ "<span class=" +:+ Q "var" +:+ ">${" +:+ "a+1" +:+ "}</span>"
      +:+ replace_vars ".".
Proof.
  apply (proj1 (variable_becomes_a_span "a+1" "x = " "."
                  ltac:(discriminate) eq_refl)); reflexivity.
Defined.

End Variables.

(** ** The renderer: Pug blocks and front matter *)

Section Prelude.
Import JS Data Dom Renderer Full.

Variable L : libraries.

(** A Pug block that comes before the first step. *)
Lemma code_before_the_first_step c s :
  currentStep s = None ->
  code L c s = (Ok EmptyString, with_globalPug (fun g => g +:+ c +:+ nl +:+ nl) s).
Proof. intros H. unfold code, bind, gets, modify, ret. by rewrite H. Qed.

Lemma render_all_prelude cs : forall rest s,
  currentStep s = None ->
  exists s1,
    render_all L ((CCode <$> cs) ++ rest) s = render_all L rest s1 /\
    currentStep s1 = None /\ data s1 = data s /\
    currentDirectory s1 = currentDirectory s /\
    globalPug s1 = foldl (fun g x => g +:+ x +:+ nl +:+ nl) (globalPug s) cs.
Proof.
  induction cs as [|c cs IH]; intros rest s Hs.
  - by exists s.
  - destruct (IH rest (with_globalPug (fun g => g +:+ c +:+ nl +:+ nl) s) Hs)
      as (s1 & Hrest & H1 & H2 & H3 & H4).
    exists s1. split; [|done].
    cbn [fmap list_fmap app render_all]. unfold bind at 1.
    rewrite (render_unfold L (CCode c)), (code_before_the_first_step c s Hs).
    unfold bind at 1. cbn [fmap list_fmap] in Hrest. rewrite Hrest.
    by destruct (render_all L rest s1) as [[b|e] s2].
Qed.

End Prelude.

Section PugBlocks.
Import JS Data Dom Renderer Full.

(** X9.  Pug blocks.  A block of Pug code that comes before the first step
    renders nothing, and Pug is not called for it; it is kept, with two
    line feeds after it, and put in front of every block that is rendered
    once a step is open, with the file [content.pug] of the directory of
    the document as the name of the file. *)
Theorem pug_before_the_first_step_is_a_prelude
    (L : libraries) (cs : list string) (c : string) (s : state) (l : list nat) :
  currentStep s = None -> steps (data s) = StepsArray l ->
  fst (render_all L ((CCode <$> cs) ++ [CHr; CCode c]) s)
  = match pug_render L (Some (default "null" (currentDirectory s) +:+ "/content.pug"))
            (foldl (fun g x => g +:+ x +:+ nl +:+ nl) (globalPug s) cs +:+ c) with
    | Some html => Ok ("<x-step>" +:+ html)
    | None => Throw TemplateRenderError
    end.
Proof.
  intros Hs Hl.
  destruct (render_all_prelude L cs [CHr; CCode c] s Hs) as (s1 & -> & H1 & H2 & H3 & H4).
  cbn [render_all]. rewrite (render_unfold L CHr), (render_unfold L (CCode c)).
  unfold bind at 1. unfold hr, bind at 1, gets. rewrite H1.
  unfold bind, gets, modify, throw, ret, lift. cbn. rewrite H2, Hl. cbn.
  unfold code, bind, gets, lift. cbn. rewrite H3, H4.
  destruct (pug_render L _ _) as [html|]; cbn; [|done].
  by rewrite sapp_nil_r.
Qed.

Lemma pug_before_the_first_step_is_a_prelude_witness :
  fst (render_all Examples.libs ((CCode <$> ["- var a = 1"]) ++ [CHr; CCode "p= a"])
         (reset "dir" initial))
  = match pug_render Examples.libs (Some (default "null" (Some "dir") +:+ "/content.pug"))
            (foldl (fun g x => g +:+ x +:+ nl +:+ nl) EmptyString ["- var a = 1"]
               +:+ "p= a") with
    | Some html => Ok ("<x-step>" +:+ html)
    | None => Throw TemplateRenderError
    end.
Proof.
  apply (pug_before_the_first_step_is_a_prelude Examples.libs ["- var a = 1"] "p= a"
           (reset "dir" initial) []); reflexivity.
Defined.

(** X10.  Front matter.  The text that goes to the YAML parser for a block
    quote that holds a paragraph is the text of the paragraph as marked
    passed it to [renderer.paragraph], not the HTML that the paragraph was
    rendered to: neither the [p] tags nor the blanks, variables and emoji
    of [parseParagraph] reach the parser.  The properties go to the
    current step, or to the document when no step is open, and the block
    quote renders nothing. *)
Theorem front_matter_is_read_from_the_raw_paragraph
    (L : libraries) (text : list call) (t : string) (s s1 : state) :
  render_all L text s = (Ok t, s1) -> t <> EmptyString ->
  render L (CBlockquote [CParagraph text]) s
  = match yaml_parse L t with
    | None => (Throw MetadataParseError, with_originalP (Some t) s1)
    | Some d =>
        (Ok EmptyString,
         match currentStep s1 with
         | Some r =>
             with_objects (alter (fun o => assign o d) r) (with_originalP (Some t) s1)
         | None =>
             with_data (fun doc => assign_document doc d) (with_originalP (Some t) s1)
         end)
    end.
Proof.
  intros Hrender Ht.
  rewrite (render_unfold L (CBlockquote _)). cbn [render_all].
  rewrite (render_unfold L (CParagraph _)).
  unfold bind at 1. unfold bind at 1. unfold bind at 1. rewrite Hrender.
  unfold paragraph, bind, modify, ret, blockquote, gets, lift. cbn.
  destruct t as [|a t]; [done|]. cbn.
  destruct (yaml_parse L (String a t)) as [d|]; cbn; [|done].
  by destruct (currentStep s1).
Qed.

Lemma front_matter_is_read_from_the_raw_paragraph_witness :
  render Examples.libs (CBlockquote [CParagraph [CRaw "title: Leaked"]]) initial
  = (Ok EmptyString,
     with_data (fun doc => assign_document doc [("title", SStr "Leaked")])
       (with_originalP (Some "title: Leaked") initial)).
Proof.
  exact (front_matter_is_read_from_the_raw_paragraph Examples.libs
           [CRaw "title: Leaked"] "title: Leaked" initial initial eq_refl
           ltac:(discriminate)).
Defined.

End PugBlocks.

(** ** The elements of the tree, children first *)

Section Traversal.
Import JS Dom.

Lemma children_first_app l l' :
  children_first (l ++ l') <->
  children_first l /\ children_first l' /\
  Forall (fun p => Forall (fun q => ~ p `prefix_of` q) l') l.
Proof.
  induction l as [|p l IH]; cbn.
  - split; [intros H; by repeat split|by intros (_ & H & _)].
  - rewrite Forall_app, IH, Forall_cons. tauto.
Qed.

Lemma children_first_fmap k l :
  children_first l -> children_first (cons k <$> l).
Proof.
  induction l as [|p l IH]; [done|]. cbn. intros [Hp Hl]. split; [|by apply IH].
  apply Forall_fmap. eapply Forall_impl; [exact Hp|].
  intros q Hq Hpre. apply Hq. by eapply prefix_cons_inv_2.
Qed.

Lemma nodes_nonempty n q : q ∈ nodes n -> q <> [].
Proof.
  destruct n as [t a cs|s|s]; cbn; [|by intros ?%elem_of_nil..].
  rewrite elem_of_child_paths. by intros (i & c & _ & _ & [->|(q' & _ & ->)]).
Qed.

Lemma children_first_child_paths cs : forall k,
  Forall (fun c => children_first (nodes c)) cs ->
  children_first (child_paths false nodes k cs).
Proof.
  induction cs as [|c cs IH]; intros k Hcs; [done|].
  apply Forall_cons in Hcs as [Hc Hcs]. cbn.
  apply children_first_app. split; [|split; [by apply IH|]].
  - destruct (is_element c); [|done].
    apply children_first_app. split; [by apply children_first_fmap|].
    split; [by split|].
    apply Forall_fmap, Forall_forall. intros q Hq. constructor; [|constructor].
    cbn. intros Hpre%prefix_cons_inv_2.
    apply prefix_nil_inv in Hpre. by apply (nodes_nonempty c q).
  - assert (Hhead : Forall (fun p => exists p', p = k :: p')
                      (if is_element c then (cons k <$> nodes c) ++ [[k]] else [])).
    { destruct (is_element c); [|constructor].
      apply Forall_app. split; [|by repeat econstructor].
      apply Forall_fmap, Forall_forall. intros q _. by eexists. }
    eapply Forall_impl; [exact Hhead|]. intros p [p' ->].
    apply Forall_forall. intros q Hq Hpre.
    apply elem_of_child_paths in Hq as (i & c' & _ & _ & [->|(q' & _ & ->)]);
      apply prefix_cons_inv_1 in Hpre; lia.
Qed.

Lemma child_paths_permutation cs : forall k,
  Forall (fun c => nodes c ≡ₚ descendants c) cs ->
  child_paths false nodes k cs ≡ₚ child_paths true descendants k cs.
Proof.
  induction cs as [|c cs IH]; intros k Hcs; [done|].
  apply Forall_cons in Hcs as [Hc Hcs]. cbn.
  apply Permutation_app; [|by apply IH].
  destruct (is_element c); [|done].
  rewrite Permutation_app_comm. cbn. constructor. by apply fmap_Permutation.
Qed.

(** X11.  [nodes(element)] lists the elements below [element], each of them
    once, and each of them after all the elements below it: the loop over
    the attribute blocks reaches an element when its children have been
    dealt with. *)
Theorem nodes_lists_each_element_after_its_children (n : node) :
  nodes n ≡ₚ descendants n /\ children_first (nodes n).
Proof.
  induction n as [t a cs IH|s|s] using node_ind; [|done..].
  cbn. split.
  - apply child_paths_permutation. eapply Forall_impl; [exact IH|]. by intros c [? _].
  - apply children_first_child_paths. eapply Forall_impl; [exact IH|]. by intros c [_ ?].
Qed.

End Traversal.

(** ** Attribute blocks *)

Section AttributeBlocks.
Import JS Dom Full.

Lemma replace_unfold pat rep s :
  replace pat rep s =
  if startsWith s pat then rep +:+ bytes_from (String.length pat) s
  else match s with
       | EmptyString => EmptyString
       | String a s' => String a (replace pat rep s')
       end.
Proof. by destruct s. Qed.

Lemma replace_prefix x rep s : replace x rep (x +:+ s) = rep +:+ s.
Proof. by rewrite replace_unfold, startsWith_app, bytes_from_app. Qed.

(** X12.  Attribute blocks.  An element whose first child is a text that
    starts with a group in braces (not empty, free of the closing brace)
    has the group rendered by Pug as a template, and the group leaves the
    text.  When the first element that Pug renders is a [div], its
    attributes are set on the element, which keeps its tag, its other
    attributes and its children; when it is another element, that element
    takes the place of the element in the tree, with its own attributes
    and children, followed by the children of the element it replaces.
    When Pug renders no element, a [TypeError] is thrown. *)
Theorem attribute_block_is_applied
    (L : libraries) (body : node) (p : path) (t : string) (a : attrs)
    (inner txt html : string) (rest : list node) :
  node_at body p = Some (Element t a (Text ("{" +:+ inner +:+ "}" +:+ txt) :: rest)) ->
  inner <> EmptyString -> contains "}"%char inner = false ->
  pug_render L None inner = Some html ->
  match filter (fun n => is_element n = true) (parse_fragment L "div" html) with
  | Element rt ra rcs :: _ =>
      blockAttributes L body p
      = Ok (update_at
              (fun _ =>
                 if String.eqb rt "div"
                 then Element t
                        (foldl (fun acc kv => setAttribute acc (fst kv) (snd kv)) a ra)
                        (Text txt :: rest)
                 else Element rt ra (rcs ++ Text txt :: rest))
              p body)
  | _ => blockAttributes L body p = Throw TypeError
  end.
Proof.
  intros Hnode Hne Hfree Hpug. unfold blockAttributes. rewrite Hnode.
  rewrite (brace_group_match inner txt Hne Hfree).
  assert (E : "{" +:+ inner +:+ "}" +:+ txt = ("{" +:+ inner +:+ "}") +:+ txt).
  { symmetry. rewrite (sapp_assoc "{" (inner +:+ "}") txt).
    by rewrite (sapp_assoc inner "}" txt). }
  rewrite E, bytes_to_app, replace_prefix, sapp_nil_l.
  rewrite Hpug. cbn [or_throw rbind].
  destruct (filter _ (parse_fragment L "div" html)) as [|[rt ra rcs|x|x] more]; try done.
  by destruct (String.eqb rt "div").
Qed.

Lemma attribute_block_is_applied_witness :
  blockAttributes Examples.libs_blocks
    (Element "body" [] [Element "p" [] [Text ("{" +:+ ".red" +:+ "}" +:+ " text")]])
    [0%nat]
  = Ok (Element "body" [] [Element "p" [("class", "red")] [Text " text"]]).
Proof.
  exact (attribute_block_is_applied Examples.libs_blocks
           (Element "body" [] [Element "p" [] [Text ("{" +:+ ".red" +:+ "}" +:+ " text")]])
           [0%nat] "p" [] ".red" " text" ("<div class=" +:+ Q "red" +:+ "></div>") []
           eq_refl ltac:(discriminate) eq_refl eq_refl).
Defined.

End AttributeBlocks.

(** ** The HTML of the steps *)

Section StepHtml.
Import JS Dom Full.





End StepHtml.

(** ** Markdown inside an element *)

Section Strip.
Import JS Dom Renderer Full.

Lemma rev_app_spec s : forall acc, String.rev_app s acc = String.rev_app s "" +:+ acc.
Proof.
  induction s as [|a s IH]; intros acc; [done|]. cbn.
  rewrite (IH (String a acc)), (IH (String a "")). by rewrite sapp_assoc.
Qed.

Lemma rev_app_distr s t : String.rev (s +:+ t) = String.rev t +:+ String.rev s.
Proof.
  unfold String.rev. induction s as [|a s IH].
  - by rewrite sapp_nil_l, sapp_nil_r.
  - rewrite sapp_cons. cbn.
    rewrite (rev_app_spec (s +:+ t) (String a "")), IH.
    rewrite (rev_app_spec s (String a "")). by rewrite sapp_assoc.
Qed.

Lemma endsWith_app s p : endsWith (s +:+ p) p = true.
Proof. unfold endsWith. rewrite rev_app_distr. apply startsWith_app. Qed.

(** X14.  The text that marked renders for the content of an element of the
    class [md] loses the opening tag of a paragraph at its start and the
    closing tag of a paragraph at its end, whatever stands in between: a
    single paragraph is put into the element as its content, and of two
    paragraphs the closing tag of the first and the opening tag of the
    second stay. *)
Theorem paragraph_tags_around_the_text_are_removed
    (L : libraries) (s text : string) (st : state) :
  strip_p ("<p>" +:+ s +:+ "</p>") = s /\
  strip_p "<p>a</p><p>b</p>" = "a</p><p>b" /\
  exists html,
    fst (paragraph L text st) = Ok html /\
    strip_p html = Inline.parseParagraph (emojify L) text.
Proof.
  assert (H : forall x, strip_p ("<p>" +:+ x +:+ "</p>") = x).
  { intros x. unfold strip_p.
    change (startsWith ("<p>" +:+ x +:+ "</p>") "<p>") with true. cbv iota.
    change (bytes_from 3 ("<p>" +:+ x +:+ "</p>")) with (x +:+ "</p>").
    rewrite endsWith_app, slength_app. cbn [String.length].
    replace (String.length x + 4 - 4)%nat with (String.length x) by lia.
    apply bytes_to_app. }
  split; [apply H|]. split; [reflexivity|].
  eexists. split; [reflexivity|]. apply H.
Qed.

End Strip.
